(** * TetoDB engine: a shallow embedding and its verified properties

    The development follows the Go package [engine]:
    - [query.go]    : [MatchesFilter], [valuesMatch], [SortDocuments],
                      [compareValues], [toFloat64];
    - [storage.go]  : [StorageRecord], [Storage], [LoadAll], [Append],
                      [Compact];
    - collection    : [Collection], [Insert], [Update], [UpdateMany],
                      [Delete], [DeleteMany];
    - [db.go]       : [Database], [OpenDatabase], [loadFromDisk],
                      [GetCollection], [ListCollections], [DropCollection],
                      [Compact], [Stats].

    Go maps ([map[string]interface{}]) are finite maps [gmap string _];
    a [range] over a map visits the entries in an order the language leaves
    open, so every loop over a map takes the visiting order as an explicit
    list.  Documents are JSON values: what [encoding/json] decodes into
    [interface{}] (nil, bool, float64, string, slice, map).

    A Go map is a reference.  The collection keeps the map that [Insert]
    is given, and [Update] and [UpdateMany] write into the map that the
    collection holds: their writes are writes to the collection and happen
    where the source has them, before the append.  Every call is given a
    document of its own, as the callers of the engine do, who decode each
    argument from JSON; a caller that keeps a map and changes it behind the
    engine is not modelled.

    The log file is modelled by the records that its lines encode, in
    file order; every write ([Append], [Storage.Compact]) may fail, as the
    environment decides, and [LoadAll] fails on a file with a line that
    does not fit the buffer of its scanner. *)

From stdpp Require Import gmap strings list fin_maps sorting pretty.
From Stdlib Require Import ZArith Lia Ascii.

Set Warnings "-register-all".
Set Default Proof Using "Type".

Local Open Scope string_scope.
Local Open Scope list_scope.
Local Open Scope nat_scope.

(** ** Numbers

    JSON numbers are Go [float64]s.  The engine only uses three operations
    on them: [==] (through [reflect.DeepEqual]), [<] / [>] (in
    [compareValues]) and the [%v] verb of [fmt.Sprintf].  The development is
    parametric in these; the only law used is that [<] is asymmetric. *)
Class NumModel := {
  num : Type;
  num_eqb : num → num → bool;
  num_ltb : num → num → bool;
  num_fmt : num → string;
  num_ltb_asym : ∀ a b, num_ltb a b = true → num_ltb b a = false
}.

(** Integer-valued float64 numbers of magnitude at most 2^53, as [Z].
    [%v] prints a float64 as [%g] does with the shortest precision that
    identifies it: the plain digits up to six of them, and from 1000000
    (printed [1e+06]) on the exponent form, without trailing zeros in the
    mantissa and with at least two digits of exponent. *)
Module IntNum.

Fixpoint strip_zeros (rev_digits : list ascii) : list ascii :=
  match rev_digits with
  | "0"%char :: r => strip_zeros r
  | _ => rev_digits
  end.

Definition string_of_chars (l : list ascii) : string :=
  foldr String EmptyString l.

Fixpoint chars_of_string (s : string) : list ascii :=
  match s with
  | EmptyString => []
  | String a r => a :: chars_of_string r
  end.

(** exponent form of the digit string [ds] (at least seven digits) *)
Definition exp_form (ds : list ascii) : string :=
  let e := (length ds - 1)%nat in
  let mant := rev (strip_zeros (rev ds)) in
  let m := match mant with
           | [] => "0"
           | [d] => String d EmptyString
           | d :: rest => String d ("." +:+ string_of_chars rest)
           end in
  m +:+ "e+" +:+ (if decide (e < 10)%nat then "0" else "") +:+ pretty e.

Definition fmt_abs (n : N) : string :=
  let ds := chars_of_string (pretty n) in
  if decide (length ds ≤ 6)%nat then pretty n else exp_form ds.

Definition fmt (z : Z) : string :=
  match z with
  | Z0 => "0"
  | Zpos p => fmt_abs (Npos p)
  | Zneg p => "-" +:+ fmt_abs (Npos p)
  end.

Definition ltb_asym (a b : Z) : Z.ltb a b = true → Z.ltb b a = false :=
  λ H, proj2 (Z.ltb_ge b a) (Z.lt_le_incl _ _ (proj1 (Z.ltb_lt a b) H)).

#[export] Instance model : NumModel := {|
  num := Z;
  num_eqb := Z.eqb;
  num_ltb := Z.ltb;
  num_fmt := fmt;
  num_ltb_asym := ltb_asym
|}.

End IntNum.

(** ** Document values *)
Section Values.
Context {NM : NumModel}.

(** [interface{}] as produced by JSON decoding. *)
Inductive value : Type :=
  | VNull
  | VBool (b : bool)
  | VNum (n : num)
  | VStr (s : string)
  | VArr (l : list value)
  | VObj (m : gmap string value).

(** [strings.Join] *)
Fixpoint join (sep : string) (l : list string) : string :=
  match l with
  | [] => ""
  | [s] => s
  | s :: r => s +:+ sep +:+ join sep r
  end.

(** Map entries are printed in increasing key order. *)
Definition key_le (a b : string * string) : Prop :=
  String.leb a.1 b.1 = true.

#[global] Instance key_le_dec a b : Decision (key_le a b).
Proof. unfold key_le. apply _. Defined.

(** [fmt.Sprintf("%v", v)] *)
Fixpoint fmtV (v : value) : string :=
  match v with
  | VNull => "<nil>"
  | VBool true => "true"
  | VBool false => "false"
  | VNum n => num_fmt n
  | VStr s => s
  | VArr l => "[" +:+ join " " (map fmtV l) +:+ "]"
  | VObj m =>
      let entries := map_fold (λ k x acc, (k, fmtV x) :: acc) [] m in
      "map[" +:+
      join " " (map (λ kv, kv.1 +:+ ":" +:+ kv.2) (merge_sort key_le entries))
      +:+ "]"
  end.

(** [reflect.DeepEqual] on two [interface{}] values. *)
Fixpoint deepEqual (a b : value) : bool :=
  match a, b with
  | VNull, VNull => true
  | VBool x, VBool y => bool_decide (x = y)
  | VNum x, VNum y => num_eqb x y
  | VStr x, VStr y => String.eqb x y
  | VArr l1, VArr l2 =>
      (fix go (l1 l2 : list value) : bool :=
         match l1, l2 with
         | [], [] => true
         | x :: r1, y :: r2 => deepEqual x y && go r1 r2
         | _, _ => false
         end) l1 l2
  | VObj m1, VObj m2 =>
      bool_decide (size m1 = size m2) &&
      map_fold (λ k x acc,
                  acc && match m2 !! k with
                         | Some y => deepEqual x y
                         | None => false
                         end) true m1
  | _, _ => false
  end.

(** The dynamic type of a value (its shape at the top). *)
Inductive kind := KNull | KBool | KNum | KStr | KArr | KObj.

Definition kind_of (v : value) : kind :=
  match v with
  | VNull => KNull | VBool _ => KBool | VNum _ => KNum
  | VStr _ => KStr | VArr _ => KArr | VObj _ => KObj
  end.

End Values.

(** A document is a [map[string]interface{}]. *)
Abbreviation Doc := (gmap string value).

(** ** query.go *)
Section Query.
Context {NM : NumModel}.

(** [valuesMatch]: deep equality first, then the textual comparison. *)
Definition valuesMatch (docValue filterValue : value) : bool :=
  if deepEqual docValue filterValue then true
  else
    let docStr := fmtV docValue in
    let filterStr := fmtV filterValue in
    String.eqb docStr filterStr.

(** What one entry of the filter asks of the document. *)
Definition entry_holds (doc : Doc) (kv : string * value) : Prop :=
  ∃ docValue, doc !! kv.1 = Some docValue ∧ valuesMatch docValue kv.2 = true.

(** The body of the [for key, filterValue := range filter] loop of
    [MatchesFilter], over the entries in the order the loop visits them. *)
Fixpoint MatchesFilter_loop (doc : Doc) (entries : list (string * value)) : bool :=
  match entries with
  | [] => true
  | (key, filterValue) :: rest =>
      match doc !! key with
      | None => false
      | Some docValue =>
          if negb (valuesMatch docValue filterValue) then false
          else MatchesFilter_loop doc rest
      end
  end.

Definition MatchesFilter (doc filter : Doc) : bool :=
  if decide (size filter = 0) then true
  else MatchesFilter_loop doc (map_to_list filter).

(** [toFloat64]: of the decoded JSON values only float64 converts. *)
Definition toFloat64 (val : value) : option num :=
  match val with
  | VNum v => Some v
  | _ => None
  end.

(** [compareValues] *)
Definition compareValues (a b : value) : Z :=
  match toFloat64 a, toFloat64 b with
  | Some aFloat, Some bFloat =>
      if num_ltb aFloat bFloat then (-1)%Z
      else if num_ltb bFloat aFloat then 1%Z
      else 0%Z
  | _, _ =>
      let aStr := fmtV a in
      let bStr := fmtV b in
      if String.ltb aStr bStr then (-1)%Z
      else if String.ltb bStr aStr then 1%Z
      else 0%Z
  end.

End Query.


(** ** storage.go *)
Section StorageLog.
Context {NM : NumModel}.

(** One line of the log.  [rec_Doc = None] is the JSON [null]: a
    tombstone. *)
Record StorageRecord := {
  rec_Collection : string;
  rec_ID : string;
  rec_Doc : option Doc
}.

Inductive error :=
  | ErrDuplicateKey (id : string)   (* document with id .. already exists *)
  | ErrNotFound (id : string)       (* document with id .. not found *)
  | ErrIO                           (* a write, sync or rename failed *)
  | ErrTooLong                      (* bufio.Scanner: token too long *)
  | ErrWrap (context : string) (cause : error).

(** The log file is the sequence of the records that its lines encode:
    [Append] writes one JSON line per record and flushes it, and a decoded
    line is the record that was encoded.  [faults] is the environment:
    the outcomes of the coming write operations ([true]: the operation
    fails with an I/O error); when it is exhausted writes succeed. *)
Record Storage := {
  records : list StorageRecord;
  faults : list bool
}.

Definition next_fault (s : Storage) : bool * Storage :=
  match faults s with
  | [] => (false, s)
  | f :: fs => (f, {| records := records s; faults := fs |})
  end.

(** The number of bytes of the line that [Append] writes for a record,
    without its newline: the length of [json.Marshal(record)].  The
    development is parametric in it. *)
Class LineModel := {
  encoded_length : StorageRecord → N
}.
Context {LM : LineModel}.

(** [bufio.MaxScanTokenSize].  [LoadAll] reads the file with a
    [bufio.Scanner] to which it gives no buffer of its own: the buffer of
    the scanner grows to this size and no further. *)
Definition MaxScanTokenSize : N := 65536.

(** The line of [record], with its newline, fits the buffer of the
    scanner. *)
Definition fits (record : StorageRecord) : bool :=
  (encoded_length record + 1 <=? MaxScanTokenSize)%N.

(** Every line of the file fits. *)
Definition readable (s : Storage) : bool := forallb fits (records s).

(** [LoadAll]: the records in file order.  At a line that does not fit
    the buffer the scanner stops with [bufio.ErrTooLong], and [LoadAll]
    returns that error and no record. *)
Definition LoadAll (s : Storage) : error + list StorageRecord :=
  if readable s then inr (records s)
  else inl (ErrWrap "error reading file" ErrTooLong).

Definition Append (s : Storage) (record : StorageRecord)
  : option error * Storage :=
  let (failed, s) := next_fault s in
  if failed then (Some ErrIO, s)
  else (None, {| records := records s ++ [record]; faults := faults s |}).

(** [Storage.Compact]: the file is replaced by the given records. *)
Definition Storage_Compact (s : Storage) (recs : list StorageRecord)
  : option error * Storage :=
  let (failed, s) := next_fault s in
  if failed then (Some ErrIO, s)
  else (None, {| records := recs; faults := faults s |}).

End StorageLog.

(** ** Collections *)
Section Collections.
Context {NM : NumModel} {LM : LineModel}.

(** The [storage] pointer of the Go struct is the database's one
    [Storage]; the methods below take it and return it. *)
Record Collection := {
  name : string;
  documents : gmap string Doc
}.

Definition NewCollection (name : string) : Collection :=
  {| name := name; documents := ∅ |}.

Definition set_documents (c : Collection) (docs : gmap string Doc) : Collection :=
  {| name := name c; documents := docs |}.

(** [Insert].  [uuid] is what [uuid.New().String()] returns when it is
    called.  The document stored is the caller's map, after the
    assignment of the generated id. *)
Definition Insert (c : Collection) (s : Storage) (uuid : string) (doc : Doc)
  : (error + string) * Collection * Storage :=
  let '(id, doc) :=
    match doc !! "id" with
    | Some idVal => (fmtV idVal, doc)
    | None => (uuid, <["id" := VStr uuid]> doc)
    end in
  match documents c !! id with
  | Some _ => (inl (ErrDuplicateKey id), c, s)
  | None =>
      let c := set_documents c (<[id := doc]> (documents c)) in
      let record := {| rec_Collection := name c; rec_ID := id; rec_Doc := Some doc |} in
      match Append s record with
      | (Some err, s) =>
          (inl (ErrWrap "failed to persist document" err),
           set_documents c (delete id (documents c)), s)
      | (None, s) => (inr id, c, s)
      end
  end.

(** The id under which [Insert] files the document: the text of its
    ["id"] field, or the generated one. *)
Definition assigned_id (uuid : string) (doc : Doc) : string :=
  match doc !! "id" with
  | Some idVal => fmtV idVal
  | None => uuid
  end.

Definition FindByID (c : Collection) (id : string) : option Doc :=
  documents c !! id.

(** [for key, value := range update { existingDoc[key] = value }] *)
Definition merge_update (existingDoc update : Doc) : Doc :=
  map_fold (λ key val existingDoc, <[key := val]> existingDoc) existingDoc update.

(** [Update].  [existingDoc] is the map stored in the collection, so the
    merge and the assignment of the id change the collection at once,
    before the record is appended. *)
Definition Update (c : Collection) (s : Storage) (id : string) (update : Doc)
  : option error * Collection * Storage :=
  match documents c !! id with
  | None => (Some (ErrNotFound id), c, s)
  | Some existingDoc =>
      let existingDoc := merge_update existingDoc update in
      let existingDoc := <["id" := VStr id]> existingDoc in
      let c := set_documents c (<[id := existingDoc]> (documents c)) in
      let record := {| rec_Collection := name c; rec_ID := id;
                       rec_Doc := Some existingDoc |} in
      match Append s record with
      | (Some err, s) => (Some (ErrWrap "failed to persist update" err), c, s)
      | (None, s) => (None, c, s)
      end
  end.

(** [UpdateMany]; [order] is the order in which the [range] over
    [c.documents] visits the ids. *)
Fixpoint UpdateMany_loop (filter update : Doc) (order : list string)
    (c : Collection) (s : Storage) (count : nat)
  : (nat * option error) * Collection * Storage :=
  match order with
  | [] => ((count, None), c, s)
  | id :: rest =>
      match documents c !! id with
      | None => UpdateMany_loop filter update rest c s count
      | Some doc =>
          if MatchesFilter doc filter then
            let doc := merge_update doc update in
            let doc := <["id" := VStr id]> doc in
            let c := set_documents c (<[id := doc]> (documents c)) in
            let record := {| rec_Collection := name c; rec_ID := id;
                             rec_Doc := Some doc |} in
            match Append s record with
            | (Some err, s) =>
                ((count, Some (ErrWrap "failed to persist update" err)), c, s)
            | (None, s) => UpdateMany_loop filter update rest c s (S count)
            end
          else UpdateMany_loop filter update rest c s count
      end
  end.

Definition UpdateMany (filter update : Doc) (order : list string)
    (c : Collection) (s : Storage) :=
  UpdateMany_loop filter update order c s 0.

(** [Delete] *)
Definition Delete (c : Collection) (s : Storage) (id : string)
  : option error * Collection * Storage :=
  match documents c !! id with
  | None => (Some (ErrNotFound id), c, s)
  | Some _ =>
      let c := set_documents c (delete id (documents c)) in
      let record := {| rec_Collection := name c; rec_ID := id; rec_Doc := None |} in
      match Append s record with
      | (Some err, s) => (Some (ErrWrap "failed to persist deletion" err), c, s)
      | (None, s) => (None, c, s)
      end
  end.

(** [DeleteMany]: the ids that match are collected first (in the order
    [order] of the [range]), then deleted one by one. *)
Fixpoint DeleteMany_loop (idsToDelete : list string)
    (c : Collection) (s : Storage) (count : nat)
  : (nat * option error) * Collection * Storage :=
  match idsToDelete with
  | [] => ((count, None), c, s)
  | id :: rest =>
      let c := set_documents c (delete id (documents c)) in
      let record := {| rec_Collection := name c; rec_ID := id; rec_Doc := None |} in
      match Append s record with
      | (Some err, s) =>
          ((count, Some (ErrWrap "failed to persist deletion" err)), c, s)
      | (None, s) => DeleteMany_loop rest c s (S count)
      end
  end.

Definition DeleteMany (filter : Doc) (order : list string)
    (c : Collection) (s : Storage) :=
  let idsToDelete :=
    List.filter (λ id, match documents c !! id with
                       | Some doc => MatchesFilter doc filter
                       | None => false
                       end) order in
  DeleteMany_loop idsToDelete c s 0.

Definition Count (c : Collection) : nat := size (documents c).

End Collections.

(** ** db.go *)
Section Databases.
Context {NM : NumModel} {LM : LineModel}.

Record Database := {
  storage : Storage;
  collections : gmap string Collection
}.

(** The body of the first loop of [loadFromDisk]. *)
Definition load_record (tempData : gmap string (gmap string Doc))
    (record : StorageRecord) : gmap string (gmap string Doc) :=
  let tempData :=
    match tempData !! rec_Collection record with
    | None => <[rec_Collection record := ∅]> tempData
    | Some _ => tempData
    end in
  match rec_Doc record with
  | None => alter (delete (rec_ID record)) (rec_Collection record) tempData
  | Some doc => alter (<[rec_ID record := doc]>) (rec_Collection record) tempData
  end.

(** The two loops of [loadFromDisk]: the fold over the records in file
    order, then one [Collection] per name with at least one document
    left. *)
Definition rebuild (db : Database) (recs : list StorageRecord) : Database :=
  let tempData := foldl load_record ∅ recs in
  {| storage := storage db;
     collections :=
       map_fold (λ collName docs colls,
                   if decide (0 < size docs)
                   then <[collName := set_documents (NewCollection collName) docs]> colls
                   else colls)
                (collections db) tempData |}.

(** [loadFromDisk]: the error of [LoadAll], or the collections rebuilt
    from the records it returns. *)
Definition loadFromDisk (db : Database) : error + Database :=
  match LoadAll (storage db) with
  | inl err => inl err
  | inr recs => inr (rebuild db recs)
  end.

(** [OpenDatabase]: [s] is the storage that [NewStorage(path)] opens.
    When loading fails the storage is closed and the error returned. *)
Definition OpenDatabase (s : Storage) : error + Database :=
  match loadFromDisk {| storage := s; collections := ∅ |} with
  | inl err => inl (ErrWrap "failed to load from disk" err)
  | inr db => inr db
  end.

(** The database that [OpenDatabase] returns when it returns one. *)
Definition opened (s : Storage) : Database :=
  rebuild {| storage := s; collections := ∅ |} (records s).

Definition GetCollection (db : Database) (name : string) : Collection * Database :=
  match collections db !! name with
  | Some coll => (coll, db)
  | None =>
      let coll := NewCollection name in
      (coll, {| storage := storage db;
                collections := <[name := coll]> (collections db) |})
  end.

Definition ListCollections (db : Database) : list string :=
  (map_to_list (collections db)).*1.

(** The loop of [DropCollection]: [coll.Delete(id)] for the ids of the
    collection in the order [order] of the [range]. *)
Fixpoint DropCollection_loop (order : list string) (coll : Collection) (s : Storage)
  : option error * Collection * Storage :=
  match order with
  | [] => (None, coll, s)
  | id :: rest =>
      match documents coll !! id with
      | None => DropCollection_loop rest coll s
      | Some _ =>
          match Delete coll s id with
          | (Some err, coll, s) =>
              (Some (ErrWrap "failed to delete document" err), coll, s)
          | (None, coll, s) => DropCollection_loop rest coll s
          end
      end
  end.

Definition DropCollection (db : Database) (name : string) (order : list string)
  : option error * Database :=
  match collections db !! name with
  | None => (None, db)
  | Some coll =>
      match DropCollection_loop order coll (storage db) with
      | (Some err, coll, s) =>
          (Some err, {| storage := s; collections := <[name := coll]> (collections db) |})
      | (None, coll, s) =>
          (None, {| storage := s; collections := delete name (collections db) |})
      end
  end.


(** The records that [Compact] collects, for the order [order] in which
    the two nested [range] loops visit the (collection, id) pairs. *)
Definition collect_records (db : Database) (order : list (string * string))
  : list StorageRecord :=
  omap (λ '(collName, id),
          coll ← collections db !! collName;
          doc ← documents coll !! id;
          Some {| rec_Collection := collName; rec_ID := id; rec_Doc := Some doc |})
       order.

Definition Compact (db : Database) (order : list (string * string))
  : option error * Database :=
  let recs := collect_records db order in
  let '(err, s) := Storage_Compact (storage db) recs in
  (err, {| storage := s; collections := collections db |}).

Record DBStats := {
  stat_collections : nat;
  stat_documents : nat;
  stat_collection_stats : gmap string nat
}.

Definition Stats (db : Database) : DBStats :=
  let collStats := (λ coll, size (documents coll)) <$> collections db in
  let totalDocs := map_fold (λ _ count totalDocs, totalDocs + count) 0 collStats in
  {| stat_collections := size (collections db);
     stat_documents := totalDocs;
     stat_collection_stats := collStats |}.

(** *** Calls on a database

    A caller obtains the collection with [GetCollection] and calls the
    method on it; the collection is a pointer held by the registry, so
    the registry sees the change. *)
Definition on_collection {R} (db : Database) (collName : string)
    (method : Collection → Storage → R * Collection * Storage) : R * Database :=
  let (coll, db) := GetCollection db collName in
  let '(r, coll, s) := method coll (storage db) in
  (r, {| storage := s; collections := <[collName := coll]> (collections db) |}).

Inductive call :=
  | CallInsert (collName uuid : string) (doc : Doc)
  | CallUpdate (collName id : string) (update : Doc)
  | CallDelete (collName id : string).

(** One call; [None] is success. *)
Definition run_call (db : Database) (c : call) : option error * Database :=
  match c with
  | CallInsert collName uuid doc =>
      let (r, db) := on_collection db collName (λ coll s, Insert coll s uuid doc) in
      (match r with inl err => Some err | inr _ => None end, db)
  | CallUpdate collName id update =>
      on_collection db collName (λ coll s, Update coll s id update)
  | CallDelete collName id =>
      on_collection db collName (λ coll s, Delete coll s id)
  end.

(** A sequence of calls all of which succeed. *)
Fixpoint run_calls (db : Database) (cs : list call) : option Database :=
  match cs with
  | [] => Some db
  | c :: rest =>
      match run_call db c with
      | (None, db) => run_calls db rest
      | (Some _, _) => None
      end
  end.

(** The materialized state: the document under [id] in collection
    [collName], if any. *)
Definition lookup_doc (db : Database) (collName id : string) : option Doc :=
  coll ← collections db !! collName; documents coll !! id.

End Databases.

(** ** Sorting (query.go) *)
Section Sorting.
Context {NM : NumModel} {LM : LineModel}.

(** The decision of the inner loop body for two neighbours. *)
Definition shouldSwap (field direction : string) (doc1 doc2 : Doc) : bool :=
  match doc1 !! field, doc2 !! field with
  | Some val1, Some val2 =>
      if String.eqb direction "desc"
      then (compareValues val1 val2 <? 0)%Z
      else (compareValues val1 val2 >? 0)%Z
  | _, _ => false       (* a missing field: continue *)
  end.

(** The body of the inner loop at index [j]; the loop bounds keep [j + 1]
    within the slice. *)
Definition sort_step (field direction : string) (docs : list Doc) (j : nat)
  : list Doc :=
  match docs !! j, docs !! (j + 1) with
  | Some doc1, Some doc2 =>
      if shouldSwap field direction doc1 doc2
      then <[j := doc2]> (<[j + 1 := doc1]> docs)
      else docs
  | _, _ => docs
  end.

(** [for j := j0; j < j0 + steps; j++] *)
Fixpoint sort_inner (field direction : string) (docs : list Doc) (j steps : nat)
  : list Doc :=
  match steps with
  | 0 => docs
  | S steps => sort_inner field direction (sort_step field direction docs j) (S j) steps
  end.

(** [for i := i0; i < i0 + passes; i++ { for j := 0; j < n-i-1; j++ .. }] *)
Fixpoint sort_outer (field direction : string) (n : nat) (docs : list Doc)
    (i passes : nat) : list Doc :=
  match passes with
  | 0 => docs
  | S passes =>
      sort_outer field direction n
        (sort_inner field direction docs 0 (n - i - 1)) (S i) passes
  end.

Definition SortDocuments (docs : list Doc) (field direction : string) : list Doc :=
  let n := length docs in
  sort_outer field direction n docs 0 (n - 1).

(** One run of the inner loop seen from the element it carries along:
    [carry k c l] makes [k] comparisons, starting with [c] against the
    head of [l]. *)
Fixpoint carry (field direction : string) (k : nat) (c : Doc) (l : list Doc)
  : list Doc :=
  match k, l with
  | S k, e :: t =>
      if shouldSwap field direction c e
      then e :: carry field direction k c t
      else c :: carry field direction k e t
  | _, _ => c :: l
  end.

(** Every element of [P] either need not be swapped with [x], or has a
    later element of [P] with which it need not be swapped. *)
Definition blocked (field direction : string) (P : list Doc) (x : Doc) : Prop :=
  ∀ A e B, P = A ++ e :: B →
    shouldSwap field direction e x = false ∨
    ∃ d, d ∈ B ∧ shouldSwap field direction e d = false.

(** No two neighbours are in the order that the loop swaps. *)
Definition in_order (field direction : string) (l : list Doc) : Prop :=
  Sorted (λ a b, shouldSwap field direction a b = false) l.

(** Two documents that have the field and stand in the order asked for:
    the first compares below or equal to the second, or above or equal
    for ["desc"]. *)
Definition in_direction (field direction : string) (doc1 doc2 : Doc) : Prop :=
  ∃ val1 val2,
    doc1 !! field = Some val1 ∧ doc2 !! field = Some val2 ∧
    if String.eqb direction "desc"
    then (compareValues val1 val2 >= 0)%Z
    else (compareValues val1 val2 <= 0)%Z.

End Sorting.

(** ** The fold rule of the specification *)
Section FoldRule.
Context {NM : NumModel} {LM : LineModel}.

(** The last record of the log for (collection, id). *)
Definition last_record (log : list StorageRecord) (collName id : string)
  : option StorageRecord :=
  last (filter (λ r, rec_Collection r = collName ∧ rec_ID r = id) log).

(** Last record wins: its document, or nothing when it is a tombstone
    or when there is no record. *)
Definition replay_spec (log : list StorageRecord) (collName id : string)
  : option Doc :=
  r ← last_record log collName id; rec_Doc r.

(** The memory agrees with the log: every lookup gives what the fold
    rule gives on the records of the file. *)
Definition log_consistent (db : Database) : Prop :=
  ∀ collName id,
    lookup_doc db collName id = replay_spec (records (storage db)) collName id.

(** Every collection is registered under its own name. *)
Definition names_ok (db : Database) : Prop :=
  ∀ collName coll, collections db !! collName = Some coll → name coll = collName.


(** A lookup in the temporary map of [loadFromDisk]. *)
Definition lookup_temp (tempData : gmap string (gmap string Doc))
    (collName id : string) : option Doc :=
  docs ← tempData !! collName; docs !! id.

(** [order] visits every live (collection, id) pair once. *)
Definition enumerates (db : Database) (order : list (string * string)) : Prop :=
  NoDup order ∧
  ∀ collName id, (collName, id) ∈ order ↔ is_Some (lookup_doc db collName id).

End FoldRule.

(** ** Reachable states and the identifier field *)
Section Reachability.
Context {NM : NumModel} {LM : LineModel}.

(** The states of a database file created empty and used through the
    engine; every write may fail ([fs] is arbitrary), and every loop over
    a map may visit it in any order. *)
Inductive reachable : Database → Prop :=
  | reach_new fs db :
      OpenDatabase {| records := []; faults := fs |} = inr db →
      reachable db
  | reach_call db c :
      reachable db → reachable (run_call db c).2
  | reach_UpdateMany db collName filter update order :
      reachable db →
      reachable (on_collection db collName (UpdateMany filter update order)).2
  | reach_DeleteMany db collName filter order :
      reachable db →
      reachable (on_collection db collName (DeleteMany filter order)).2
  | reach_GetCollection db collName :
      reachable db → reachable (GetCollection db collName).2
  | reach_DropCollection db collName order :
      reachable db → reachable (DropCollection db collName order).2
  | reach_Compact db order :
      reachable db → reachable (Compact db order).2
  | reach_reopen db fs db' :
      reachable db →
      OpenDatabase {| records := records (storage db); faults := fs |} = inr db' →
      reachable db'.

(** The identifier field of [doc] is the string [key]. *)
Definition id_is (key : string) (doc : Doc) : Prop :=
  doc !! "id" = Some (VStr key).

(** The identifier field of [doc] prints as [key]. *)
Definition id_prints_as (key : string) (doc : Doc) : Prop :=
  ∃ idVal, doc !! "id" = Some idVal ∧ fmtV idVal = key.

Definition keyed_by_id (c : Collection) : Prop :=
  ∀ key doc, documents c !! key = Some doc → id_is key doc.

Definition keyed_by_id_text (c : Collection) : Prop :=
  ∀ key doc, documents c !! key = Some doc → id_prints_as key doc.

Definition log_keyed_by_id_text (log : list StorageRecord) : Prop :=
  ∀ r doc, r ∈ log → rec_Doc r = Some doc → id_prints_as (rec_ID r) doc.

(** The invariant, for one collection and the log, and for a database. *)
Definition keyed (c : Collection) (s : Storage) : Prop :=
  keyed_by_id_text c ∧ log_keyed_by_id_text (records s).

Definition db_keyed (db : Database) : Prop :=
  (∀ collName coll, collections db !! collName = Some coll → keyed_by_id_text coll) ∧
  log_keyed_by_id_text (records (storage db)).

End Reachability.

(** ** Reading a collection *)
Section Reading.
Context {NM : NumModel} {LM : LineModel}.

(** [order] is an order in which a [range] over the map [m] can visit its
    keys: each key once. *)
Definition ranges_over {A} (m : gmap string A) (order : list string) : Prop :=
  NoDup order ∧ ∀ key, key ∈ order ↔ is_Some (m !! key).

(** [FindAll]; [order] is the order of the [range] over [c.documents]. *)
Definition FindAll (c : Collection) (order : list string) : list Doc :=
  omap (λ id, documents c !! id) order.

(** [Find] *)
Definition Find (c : Collection) (filter : Doc) (order : list string) : list Doc :=
  if decide (size filter = 0) then FindAll c order
  else
    omap (λ id, doc ← documents c !! id;
                if MatchesFilter doc filter then Some doc else None) order.

(** [CountWhere] *)
Definition CountWhere (c : Collection) (filter : Doc) (order : list string) : nat :=
  if decide (size filter = 0) then size (documents c)
  else
    foldl (λ count id,
             match documents c !! id with
             | Some doc => if MatchesFilter doc filter then S count else count
             | None => count
             end) 0 order.

(** The ids that [UpdateMany] and [DeleteMany] act on: those whose
    document matches, in visiting order. *)
Definition matching_ids (c : Collection) (filter : Doc) (order : list string)
  : list string :=
  List.filter (λ id, match documents c !! id with
                     | Some doc => MatchesFilter doc filter
                     | None => false
                     end) order.

(** The record that deletes [id]. *)
Definition tombstone (c : Collection) (id : string) : StorageRecord :=
  {| rec_Collection := name c; rec_ID := id; rec_Doc := None |}.

(** What [Update] makes of a stored document. *)
Definition merged (id : string) (existingDoc update : Doc) : Doc :=
  <["id" := VStr id]> (merge_update existingDoc update).

(** The record that [UpdateMany] appends for [id]: the merged document. *)
Definition update_record (c : Collection) (update : Doc) (id : string)
  : StorageRecord :=
  {| rec_Collection := name c; rec_ID := id;
     rec_Doc := (λ doc, merged id doc update) <$> documents c !! id |}.

(** [QueryBuilder]; [Where] writes into the builder's map and returns the
    builder itself: [Where q field val] is that one builder after the
    call. *)
Record QueryBuilder := { qb_filter : Doc }.

Definition NewQuery : QueryBuilder := {| qb_filter := ∅ |}.

Definition Where (q : QueryBuilder) (field : string) (val : value) : QueryBuilder :=
  {| qb_filter := <[field := val]> (qb_filter q) |}.

Definition Build (q : QueryBuilder) : Doc := qb_filter q.

End Reading.

(** ** Filter strings (query.go)

    A Go string is a sequence of bytes, and so is a [string] here.  The
    separators of [ParseFilterString] are single bytes. *)
Section FilterStrings.
Context {NM : NumModel} {LM : LineModel}.

Definition bytes (codes : list N) : string :=
  foldr (λ code s, String (ascii_of_N code) s) "" codes.

(** The UTF-8 encodings of the runes for which [unicode.IsSpace] holds:
    tab to carriage return and the space, U+0085, U+00A0, U+1680, U+2000
    to U+200A, U+2028, U+2029, U+202F, U+205F and U+3000. *)
Definition space_runes : list string :=
  bytes <$>
    [ [0x09]; [0x0A]; [0x0B]; [0x0C]; [0x0D]; [0x20];
      [0xC2; 0x85]; [0xC2; 0xA0];
      [0xE1; 0x9A; 0x80];
      [0xE2; 0x80; 0x80]; [0xE2; 0x80; 0x81]; [0xE2; 0x80; 0x82];
      [0xE2; 0x80; 0x83]; [0xE2; 0x80; 0x84]; [0xE2; 0x80; 0x85];
      [0xE2; 0x80; 0x86]; [0xE2; 0x80; 0x87]; [0xE2; 0x80; 0x88];
      [0xE2; 0x80; 0x89]; [0xE2; 0x80; 0x8A];
      [0xE2; 0x80; 0xA8]; [0xE2; 0x80; 0xA9]; [0xE2; 0x80; 0xAF];
      [0xE2; 0x81; 0x9F];
      [0xE3; 0x80; 0x80] ]%N.

(** [s] without the prefix [p], when it has it. *)
Fixpoint strip_prefix (p s : string) : option string :=
  match p, s with
  | "", _ => Some s
  | String a p, String b s => if Ascii.eqb a b then strip_prefix p s else None
  | String _ _, "" => None
  end.

(** [s] without the one of the [patterns] that it starts with. *)
Definition strip_one (patterns : list string) (s : string) : option string :=
  head (omap (λ p, strip_prefix p s) patterns).

(** The loop that drops leading patterns; it runs at most once per byte
    of [s]. *)
Fixpoint trim_start (patterns : list string) (fuel : nat) (s : string) : string :=
  match fuel with
  | 0 => s
  | S fuel =>
      match strip_one patterns s with
      | Some rest => trim_start patterns fuel rest
      | None => s
      end
  end.

(** [strings.TrimSpace]: the white space runes at the start are dropped,
    then those at the end.  A rune ends the string exactly when its
    encoding is a suffix of it, which is how [utf8.DecodeLastRuneInString]
    finds it. *)
Definition TrimLeft (s : string) : string :=
  trim_start space_runes (String.length s) s.

Definition TrimRight (s : string) : string :=
  String.rev (trim_start (String.rev <$> space_runes) (String.length s)
                         (String.rev s)).

Definition TrimSpace (s : string) : string := TrimRight (TrimLeft s).

(** [strings.Split(s, sep)] *)
Fixpoint Split (s : string) (sep : ascii) : list string :=
  match s with
  | "" => [""]
  | String a rest =>
      if Ascii.eqb a sep then "" :: Split rest sep
      else match Split rest sep with
           | part :: parts => String a part :: parts
           | [] => [s]
           end
  end.

(** [strings.SplitN(s, sep, 2)]: cut at the first separator. *)
Fixpoint SplitN2 (s : string) (sep : ascii) : list string :=
  match s with
  | "" => [""]
  | String a rest =>
      if Ascii.eqb a sep then [""; rest]
      else match SplitN2 rest sep with
           | [before; after] => [String a before; after]
           | _ => [s]
           end
  end.

(** The body of the loop of [ParseFilterString]. *)
Definition ParseFilterString_part (filter : Doc) (part : string) : Doc :=
  let part := TrimSpace part in
  if decide (part = "") then filter
  else
    match SplitN2 part "=" with
    | [field; val] => <[TrimSpace field := VStr (TrimSpace val)]> filter
    | _ => filter
    end.

Definition ParseFilterString (filterStr : string) : Doc :=
  if decide (filterStr = "") then ∅
  else foldl ParseFilterString_part ∅ (Split filterStr ",").

(** [s] holds the byte [c]. *)
Fixpoint has_byte (c : ascii) (s : string) : bool :=
  match s with
  | "" => false
  | String a rest => Ascii.eqb a c || has_byte c rest
  end.

(** A run of white space runes. *)
Inductive spaces : string → Prop :=
  | spaces_nil : spaces ""
  | spaces_cons r w : r ∈ space_runes → spaces w → spaces (r +:+ w).

(** [p] and [s] have different bytes at some place where both have one:
    then [p] is no prefix of [s], whatever follows [s]. *)
Fixpoint differ (p s : string) : bool :=
  match p, s with
  | String a p, String b s => if Ascii.eqb a b then differ p s else true
  | _, _ => false
  end.

(** No white space rune begins at the start of [s], none ends at its
    end; [s] is not empty. *)
Definition tight (s : string) : bool :=
  forallb (λ r, differ r s) space_runes &&
  forallb (λ r, differ (String.rev r) (String.rev s)) space_runes.

(** A field and a value as [ParseFilterString] stores them: trimmed, and
    the value a string. *)
Definition trimmed_entry (key : string) (v : value) : Prop :=
  TrimSpace key = key ∧ ∃ str, v = VStr str ∧ TrimSpace str = str.

End FilterStrings.

(** ** The memory within the log *)
Section Within.
Context {NM : NumModel} {LM : LineModel}.




End Within.

(** ** The lines of the log

    The length of the line that [json.Marshal] gives for a record, for
    documents with integer-valued numbers ([IntNum]) and strings that are
    valid UTF-8, as the strings of a decoded JSON document are.  A number
    is written with its decimal digits.  In a string, the bytes of the
    quotation mark, the backslash and of backspace, form feed, newline,
    carriage return and tab are written as a two-byte escape; the other
    control characters and, because [json.Marshal] escapes for HTML, the
    characters <, > and & as a six-byte [\u00XX]; U+2028 and U+2029 as a
    six-byte [\u202X]; every other byte as it is. *)
Module IntLines.
Import IntNum.

Definition json_byte_length (a : ascii) : N :=
  let code := N_of_ascii a in
  if decide (code = 34 ∨ code = 92)%N then 2
  else if decide (code = 8 ∨ code = 9 ∨ code = 10 ∨ code = 12 ∨ code = 13)%N then 2
  else if decide (code < 32)%N then 6
  else if decide (code = 60 ∨ code = 62 ∨ code = 38)%N then 6
  else 1.

Fixpoint json_string_body (s : string) : N :=
  match s with
  | "" => 0
  | String "226" (String "128" (String "168" rest)) => 6 + json_string_body rest
  | String "226" (String "128" (String "169" rest)) => 6 + json_string_body rest
  | String a rest => json_byte_length a + json_string_body rest
  end.

Definition json_string_length (s : string) : N := 2 + json_string_body s.

Definition json_number_length (n : Z) : N := N.of_nat (String.length (pretty n)).

Fixpoint json_value_length (v : value) : N :=
  match v with
  | VNull => 4
  | VBool true => 4
  | VBool false => 5
  | VNum n => json_number_length n
  | VStr s => json_string_length s
  | VArr l =>
      2 + (fix go (l : list value) : N :=
             match l with
             | [] => 0
             | x :: r => json_value_length x + go r
             end) l
        + (N.of_nat (length l) - 1)
  | VObj m =>
      2 + map_fold (λ key x acc, acc + json_string_length key + 1
                                 + json_value_length x) 0 m
        + (N.of_nat (size m) - 1)
  end%N.

(** [{"collection":..,"id":..,"doc":..}]: 28 bytes around the three
    values. *)
Definition json_record_length (r : StorageRecord) : N :=
  (28 + json_string_length (rec_Collection r) + json_string_length (rec_ID r)
   + match rec_Doc r with
     | None => 4
     | Some doc => json_value_length (VObj doc)
     end)%N.

#[export] Instance lines : LineModel := {|
  encoded_length := json_record_length
|}.

End IntLines.

(** ** Sample data

    The concrete runs use integer-valued numbers ([IntNum]). *)
Module Samples.
Import IntNum IntLines.

Definition empty_file : Storage := {| records := []; faults := [] |}.
Definition failing_disk (log : list StorageRecord) : Storage :=
  {| records := log; faults := [true] |}.

Definition bob : Doc := {[ "name" := VStr "Bob" ]}.
Definition ann : Doc := <["id" := VStr "u1"]> {[ "name" := VStr "Ann" ]}.
Definition age30 : Doc := {[ "age" := VNum 30%Z ]}.
Definition ann30 : Doc := <["age" := VNum 30%Z]> ann.
Definition numbered : Doc := <["id" := VNum 5%Z]> {[ "name" := VStr "Eve" ]}.

Definition users (docs : gmap string Doc) : Collection :=
  {| name := "users"; documents := docs |}.

(** A run in the manner of the end-to-end scenario of the specification:
    two inserts (one id generated, one given), an update, a deletion. *)
Definition scenario : list call :=
  [ CallInsert "users" "G1" bob;
    CallInsert "users" "unused" ann;
    CallUpdate "users" "u1" age30;
    CallDelete "users" "G1" ].

(** A database that holds Ann in the collection users. *)
Definition one_user : Database :=
  {| storage := empty_file;
     collections := {[ "users" := users {[ "u1" := ann30 ]} ]} |}.

(** A new database after the insert of a document whose id is a number. *)
Definition after_numbered : Database :=
  (run_call (opened empty_file) (CallInsert "users" "G2" numbered)).2.

Definition aged (n : Z) : Doc := {[ "age" := VNum n ]}.

End Samples.

(** More sample data: a collection, and a file, with one document. *)
Module MoreSamples.
Import IntNum IntLines Samples.

Definition ann_alone : Collection := users {[ "u1" := ann30 ]}.

Definition ann_record : StorageRecord :=
  {| rec_Collection := "users"; rec_ID := "u1"; rec_Doc := Some ann30 |}.

Definition ann_file : Storage := {| records := [ann_record]; faults := [] |}.

Definition ann_db : Database := opened ann_file.

(** A document whose line is longer than the buffer of the scanner: a
    text of 65536 bytes. *)
Fixpoint doubled (k : nat) (s : string) : string :=
  match k with
  | 0 => s
  | S k => doubled k (s +:+ s)
  end.

Definition long_text : string := doubled 16 "a".

Definition long_doc : Doc :=
  <["id" := VStr "big"]> {[ "text" := VStr long_text ]}.

Definition long_record : StorageRecord :=
  {| rec_Collection := "users"; rec_ID := "big"; rec_Doc := Some long_doc |}.


(** Documents with one field, and a list in which the values of that
    field are two numbers and a text. *)
Definition valued (v : value) : Doc := {[ "v" := v ]}.

Definition ten : value := VNum 10%Z.
Definition nine : value := VNum 9%Z.

Definition mixed : list Doc := [valued ten; valued (VStr "9"); valued nine].

(** A filter that Ann matches. *)
Definition is_ann : Doc := {[ "name" := VStr "Ann" ]}.

Definition thirty : value := VNum 30%Z.

End MoreSamples.

(** * Properties *)

(** ** The query matcher *)
Section QueryProps.
Context {NM : NumModel} {LM : LineModel}.

Lemma valuesMatch_true (a b : value) :
  valuesMatch a b = true ↔ deepEqual a b = true ∨ fmtV a = fmtV b.
Proof.
  unfold valuesMatch. destruct (deepEqual a b) eqn:E; simpl.
  - split; auto.
  - rewrite String.eqb_eq. split; [auto | intros [?|?]; [done | auto]].
Qed.

Lemma MatchesFilter_loop_true (doc : Doc) (entries : list (string * value)) :
  MatchesFilter_loop doc entries = true ↔ Forall (entry_holds doc) entries.
Proof.
  induction entries as [|[key fv] rest IH]; simpl.
  - split; [constructor | done].
  - rewrite Forall_cons, <- IH. unfold entry_holds; simpl.
    destruct (doc !! key) as [dv|] eqn:Hk.
    + destruct (valuesMatch dv fv) eqn:Hm; simpl.
      * split; [intros ?; split; eauto | tauto].
      * split; [done | intros [(? & ? & ?) _]; congruence].
    + split; [done | intros [(? & ? & ?) _]; congruence].
Qed.

Lemma MatchesFilter_loop_perm (doc : Doc) (e1 e2 : list (string * value)) :
  e1 ≡ₚ e2 → MatchesFilter_loop doc e1 = MatchesFilter_loop doc e2.
Proof.
  intros Hp. apply eq_true_iff_eq.
  rewrite !MatchesFilter_loop_true. by rewrite Hp.
Qed.

Lemma MatchesFilter_empty (doc : Doc) : MatchesFilter doc ∅ = true.
Proof. done. Qed.

Lemma MatchesFilter_true (doc filter : Doc) :
  MatchesFilter doc filter = true ↔
  ∀ key filterValue, filter !! key = Some filterValue →
    ∃ docValue, doc !! key = Some docValue ∧
                valuesMatch docValue filterValue = true.
Proof.
  unfold MatchesFilter. destruct (decide (size filter = 0)) as [Hz|Hz].
  - apply map_size_empty_iff in Hz. subst filter.
    split; [|done]. intros _ key fv. by rewrite lookup_empty.
  - rewrite MatchesFilter_loop_true, Forall_forall. split.
    + intros H key fv Hk.
      apply (H (key, fv)), elem_of_map_to_list, Hk.
    + intros H [key fv] Hin.
      apply elem_of_map_to_list in Hin. by apply H.
Qed.

(** C7.  [MatchesFilter] accepts every document when the filter is
    empty; in general it accepts exactly the documents that have every
    key of the filter with a value that [valuesMatch] accepts (a
    conjunction over the filter's entries, nothing else); and the order
    in which the [range] loop visits the entries does not matter. *)
Theorem C7_MatchesFilter_conjunction (doc filter : Doc) :
  MatchesFilter doc ∅ = true ∧
  (MatchesFilter doc filter = true ↔
     ∀ key filterValue, filter !! key = Some filterValue →
       ∃ docValue, doc !! key = Some docValue ∧
                   valuesMatch docValue filterValue = true) ∧
  (∀ entries, entries ≡ₚ map_to_list filter →
     MatchesFilter_loop doc entries = MatchesFilter doc filter).
Proof.
  split; [done|]. split; [apply MatchesFilter_true|].
  intros entries Hp. rewrite (MatchesFilter_loop_perm _ _ _ Hp).
  unfold MatchesFilter. destruct (decide (size filter = 0)) as [Hz|Hz]; [|done].
  apply map_size_empty_iff in Hz. subst filter. by rewrite map_to_list_empty.
Qed.

(** C8.  [valuesMatch] accepts two values exactly when they are deeply
    equal or print the same, whatever their shapes: two arrays of two
    strings each, which are not deeply equal, match because both print as
    [[a b c]]. *)
Theorem C8_valuesMatch_textual_collision :
  (∀ a b, valuesMatch a b = true ↔ deepEqual a b = true ∨ fmtV a = fmtV b) ∧
  let docValue := VArr [VStr "a b"; VStr "c"] in
  let filterValue := VArr [VStr "a"; VStr "b c"] in
  kind_of docValue = kind_of filterValue ∧
  deepEqual docValue filterValue = false ∧
  fmtV docValue = "[a b c]" ∧ fmtV filterValue = "[a b c]" ∧
  valuesMatch docValue filterValue = true.
Proof. split; [apply valuesMatch_true|]. by cbv. Qed.

End QueryProps.

(** ** Collections: insertion, and what a failed append leaves behind *)
Section CollectionProps.
Context {NM : NumModel} {LM : LineModel}.

Lemma set_documents_id (c : Collection) : set_documents c (documents c) = c.
Proof. by destruct c. Qed.

Lemma set_documents_twice (c : Collection) (d1 d2 : gmap string Doc) :
  set_documents (set_documents c d1) d2 = set_documents c d2.
Proof. done. Qed.

Lemma Append_fault (s : Storage) (r : StorageRecord) (fs : list bool) :
  faults s = true :: fs →
  Append s r = (Some ErrIO, {| records := records s; faults := fs |}).
Proof. intros H. unfold Append, next_fault. by rewrite H. Qed.

Lemma Append_ok (s : Storage) (r : StorageRecord) (s' : Storage) :
  Append s r = (None, s') → records s' = records s ++ [r].
Proof.
  unfold Append, next_fault.
  destruct (faults s) as [|[] fs]; simpl; intros [= <-]; done.
Qed.

Lemma Append_records (s : Storage) (r : StorageRecord) e (s' : Storage) :
  Append s r = (e, s') →
  (e = None ∧ records s' = records s ++ [r]) ∨
  (e = Some ErrIO ∧ records s' = records s).
Proof.
  unfold Append, next_fault.
  destruct (faults s) as [|[] fs]; simpl; intros [= <- <-]; auto.
Qed.

Lemma merge_update_union (existingDoc update : Doc) :
  merge_update existingDoc update = update ∪ existingDoc.
Proof.
  unfold merge_update.
  apply (map_fold_weak_ind (λ r (m : Doc), r = m ∪ existingDoc)).
  - by rewrite (left_id_L ∅ (∪)).
  - intros i x m r _ ->. by rewrite insert_union_l.
Qed.

(** C5.  When the append of [Insert] fails, the error is returned and
    the collection is what it was before the call: the document is not
    in the map, and the log has no new record. *)
Theorem C5_Insert_rollback (c : Collection) (s : Storage) (uuid : string)
    (doc : Doc) (fs : list bool) :
  faults s = true :: fs →
  documents c !! assigned_id uuid doc = None →
  ∃ err c' s',
    Insert c s uuid doc = (inl (ErrWrap "failed to persist document" err), c', s') ∧
    c' = c ∧
    documents c' = documents c ∧
    FindByID c' (assigned_id uuid doc) = None ∧
    records s' = records s.
Proof.
  intros Hf Hnone. unfold Insert, assigned_id in *.
  destruct (doc !! "id") as [idVal|] eqn:Hid; rewrite Hnone;
    rewrite (Append_fault _ _ _ Hf); simpl;
    rewrite set_documents_twice, delete_insert_eq, delete_id,
      set_documents_id by done;
    eexists _, _, _; split_and!; done.
Qed.

(** C6.  [Insert] of a document whose id (given, or generated) is
    already in the collection returns the duplicate-key error and
    changes neither the collection nor the log. *)
Theorem C6_Insert_duplicate (c : Collection) (s : Storage) (uuid : string)
    (doc existing : Doc) :
  documents c !! assigned_id uuid doc = Some existing →
  Insert c s uuid doc = (inl (ErrDuplicateKey (assigned_id uuid doc)), c, s) ∧
  FindByID c (assigned_id uuid doc) = Some existing.
Proof.
  intros Hdup. split; [|done]. unfold Insert, assigned_id in *.
  destruct (doc !! "id") as [idVal|]; by rewrite Hdup.
Qed.

(** C2.  [Delete] and [Update] change the map before they append: when
    the append fails the error is returned, the log is unchanged, and
    the document is gone (for [Delete]) or already merged (for
    [Update]).  [UpdateMany] and [DeleteMany] do the same for the
    document they are at when the append fails. *)
Theorem C2_mutation_precedes_append (c : Collection) (s : Storage)
    (id : string) (doc update : Doc) (fs : list bool) :
  documents c !! id = Some doc →
  faults s = true :: fs →
  (∃ err c' s',
     Delete c s id = (Some err, c', s') ∧ records s' = records s ∧
     FindByID c' id = None) ∧
  (∃ err c' s',
     Update c s id update = (Some err, c', s') ∧ records s' = records s ∧
     FindByID c' id = Some (<["id" := VStr id]> (update ∪ doc))) ∧
  (∃ err c' s',
     DeleteMany ∅ [id] c s = ((0, Some err), c', s') ∧ records s' = records s ∧
     FindByID c' id = None) ∧
  (∃ err c' s',
     UpdateMany ∅ update [id] c s = ((0, Some err), c', s') ∧
     records s' = records s ∧
     FindByID c' id = Some (<["id" := VStr id]> (update ∪ doc))).
Proof.
  intros Hdoc Hf. split_and!.
  - unfold Delete. rewrite Hdoc, (Append_fault _ _ _ Hf).
    eexists _, _, _. split_and!; [done..|]. apply lookup_delete_eq.
  - unfold Update. rewrite Hdoc, (Append_fault _ _ _ Hf).
    eexists _, _, _. split_and!; [done..|].
    unfold FindByID; simpl. by rewrite lookup_insert_eq, merge_update_union.
  - unfold DeleteMany. cbn [List.filter]. rewrite Hdoc, MatchesFilter_empty.
    cbn [DeleteMany_loop]. rewrite (Append_fault _ _ _ Hf).
    eexists _, _, _. split_and!; [done..|]. apply lookup_delete_eq.
  - unfold UpdateMany. cbn [UpdateMany_loop]. rewrite Hdoc, MatchesFilter_empty.
    rewrite (Append_fault _ _ _ Hf).
    eexists _, _, _. split_and!; [done..|].
    unfold FindByID; simpl. by rewrite lookup_insert_eq, merge_update_union.
Qed.

End CollectionProps.

(** ** Replay *)
Section ReplayProps.
Context {NM : NumModel} {LM : LineModel}.

Lemma replay_spec_nil (collName id : string) : replay_spec [] collName id = None.
Proof. done. Qed.

Lemma replay_spec_snoc (log : list StorageRecord) (r : StorageRecord)
    (collName id : string) :
  replay_spec (log ++ [r]) collName id =
  if decide (rec_Collection r = collName ∧ rec_ID r = id)
  then rec_Doc r else replay_spec log collName id.
Proof.
  unfold replay_spec, last_record. rewrite filter_app, filter_cons, filter_nil.
  case_decide.
  - by rewrite last_snoc.
  - by rewrite app_nil_r.
Qed.

Lemma lookup_temp_load_record (tempData : gmap string (gmap string Doc))
    (r : StorageRecord) (collName id : string) :
  lookup_temp (load_record tempData r) collName id =
  if decide (rec_Collection r = collName ∧ rec_ID r = id)
  then rec_Doc r else lookup_temp tempData collName id.
Proof.
  unfold lookup_temp, load_record.
  destruct r as [rc ri rd]; simpl.
  destruct (decide (rc = collName)) as [->|Hne].
  - destruct (tempData !! collName) as [docs|] eqn:Ht; destruct rd as [doc|];
      rewrite ?lookup_alter_eq, ?lookup_insert_eq, ?Ht; simpl;
      (destruct (decide (ri = id)) as [->|Hi];
       [ rewrite decide_True by done;
         rewrite ?lookup_insert_eq, ?lookup_delete_eq; done
       | rewrite decide_False by tauto;
         rewrite ?lookup_insert_ne, ?lookup_delete_ne by done; done ]).
  - rewrite decide_False by tauto.
    destruct (tempData !! rc) as [docs|] eqn:Ht; destruct rd as [doc|];
      rewrite ?lookup_alter_ne, ?lookup_insert_ne by done; done.
Qed.

Lemma lookup_temp_foldl (log : list StorageRecord) (collName id : string) :
  lookup_temp (foldl load_record ∅ log) collName id = replay_spec log collName id.
Proof.
  induction log as [|r log IH] using rev_ind.
  - done.
  - rewrite foldl_snoc, lookup_temp_load_record, replay_spec_snoc.
    case_decide; [done | apply IH].
Qed.

Lemma loadFromDisk_collections (s : Storage) (collName : string) :
  collections (opened s) !! collName =
  match foldl load_record ∅ (records s) !! collName with
  | Some docs =>
      if decide (0 < size docs)
      then Some {| name := collName; documents := docs |} else None
  | None => None
  end.
Proof.
  unfold opened, rebuild; simpl.
  generalize (foldl load_record ∅ (records s)). intros tempData.
  revert collName.
  apply (map_fold_weak_ind (λ (r : gmap string Collection)
                              (m : gmap string (gmap string Doc)),
           ∀ collName, r !! collName =
             match m !! collName with
             | Some docs =>
                 if decide (0 < size docs)
                 then Some {| name := collName; documents := docs |} else None
             | None => None
             end)).
  - intros n. by rewrite !lookup_empty.
  - intros i x m r Hi IH n.
    destruct (decide (i = n)) as [->|Hne].
    + rewrite lookup_insert_eq. case_decide.
      * by rewrite lookup_insert_eq.
      * by rewrite IH, Hi.
    + rewrite (lookup_insert_ne m) by done. case_decide.
      * rewrite lookup_insert_ne by done. apply IH.
      * apply IH.
Qed.


Lemma opened_names_ok (s : Storage) : names_ok (opened s).
Proof.
  intros n c. rewrite loadFromDisk_collections.
  destruct (_ !! n) as [docs|]; [|done].
  case_decide; [|done]. by intros [= <-].
Qed.

(** Reopening materializes the fold rule. *)
Lemma opened_lookup (s : Storage) (collName id : string) :
  lookup_doc (opened s) collName id = replay_spec (records s) collName id.
Proof.
  rewrite <- lookup_temp_foldl. unfold lookup_doc, lookup_temp.
  rewrite loadFromDisk_collections.
  destruct (_ !! collName) as [docs|]; [|done]. simpl.
  case_decide as Hsz; [done|]. simpl.
  assert (docs = ∅) as -> by (apply map_size_empty_iff; lia).
  by rewrite lookup_empty.
Qed.

Lemma opened_consistent (s : Storage) : log_consistent (opened s).
Proof. intros n i. apply opened_lookup. Qed.

(** [OpenDatabase] returns the database rebuilt from the records when
    every line fits the scanner, and the error of the scanner
    otherwise. *)
Lemma OpenDatabase_readable (s : Storage) :
  readable s = true → OpenDatabase s = inr (opened s).
Proof.
  intros Hr. unfold OpenDatabase, loadFromDisk, LoadAll; simpl. by rewrite Hr.
Qed.

Lemma OpenDatabase_unreadable (s : Storage) :
  readable s = false →
  OpenDatabase s =
    inl (ErrWrap "failed to load from disk"
           (ErrWrap "error reading file" ErrTooLong)).
Proof.
  intros Hr. unfold OpenDatabase, loadFromDisk, LoadAll; simpl. by rewrite Hr.
Qed.

Lemma OpenDatabase_inr (s : Storage) (db : Database) :
  OpenDatabase s = inr db → readable s = true ∧ db = opened s.
Proof.
  destruct (readable s) eqn:Hr.
  - rewrite (OpenDatabase_readable s Hr). by intros [= <-].
  - by rewrite (OpenDatabase_unreadable s Hr).
Qed.

Lemma readable_records (s1 s2 : Storage) :
  records s1 = records s2 → readable s1 = readable s2.
Proof. unfold readable. by intros ->. Qed.

End ReplayProps.

(** ** Calls keep the memory and the log together *)
Section RoundTrip.
Context {NM : NumModel} {LM : LineModel}.

Lemma GetCollection_lookup (db : Database) (collName id : string) :
  documents (GetCollection db collName).1 !! id = lookup_doc db collName id.
Proof.
  unfold GetCollection, lookup_doc.
  by destruct (collections db !! collName).
Qed.


Lemma GetCollection_storage (db : Database) (collName : string) :
  storage (GetCollection db collName).2 = storage db.
Proof. unfold GetCollection. by destruct (collections db !! collName). Qed.

Lemma GetCollection_registered (db : Database) (collName : string) :
  collections (GetCollection db collName).2 !! collName =
  Some (GetCollection db collName).1.
Proof.
  unfold GetCollection. destruct (collections db !! collName) eqn:E; simpl.
  - done.
  - apply lookup_insert_eq.
Qed.

Lemma GetCollection_others (db : Database) (collName other : string) :
  other ≠ collName →
  collections (GetCollection db collName).2 !! other = collections db !! other.
Proof.
  intros Hne. unfold GetCollection.
  destruct (collections db !! collName) eqn:E; simpl; [done|].
  by rewrite lookup_insert_ne.
Qed.

Lemma on_collection_unfold {R} (db : Database) (collName : string)
    (method : Collection → Storage → R * Collection * Storage) :
  on_collection db collName method =
  let m := method (GetCollection db collName).1 (storage db) in
  (m.1.1, {| storage := m.2;
             collections := <[collName := m.1.2]>
                              (collections (GetCollection db collName).2) |}).
Proof.
  unfold on_collection.
  pose proof (GetCollection_storage db collName) as Hs.
  destruct (GetCollection db collName) as [coll db1]; simpl in *. rewrite Hs.
  by destruct (method coll (storage db)) as [[r c] s].
Qed.










End RoundTrip.

(** ** Compaction and empty collections *)
Section CompactProps.
Context {NM : NumModel} {LM : LineModel}.



Lemma elem_of_collect_records (db : Database) (order : list (string * string))
    (r : StorageRecord) :
  r ∈ collect_records db order ↔
  ∃ doc, (rec_Collection r, rec_ID r) ∈ order ∧
         lookup_doc db (rec_Collection r) (rec_ID r) = Some doc ∧
         rec_Doc r = Some doc.
Proof.
  unfold collect_records, lookup_doc. rewrite list_elem_of_omap. split.
  - intros ([n i] & Hin & Hsome).
    destruct (collections db !! n) as [coll|] eqn:Hc; [|done]. simpl in Hsome.
    destruct (documents coll !! i) as [doc|] eqn:Hd; [|done].
    injection Hsome as <-. simpl. rewrite Hc. simpl. eauto.
  - intros (doc & Hin & Hl & Hd). exists (rec_Collection r, rec_ID r).
    split; [done|].
    destruct (collections db !! rec_Collection r) as [coll|]; [|done].
    simpl in *. rewrite Hl. simpl. destruct r; simpl in *. by subst.
Qed.






Lemma elem_of_ListCollections (db : Database) (collName : string) :
  collName ∈ ListCollections db ↔ is_Some (collections db !! collName).
Proof.
  unfold ListCollections. rewrite list_elem_of_fmap. split.
  - intros ([n c] & -> & Hin). apply elem_of_map_to_list in Hin. eauto.
  - intros [c Hc]. exists (collName, c). split; [done|].
    by apply elem_of_map_to_list.
Qed.




End CompactProps.

(** ** The identifier field *)
Section IdentityProps.
Context {NM : NumModel} {LM : LineModel}.

Lemma id_is_prints (key : string) (doc : Doc) : id_is key doc → id_prints_as key doc.
Proof. intros H. by exists (VStr key). Qed.

Lemma keyed_insert (c : Collection) (key : string) (doc : Doc) :
  keyed_by_id_text c → id_prints_as key doc →
  keyed_by_id_text (set_documents c (<[key := doc]> (documents c))).
Proof.
  intros Hc Hd k d; simpl. destruct (decide (key = k)) as [->|Hne].
  - rewrite lookup_insert_eq. by intros [= <-].
  - rewrite lookup_insert_ne by done. apply Hc.
Qed.

Lemma keyed_delete (c : Collection) (key : string) :
  keyed_by_id_text c →
  keyed_by_id_text (set_documents c (delete key (documents c))).
Proof.
  intros Hc k d; simpl. intros [_ H]%lookup_delete_Some. by apply Hc.
Qed.

Lemma log_keyed_Append (s s' : Storage) (r : StorageRecord) e :
  log_keyed_by_id_text (records s) →
  (∀ doc, rec_Doc r = Some doc → id_prints_as (rec_ID r) doc) →
  Append s r = (e, s') →
  log_keyed_by_id_text (records s').
Proof.
  intros Hl Hr Ha. destruct (Append_records _ _ _ _ Ha) as [[_ ->]|[_ ->]]; [|done].
  intros r' d [Hin|Hin]%elem_of_app; [by apply Hl|].
  apply list_elem_of_singleton in Hin as ->. apply Hr.
Qed.

Lemma merged_id (id : string) (doc update : Doc) :
  id_is id (<["id" := VStr id]> (merge_update doc update)).
Proof. apply lookup_insert_eq. Qed.

Lemma Insert_keyed (c : Collection) (s : Storage) (uuid : string) (doc : Doc)
    res c' s' :
  keyed c s → Insert c s uuid doc = (res, c', s') → keyed c' s'.
Proof.
  intros [Hc Hl]. unfold Insert.
  assert (id_prints_as
            (match doc !! "id" with
             | Some idVal => (fmtV idVal, doc)
             | None => (uuid, <["id":=VStr uuid]> doc)
             end).1
            (match doc !! "id" with
             | Some idVal => (fmtV idVal, doc)
             | None => (uuid, <["id":=VStr uuid]> doc)
             end).2) as Hd.
  { destruct (doc !! "id") as [idVal|] eqn:Hid; simpl.
    - by exists idVal.
    - apply id_is_prints, lookup_insert_eq. }
  destruct (match doc !! "id" with
            | Some idVal => (fmtV idVal, doc)
            | None => (uuid, <["id":=VStr uuid]> doc)
            end) as [i d]. simpl in Hd.
  destruct (documents c !! i) eqn:Hi; [by intros [= <- <- <-]|].
  destruct (Append s _) as [[err|] s1] eqn:Ha; intros [= <- <- <-].
  - split.
    + rewrite set_documents_twice. simpl.
      rewrite delete_insert_eq, delete_id, set_documents_id by done. done.
    + eapply log_keyed_Append; [done| |done]. simpl. by intros ? [= <-].
  - split; [by apply keyed_insert|].
    eapply log_keyed_Append; [done| |done]. simpl. by intros ? [= <-].
Qed.

Lemma Update_keyed (c : Collection) (s : Storage) (id : string) (update : Doc)
    res c' s' :
  keyed c s → Update c s id update = (res, c', s') → keyed c' s'.
Proof.
  intros [Hc Hl]. unfold Update.
  destruct (documents c !! id) as [doc|]; [|by intros [= <- <- <-]].
  pose proof (id_is_prints _ _ (merged_id id doc update)) as Hd.
  destruct (Append s _) as [[err|] s1] eqn:Ha; intros [= <- <- <-].
  all: split; [by apply keyed_insert|].
  all: eapply log_keyed_Append; [done| |done]; simpl; by intros ? [= <-].
Qed.

Lemma Delete_keyed (c : Collection) (s : Storage) (id : string) res c' s' :
  keyed c s → Delete c s id = (res, c', s') → keyed c' s'.
Proof.
  intros [Hc Hl]. unfold Delete.
  destruct (documents c !! id) as [doc|]; [|by intros [= <- <- <-]].
  destruct (Append s _) as [[err|] s1] eqn:Ha; intros [= <- <- <-].
  all: split; [by apply keyed_delete|].
  all: eapply log_keyed_Append; [done| |done]; simpl; done.
Qed.

Lemma UpdateMany_loop_keyed (filter update : Doc) (order : list string)
    (c : Collection) (s : Storage) (count : nat) res c' s' :
  keyed c s →
  UpdateMany_loop filter update order c s count = (res, c', s') → keyed c' s'.
Proof.
  revert c s count. induction order as [|id rest IH]; intros c s count [Hc Hl]; simpl.
  - by intros [= <- <- <-].
  - destruct (documents c !! id) as [doc|]; [|by apply IH].
    destruct (MatchesFilter doc filter); [|by apply IH].
    pose proof (id_is_prints _ _ (merged_id id doc update)) as Hd.
    assert (∀ e s1, Append s
              {| rec_Collection := name c; rec_ID := id;
                 rec_Doc := Some (<["id":=VStr id]> (merge_update doc update)) |}
              = (e, s1) →
            keyed (set_documents c
                     (<[id := <["id":=VStr id]> (merge_update doc update)]>
                        (documents c))) s1) as Hk.
    { intros e s1 Ha. split; [by apply keyed_insert|].
      eapply log_keyed_Append; [done| |done]. simpl. by intros ? [= <-]. }
    simpl. destruct (Append s _) as [[err|] s1] eqn:Ha.
    + intros [= <- <- <-]. by eapply Hk.
    + apply IH. by eapply Hk.
Qed.

Lemma DeleteMany_loop_keyed (ids : list string)
    (c : Collection) (s : Storage) (count : nat) res c' s' :
  keyed c s →
  DeleteMany_loop ids c s count = (res, c', s') → keyed c' s'.
Proof.
  revert c s count. induction ids as [|id rest IH]; intros c s count [Hc Hl]; simpl.
  - by intros [= <- <- <-].
  - assert (∀ e s1, Append s
              {| rec_Collection := name c; rec_ID := id; rec_Doc := None |}
              = (e, s1) →
            keyed (set_documents c (delete id (documents c))) s1) as Hk.
    { intros e s1 Ha. split; [by apply keyed_delete|].
      eapply log_keyed_Append; [done| |done]. done. }
    destruct (Append s _) as [[err|] s1] eqn:Ha.
    + intros [= <- <- <-]. by eapply Hk.
    + apply IH. by eapply Hk.
Qed.

Lemma DropCollection_loop_keyed (order : list string)
    (c : Collection) (s : Storage) res c' s' :
  keyed c s →
  DropCollection_loop order c s = (res, c', s') → keyed c' s'.
Proof.
  revert c s. induction order as [|id rest IH]; intros c s Hk; simpl.
  - by intros [= <- <- <-].
  - destruct (documents c !! id) as [doc|]; [|by apply IH].
    destruct (Delete c s id) as [[[err|] c1] s1] eqn:Hd.
    + intros [= <- <- <-]. by eapply Delete_keyed.
    + apply IH. by eapply Delete_keyed.
Qed.

Lemma replay_spec_Some (log : list StorageRecord) (collName id : string) (doc : Doc) :
  replay_spec log collName id = Some doc →
  ∃ r, r ∈ log ∧ rec_Collection r = collName ∧ rec_ID r = id ∧
       rec_Doc r = Some doc.
Proof.
  unfold replay_spec, last_record.
  destruct (last _) as [r|] eqn:Hl; [|done]. simpl. intros Hd.
  apply last_Some_elem_of, list_elem_of_filter in Hl as [[? ?] ?]. eauto.
Qed.

Lemma opened_keyed (s : Storage) :
  log_keyed_by_id_text (records s) → db_keyed (opened s).
Proof.
  intros Hl. split; [|done]. intros n c Hc k d Hd.
  assert (lookup_doc (opened s) n k = Some d) as Hlk.
  { unfold lookup_doc. by rewrite Hc. }
  rewrite opened_lookup in Hlk.
  apply replay_spec_Some in Hlk as (r & Hin & _ & <- & Hr). by eapply Hl.
Qed.

Lemma GetCollection_keyed (db : Database) (collName : string) :
  db_keyed db →
  db_keyed (GetCollection db collName).2 ∧
  keyed (GetCollection db collName).1 (storage db).
Proof.
  intros [Hc Hl]. unfold GetCollection.
  destruct (collections db !! collName) as [c|] eqn:E; simpl.
  - split; [done|]. split; [by eapply Hc | done].
  - split; [|by split]. split; [|done]. intros n c; simpl.
    destruct (decide (collName = n)) as [->|Hne].
    + rewrite lookup_insert_eq. by intros [= <-].
    + rewrite lookup_insert_ne by done. apply Hc.
Qed.

Lemma on_collection_keyed {R} (db : Database) (collName : string)
    (method : Collection → Storage → R * Collection * Storage) :
  (∀ c s res c' s', keyed c s → method c s = (res, c', s') → keyed c' s') →
  db_keyed db → db_keyed (on_collection db collName method).2.
Proof.
  intros Hm Hdb. rewrite on_collection_unfold.
  destruct (GetCollection_keyed db collName Hdb) as [[Hc1 _] Hk].
  destruct (method _ _) as [[res c'] s'] eqn:E. simpl.
  destruct (Hm _ _ _ _ _ Hk E) as [Hc' Hl']. split; [|done]. simpl.
  intros n c. destruct (decide (collName = n)) as [->|Hne].
  - rewrite lookup_insert_eq. by intros [= <-].
  - rewrite lookup_insert_ne by done. apply Hc1.
Qed.

Lemma run_call_keyed (db : Database) (c : call) :
  db_keyed db → db_keyed (run_call db c).2.
Proof.
  intros Hdb. destruct c as [n uuid doc|n id update|n id]; simpl.
  - pose proof (on_collection_keyed db n (λ coll s, Insert coll s uuid doc)) as H.
    destruct (on_collection db n _) as [r db1]. simpl in *.
    apply H; [|done]. intros. by eapply Insert_keyed.
  - apply on_collection_keyed; [|done]. intros. by eapply Update_keyed.
  - apply on_collection_keyed; [|done]. intros. by eapply Delete_keyed.
Qed.

Lemma DropCollection_keyed (db : Database) (collName : string) (order : list string) :
  db_keyed db → db_keyed (DropCollection db collName order).2.
Proof.
  intros [Hc Hl]. unfold DropCollection.
  destruct (collections db !! collName) as [c|] eqn:E; [|done].
  destruct (DropCollection_loop order c (storage db)) as [[res c'] s'] eqn:Hd.
  assert (keyed c' s') as [Hc' Hl'].
  { eapply DropCollection_loop_keyed; [|done]. split; [by eapply Hc | done]. }
  destruct res as [err|]; simpl; (split; [|done]); intros n c0; simpl.
  - destruct (decide (collName = n)) as [->|Hne].
    + rewrite lookup_insert_eq. by intros [= <-].
    + rewrite lookup_insert_ne by done. apply Hc.
  - intros [_ H]%lookup_delete_Some. by eapply Hc.
Qed.

Lemma Compact_keyed (db : Database) (order : list (string * string)) :
  db_keyed db → db_keyed (Compact db order).2.
Proof.
  intros [Hc Hl]. unfold Compact, Storage_Compact, next_fault.
  destruct (faults (storage db)) as [|[] fs]; simpl; (split; [done|]); simpl;
    try done.
  all: intros r d Hin Hd; apply elem_of_collect_records in Hin as (d' & _ & Hlk & Hd').
  all: assert (d' = d) as -> by congruence.
  all: unfold lookup_doc in Hlk.
  all: destruct (collections db !! rec_Collection r) as [c|] eqn:E; [|done].
  all: by eapply Hc.
Qed.

Lemma reachable_keyed (db : Database) : reachable db → db_keyed db.
Proof.
  induction 1 as [fs db Ho|db c _ IH|db n f u o _ IH|db n f o _ IH|db n _ IH
                 |db n o _ IH|db o _ IH|db fs db' _ IH Ho].
  - apply OpenDatabase_inr in Ho as [_ ->].
    apply opened_keyed. intros r d Hin. by apply not_elem_of_nil in Hin.
  - by apply run_call_keyed.
  - apply on_collection_keyed; [|done]. intros. by eapply UpdateMany_loop_keyed.
  - apply on_collection_keyed; [|done]. intros. by eapply DeleteMany_loop_keyed.
  - by apply GetCollection_keyed.
  - by apply DropCollection_keyed.
  - by apply Compact_keyed.
  - apply OpenDatabase_inr in Ho as [_ ->]. apply opened_keyed. apply IH.
Qed.

Lemma Update_same_keys (c : Collection) (s : Storage) (id : string) (update : Doc)
    res c' s' :
  Update c s id update = (res, c', s') →
  dom (documents c') = dom (documents c) ∧
  (∀ key, key ≠ id → documents c' !! key = documents c !! key) ∧
  (is_Some (documents c !! id) →
   ∃ doc', documents c' !! id = Some doc' ∧ id_is id doc').
Proof.
  unfold Update. destruct (documents c !! id) as [doc|] eqn:Hd.
  - assert (dom (<[id := <["id":=VStr id]> (merge_update doc update)]> (documents c))
            = dom (documents c)) as Hdom.
    { rewrite dom_insert_L. apply subseteq_union_1_L, singleton_subseteq_l.
      by eapply elem_of_dom_2. }
    destruct (Append s _) as [[err|] s1]; intros [= <- <- <-]; simpl.
    all: split_and!; [done| |].
    all: try (intros k Hk; by rewrite lookup_insert_ne).
    all: intros _; eexists; split; [apply lookup_insert_eq | apply merged_id].
  - intros [= <- <- <-]. split_and!; [done..|]. by intros [? ?].
Qed.

Lemma UpdateMany_loop_same_keys (filter update : Doc) (order : list string)
    (c : Collection) (s : Storage) (count : nat) res c' s' :
  UpdateMany_loop filter update order c s count = (res, c', s') →
  dom (documents c') = dom (documents c) ∧
  (∀ key doc', documents c' !! key = Some doc' →
     documents c !! key = Some doc' ∨ id_is key doc').
Proof.
  revert c s count. induction order as [|id rest IH]; intros c s count; simpl.
  - intros [= <- <- <-]. auto.
  - destruct (documents c !! id) as [doc|] eqn:Hd; [|by apply IH].
    destruct (MatchesFilter doc filter); [|by apply IH].
    set (doc1 := <["id":=VStr id]> (merge_update doc update)).
    assert (dom (<[id := doc1]> (documents c)) = dom (documents c)) as Hdom.
    { rewrite dom_insert_L. apply subseteq_union_1_L, singleton_subseteq_l.
      by eapply elem_of_dom_2. }
    assert (∀ key doc', <[id := doc1]> (documents c) !! key = Some doc' →
              documents c !! key = Some doc' ∨ id_is key doc') as Hstep.
    { intros k d'. destruct (decide (id = k)) as [->|Hne].
      - rewrite lookup_insert_eq. intros [= <-]. right. apply merged_id.
      - rewrite lookup_insert_ne by done. auto. }
    simpl. destruct (Append s _) as [[err|] s1].
    + intros [= <- <- <-]. simpl. auto.
    + intros Hrest. apply IH in Hrest as [Hdom' Hdocs]. simpl in *.
      split; [congruence|]. intros k d' Hk.
      destruct (Hdocs _ _ Hk) as [H|H]; auto.
Qed.

(** C3 (amended).  In every reachable state the identifier field of a
    stored document prints as the key it is stored under.  [Update] and
    [UpdateMany] never change the set of keys, and an updated document
    stays under its key with the identifier field equal to that key as a
    string, whatever the payload carries; the other documents are
    untouched. *)
Theorem C3_identifier_prints_as_key :
  (∀ db collName coll key doc,
     reachable db →
     collections db !! collName = Some coll →
     documents coll !! key = Some doc →
     id_prints_as key doc) ∧
  (∀ c s id update res c' s',
     Update c s id update = (res, c', s') →
     dom (documents c') = dom (documents c) ∧
     (∀ key, key ≠ id → documents c' !! key = documents c !! key) ∧
     (is_Some (documents c !! id) →
      ∃ doc', documents c' !! id = Some doc' ∧ id_is id doc')) ∧
  (∀ filter update order c s res c' s',
     UpdateMany filter update order c s = (res, c', s') →
     dom (documents c') = dom (documents c) ∧
     (∀ key doc', documents c' !! key = Some doc' →
        documents c !! key = Some doc' ∨ id_is key doc')).
Proof.
  split_and!.
  - intros db n c k d Hr Hc Hd.
    destruct (reachable_keyed db Hr) as [Hk _]. by eapply Hk.
  - intros. by eapply Update_same_keys.
  - intros. by eapply UpdateMany_loop_same_keys.
Qed.

End IdentityProps.

(** ** Sorting *)
Section SortProps.
Context {NM : NumModel} {LM : LineModel}.

Lemma String_ltb_asym (s1 s2 : string) :
  String.ltb s1 s2 = true → String.ltb s2 s1 = false.
Proof.
  unfold String.ltb. rewrite (String.compare_antisym s1 s2).
  by destruct (String.compare s2 s1).
Qed.

Lemma compareValues_cases (a b : value) :
  (compareValues a b = -1 ∨ compareValues a b = 0 ∨ compareValues a b = 1)%Z.
Proof.
  unfold compareValues.
  destruct (toFloat64 a), (toFloat64 b); repeat case_match; auto.
Qed.

Lemma compareValues_pos_neg (a b : value) :
  (compareValues a b > 0 → compareValues b a < 0)%Z.
Proof.
  unfold compareValues.
  destruct (toFloat64 a) as [x|], (toFloat64 b) as [y|];
    repeat case_match; try lia; congruence.
Qed.

Lemma compareValues_neg_pos (a b : value) :
  (compareValues a b < 0 → compareValues b a > 0)%Z.
Proof.
  unfold compareValues.
  destruct (toFloat64 a) as [x|], (toFloat64 b) as [y|];
    repeat case_match; try lia;
    try match goal with
        | H1 : num_ltb ?x ?y = true, H2 : num_ltb ?y ?x = true |- _ =>
            apply num_ltb_asym in H1; congruence
        | H1 : String.ltb ?x ?y = true, H2 : String.ltb ?y ?x = true |- _ =>
            apply String_ltb_asym in H1; congruence
        end; congruence.
Qed.

(** The order of strings is transitive. *)
Lemma Ascii_compare_N (a b : ascii) :
  Ascii.compare a b = (N_of_ascii a ?= N_of_ascii b)%N.
Proof. reflexivity. Qed.

Lemma String_compare_not_Gt_trans (s1 s2 s3 : string) :
  String.compare s1 s2 ≠ Gt → String.compare s2 s3 ≠ Gt →
  String.compare s1 s3 ≠ Gt.
Proof.
  revert s2 s3. induction s1 as [|a s1 IH]; intros [|b s2] [|c s3]; simpl;
    try done.
  rewrite !Ascii_compare_N.
  destruct (N.compare_spec (N_of_ascii a) (N_of_ascii b)) as [Hab|Hab|Hab],
           (N.compare_spec (N_of_ascii b) (N_of_ascii c)) as [Hbc|Hbc|Hbc],
           (N.compare_spec (N_of_ascii a) (N_of_ascii c)) as [Hac|Hac|Hac];
    try done; try lia.
  apply IH.
Qed.

Lemma text_order_le (s1 s2 : string) :
  ((if String.ltb s1 s2 then -1 else if String.ltb s2 s1 then 1 else 0) <= 0)%Z
  ↔ String.compare s1 s2 ≠ Gt.
Proof.
  unfold String.ltb. rewrite (String.compare_antisym s2 s1).
  destruct (String.compare s1 s2); simpl; split; (done || lia).
Qed.

Lemma text_order_ge (s1 s2 : string) :
  ((if String.ltb s1 s2 then -1 else if String.ltb s2 s1 then 1 else 0) >= 0)%Z
  ↔ String.compare s2 s1 ≠ Gt.
Proof.
  unfold String.ltb. rewrite (String.compare_antisym s2 s1).
  destruct (String.compare s1 s2); simpl; split; (done || lia).
Qed.

Lemma compareValues_text (a b : value) :
  toFloat64 a = None ∨ toFloat64 b = None →
  compareValues a b =
  (if String.ltb (fmtV a) (fmtV b) then -1
   else if String.ltb (fmtV b) (fmtV a) then 1 else 0)%Z.
Proof.
  intros Hn. unfold compareValues.
  destruct Hn as [-> | ->]; [done|]. by destruct (toFloat64 a).
Qed.

(** Among values that are not numbers the comparison is that of their
    texts, and transitive. *)
Lemma compareValues_text_le_trans (a b c : value) :
  toFloat64 a = None → toFloat64 b = None → toFloat64 c = None →
  (compareValues a b <= 0 → compareValues b c <= 0 → compareValues a c <= 0)%Z.
Proof.
  intros Ha Hb Hc. rewrite !compareValues_text by auto.
  rewrite !text_order_le. apply String_compare_not_Gt_trans.
Qed.

Lemma compareValues_text_ge_trans (a b c : value) :
  toFloat64 a = None → toFloat64 b = None → toFloat64 c = None →
  (compareValues a b >= 0 → compareValues b c >= 0 → compareValues a c >= 0)%Z.
Proof.
  intros Ha Hb Hc. rewrite !compareValues_text by auto.
  rewrite !text_order_ge. intros H1 H2.
  by apply (String_compare_not_Gt_trans _ (fmtV b)).
Qed.

Lemma compareValues_numbers (x y : num) :
  compareValues (VNum x) (VNum y) =
  (if num_ltb x y then -1 else if num_ltb y x then 1 else 0)%Z.
Proof. reflexivity. Qed.

Lemma toFloat64_number (v : value) :
  is_Some (toFloat64 v) → ∃ x, v = VNum x.
Proof. destruct v; intros [y Hy]; try done. by eexists. Qed.

Lemma compareValues_numbers_le (x y : num) :
  (compareValues (VNum x) (VNum y) <= 0)%Z ↔ num_ltb y x = false.
Proof.
  rewrite compareValues_numbers.
  destruct (num_ltb x y) eqn:Hxy.
  - apply num_ltb_asym in Hxy. rewrite Hxy. split; (done || lia).
  - destruct (num_ltb y x); split; (done || lia).
Qed.

Lemma compareValues_numbers_ge (x y : num) :
  (compareValues (VNum x) (VNum y) >= 0)%Z ↔ num_ltb x y = false.
Proof.
  rewrite compareValues_numbers.
  destruct (num_ltb x y) eqn:Hxy; [split; (done || lia)|].
  destruct (num_ltb y x); split; (done || lia).
Qed.

Section OnePass.
Variables field direction : string.

Local Abbreviation sw := (shouldSwap field direction).
Local Abbreviation carry := (carry field direction).
Local Abbreviation sort_step := (sort_step field direction).
Local Abbreviation sort_inner := (sort_inner field direction).
Local Abbreviation blocked := (blocked field direction).

Lemma shouldSwap_asym (a b : Doc) : sw a b = true → sw b a = false.
Proof.
  unfold shouldSwap.
  destruct (a !! field) as [va|], (b !! field) as [vb|]; try done.
  destruct (String.eqb direction "desc").
  - intros H%Z.ltb_lt. apply Z.ltb_ge.
    pose proof (compareValues_neg_pos va vb). lia.
  - rewrite !Z.gtb_ltb. intros H%Z.ltb_lt. apply Z.ltb_ge.
    pose proof (compareValues_pos_neg va vb). lia.
Qed.

Lemma sort_step_out_of_range (docs : list Doc) (j : nat) :
  length docs ≤ j + 1 → sort_step docs j = docs.
Proof.
  intros Hj. unfold sort_step.
  rewrite (lookup_ge_None_2 docs (j + 1)) by done.
  by destruct (docs !! j).
Qed.

Lemma sort_inner_out_of_range (k : nat) (docs : list Doc) (j : nat) :
  length docs ≤ j + 1 → sort_inner docs j k = docs.
Proof.
  revert docs j. induction k as [|k IH]; intros docs j Hj; simpl; [done|].
  rewrite sort_step_out_of_range by done. apply IH. lia.
Qed.

Lemma insert_middle (pre : list Doc) (x y : Doc) (l : list Doc) :
  <[length pre := x]> (pre ++ y :: l) = pre ++ x :: l.
Proof. induction pre as [|a pre IH]; simpl; [done | by rewrite IH]. Qed.

Lemma sort_step_middle (pre : list Doc) (c e : Doc) (t : list Doc) :
  sort_step (pre ++ c :: e :: t) (length pre) =
  if sw c e then pre ++ e :: c :: t else pre ++ c :: e :: t.
Proof.
  assert ((pre ++ c :: e :: t) !! length pre = Some c) as H1
    by (by apply list_lookup_middle).
  assert ((pre ++ c :: e :: t) !! (length pre + 1) = Some e) as H2.
  { rewrite lookup_app_r by lia.
    by replace (length pre + 1 - length pre) with 1 by lia. }
  unfold sort_step. rewrite H1, H2. destruct (sw c e); [|done].
  rewrite (insert_app_r_alt pre) by lia.
  replace (length pre + 1 - length pre) with 1 by lia. simpl.
  apply insert_middle.
Qed.

(** The inner loop from index [length pre] is a [carry] of the
    element at that index. *)
Lemma sort_inner_carry (k : nat) (pre : list Doc) (c : Doc) (l : list Doc) :
  sort_inner (pre ++ c :: l) (length pre) k = pre ++ carry k c l.
Proof.
  revert pre c l. induction k as [|k IH]; intros pre c l; simpl; [done|].
  destruct l as [|e t].
  - rewrite sort_step_out_of_range by (rewrite length_app; simpl; lia).
    apply sort_inner_out_of_range. rewrite length_app; simpl; lia.
  - rewrite sort_step_middle. destruct (sw c e).
    + replace (pre ++ e :: c :: t) with ((pre ++ [e]) ++ c :: t)
        by (by rewrite <- app_assoc).
      replace (S (length pre)) with (length (pre ++ [e]))
        by (rewrite length_app; simpl; lia).
      rewrite IH. by rewrite <- app_assoc.
    + replace (pre ++ c :: e :: t) with ((pre ++ [c]) ++ e :: t)
        by (by rewrite <- app_assoc).
      replace (S (length pre)) with (length (pre ++ [c]))
        by (rewrite length_app; simpl; lia).
      rewrite IH. by rewrite <- app_assoc.
Qed.

Lemma sort_inner_0 (k : nat) (docs : list Doc) :
  sort_inner docs 0 k = match docs with [] => [] | c :: l => carry k c l end.
Proof.
  destruct docs as [|c l].
  - apply sort_inner_out_of_range. simpl. lia.
  - apply (sort_inner_carry k [] c l).
Qed.

Lemma carry_perm (k : nat) (c : Doc) (l : list Doc) : carry k c l ≡ₚ c :: l.
Proof.
  revert c l. induction k as [|k IH]; intros c [|e t]; simpl; try done.
  destruct (sw c e).
  - rewrite IH. apply Permutation_swap.
  - by rewrite IH.
Qed.

Lemma carry_length (k : nat) (c : Doc) (l : list Doc) :
  length (carry k c l) = S (length l).
Proof. by rewrite carry_perm. Qed.

Lemma carry_app (c : Doc) (l rest : list Doc) :
  carry (length l) c (l ++ rest) = carry (length l) c l ++ rest.
Proof.
  revert c. induction l as [|e t IH]; intros c; simpl.
  - by destruct rest.
  - destruct (sw c e); by rewrite IH.
Qed.

Lemma carry_snoc (k : nat) (c : Doc) (l : list Doc) :
  ∃ P w, carry k c l = P ++ [w].
Proof.
  destruct (carry k c l) as [|a r] eqn:E using rev_ind.
  - pose proof (carry_length k c l) as H. rewrite E in H. done.
  - eauto.
Qed.

(** A class of documents no two of which the loop would swap keeps
    its order through a pass. *)
Lemma carry_filter (p : Doc → bool) (k : nat) (c : Doc) (l : list Doc) :
  (∀ a b, p a = true → p b = true → sw a b = false) →
  List.filter p (carry k c l) = List.filter p (c :: l).
Proof.
  intros Hp. revert c l. induction k as [|k IH]; intros c [|e t]; simpl; try done.
  destruct (sw c e) eqn:Hsw; simpl; rewrite IH; simpl; [|done].
  destruct (p e) eqn:He, (p c) eqn:Hc; try done.
  rewrite (Hp c e Hc He) in Hsw. done.
Qed.

(** After a full pass, every element left behind is blocked with
    respect to the element that arrived at the end. *)
Lemma carry_blocked (l : list Doc) (c : Doc) (P : list Doc) (x : Doc) :
  carry (length l) c l = P ++ [x] → blocked P x.
Proof.
  revert c P. induction l as [|e0 t IH]; intros c P; simpl.
  - intros H A e B ->. apply (f_equal length) in H.
    rewrite !length_app in H. simpl in H. lia.
  - assert (∀ a b P1,
              sw a b = false →
              carry (length t) b t = P1 ++ [x] →
              blocked (a :: P1) x) as Hcase.
    { intros a b P1 Hab Hc A e B HA.
      destruct A as [|a' A]; simpl in HA; injection HA as -> ->.
      - assert (b ∈ B ++ [x]) as Hin.
        { rewrite <- Hc, carry_perm. set_solver. }
        apply elem_of_app in Hin as [Hin|Hin%list_elem_of_singleton].
        + right. eauto.
        + left. by subst.
      - by eapply (IH b (A ++ e :: B)). }
    destruct (sw c e0) eqn:Hsw; intros Heq.
    + destruct (carry_snoc (length t) c t) as (P1 & w & Hc).
      rewrite Hc in Heq. rewrite app_comm_cons in Heq.
      apply app_inj_tail in Heq as [<- ->].
      eapply Hcase; [|done]. by apply shouldSwap_asym.
    + destruct (carry_snoc (length t) e0 t) as (P1 & w & Hc).
      rewrite Hc in Heq. rewrite app_comm_cons in Heq.
      apply app_inj_tail in Heq as [<- ->].
      by eapply Hcase.
Qed.

(** The element that a full pass brings to the end has beaten
    everything behind it. *)
Lemma carry_winner (l : list Doc) (c : Doc) (P : list Doc) (w : Doc) :
  carry (length l) c l = P ++ [w] →
  ∃ A B, c :: l = A ++ w :: B ∧ ∀ b, b ∈ B → sw w b = true.
Proof.
  revert c P. induction l as [|e0 t IH]; intros c P; simpl.
  - intros H. destruct P as [|? [|? ?]]; simplify_list_eq.
    exists [], []. split; [done|]. intros b Hb. by apply not_elem_of_nil in Hb.
  - destruct (sw c e0) eqn:Hsw; intros Heq.
    + destruct (carry_snoc (length t) c t) as (P1 & w1 & Hc).
      rewrite Hc in Heq. rewrite app_comm_cons in Heq.
      apply app_inj_tail in Heq as [<- ->].
      destruct (IH _ _ Hc) as (A & B & HAB & Hbeat).
      destruct A as [|a A]; simpl in HAB; injection HAB as -> ->.
      * exists [], (e0 :: B). split; [done|].
        intros b [->|Hb]%elem_of_cons; auto.
      * exists (a :: e0 :: A), B. by split.
    + destruct (carry_snoc (length t) e0 t) as (P1 & w1 & Hc).
      rewrite Hc in Heq. rewrite app_comm_cons in Heq.
      apply app_inj_tail in Heq as [<- ->].
      destruct (IH _ _ Hc) as (A & B & HAB & Hbeat).
      exists (c :: A), B. split; [by rewrite HAB | done].
Qed.

Lemma next_winner_in_order (c : Doc) (l P' : list Doc) (w x : Doc) :
  blocked (c :: l) x →
  carry (length l) c l = P' ++ [w] →
  sw w x = false.
Proof.
  intros Hb Hc. destruct (carry_winner _ _ _ _ Hc) as (A & B & HAB & Hbeat).
  destruct (Hb A w B HAB) as [?|(d & Hd & Hsw)]; [done|].
  rewrite (Hbeat d Hd) in Hsw. done.
Qed.

Lemma sort_outer_perm (n passes : nat) (docs : list Doc) (i : nat) :
  sort_outer field direction n docs i passes ≡ₚ docs.
Proof.
  revert docs i. induction passes as [|p IH]; intros docs i; simpl; [done|].
  rewrite IH, sort_inner_0. destruct docs; [done | apply carry_perm].
Qed.

Lemma sort_outer_filter (p : Doc → bool) (n passes : nat) (docs : list Doc)
    (i : nat) :
  (∀ a b, p a = true → p b = true → sw a b = false) →
  List.filter p (sort_outer field direction n docs i passes) = List.filter p docs.
Proof.
  intros Hp. revert docs i.
  induction passes as [|q IH]; intros docs i; simpl; [done|].
  rewrite IH, sort_inner_0. destruct docs; [done | by apply carry_filter].
Qed.

(** The invariant of the outer loop: after [i] passes the last [i]
    elements are in order, and the rest is blocked with respect to the
    first of them. *)
Lemma sort_outer_in_order (n passes : nat) (docs : list Doc) (i : nat)
    (P Q : list Doc) :
  docs = P ++ Q → length Q = i → length docs = n → i + passes = n - 1 →
  in_order field direction Q →
  (∀ x Q', Q = x :: Q' → blocked P x) →
  in_order field direction (sort_outer field direction n docs i passes).
Proof.
  revert docs i P Q.
  induction passes as [|p IH]; intros docs i P Q -> HQ Hn Hi Hord Hbl; simpl.
  - rewrite length_app in Hn.
    destruct P as [|e [|e' P]]; simpl in *; [done| |lia].
    constructor; [done|]. destruct Q as [|x Q']; constructor.
    destruct (Hbl x Q' eq_refl [] e [] eq_refl) as [?|(d & Hd & _)]; [done|].
    by apply not_elem_of_nil in Hd.
  - rewrite length_app in Hn.
    destruct P as [|c l]; simpl in Hn; [lia|].
    rewrite sort_inner_0. simpl.
    replace (n - i - 1) with (length l) by lia.
    rewrite carry_app.
    destruct (carry_snoc (length l) c l) as (P' & w & Hc). rewrite Hc.
    rewrite <- app_assoc. simpl.
    apply (IH _ (S i) P' (w :: Q)); [done|simpl; lia| |lia| |].
    + rewrite length_app. simpl.
      pose proof (carry_length (length l) c l) as Hl. rewrite Hc in Hl.
      rewrite length_app in Hl. simpl in Hl. lia.
    + constructor; [done|]. destruct Q as [|x Q']; constructor.
      by eapply next_winner_in_order; [apply (Hbl x Q')|].
    + intros x Q' [= <- <-]. by eapply carry_blocked.
Qed.

Lemma SortDocuments_in_order (docs : list Doc) :
  in_order field direction (SortDocuments docs field direction).
Proof.
  unfold SortDocuments.
  apply (sort_outer_in_order _ _ _ 0 docs []); try done.
  - by rewrite app_nil_r.
  - constructor.
Qed.

Lemma in_order_lookup (l : list Doc) (i : nat) (a b : Doc) :
  in_order field direction l →
  l !! i = Some a → l !! S i = Some b → sw a b = false.
Proof.
  intros Hs. revert i. induction Hs as [|x l Hs IH Hd]; intros i; [done|].
  destruct i as [|i]; simpl.
  - intros [= ->] Hb. destruct Hd; simplify_eq/=. done.
  - apply IH.
Qed.

Lemma in_order_strongly (l : list Doc) :
  in_order field direction l →
  (∀ a b c, a ∈ l → b ∈ l → c ∈ l →
     sw a b = false → sw b c = false → sw a c = false) →
  StronglySorted (λ a b, sw a b = false) l.
Proof.
  intros Hs. induction Hs as [|x l Hs IH Hd]; intros Htr; [constructor|].
  assert (StronglySorted (λ a b, sw a b = false) l) as Hss.
  { apply IH. intros a b c Ha Hb Hc. apply Htr; by right. }
  constructor; [done|].
  destruct Hd as [|y l' Hxy]; [constructor|].
  constructor; [done|].
  apply StronglySorted_inv in Hss as [_ Hy].
  rewrite Forall_forall in Hy |- *. intros z Hz.
  apply (Htr x y z); [by left | by right; left | by do 2 right | done |].
  by apply Hy.
Qed.

Lemma strongly_lookup (l : list Doc) (i j : nat) (a b : Doc) :
  StronglySorted (λ a b, sw a b = false) l →
  i < j → l !! i = Some a → l !! j = Some b → sw a b = false.
Proof.
  intros Hs. revert i j. induction Hs as [|x l Hs IH Hx]; intros i j Hij; [done|].
  destruct j as [|j]; [lia|]. destruct i as [|i]; simpl.
  - intros [= ->] Hb. rewrite Forall_forall in Hx.
    by eapply Hx, list_elem_of_lookup_2.
  - apply IH. lia.
Qed.

Lemma shouldSwap_in_direction (doc1 doc2 : Doc) :
  is_Some (doc1 !! field) → is_Some (doc2 !! field) →
  sw doc1 doc2 = false ↔ in_direction field direction doc1 doc2.
Proof.
  intros [val1 Hv1] [val2 Hv2]. unfold shouldSwap, in_direction.
  rewrite Hv1, Hv2. split.
  - intros Hsw. exists val1, val2. split_and!; [done..|].
    destruct (String.eqb direction "desc").
    + apply Z.ltb_ge in Hsw. lia.
    + rewrite Z.gtb_ltb in Hsw. apply Z.ltb_ge in Hsw. lia.
  - intros (v1 & v2 & [= <-] & [= <-] & Hd).
    destruct (String.eqb direction "desc").
    + apply Z.ltb_ge. lia.
    + rewrite Z.gtb_ltb. apply Z.ltb_ge. lia.
Qed.

(** Where the comparison is transitive on the values of the field, every
    earlier document of the result is in order with every later one. *)
Lemma SortDocuments_all_pairs (docs : list Doc) (P : value → Prop) :
  (∀ doc, doc ∈ docs → ∃ val, doc !! field = Some val ∧ P val) →
  (∀ a b c, P a → P b → P c →
     (compareValues a b <= 0 → compareValues b c <= 0 → compareValues a c <= 0)%Z ∧
     (compareValues a b >= 0 → compareValues b c >= 0 → compareValues a c >= 0)%Z) →
  ∀ i j doc1 doc2, i < j →
    SortDocuments docs field direction !! i = Some doc1 →
    SortDocuments docs field direction !! j = Some doc2 →
    in_direction field direction doc1 doc2.
Proof.
  intros Hall Htr i j doc1 doc2 Hij H1 H2.
  pose proof (sort_outer_perm (length docs) (length docs - 1) docs 0) as Hp.
  assert (∀ d k, SortDocuments docs field direction !! k = Some d → d ∈ docs)
    as Hin.
  { intros d k Hk. rewrite <- Hp. by eapply list_elem_of_lookup_2. }
  assert (∀ d, d ∈ docs → is_Some (d !! field)) as Hsome.
  { intros d Hd. destruct (Hall d Hd) as (v & Hv & _). by eexists. }
  apply shouldSwap_in_direction; [by eapply Hsome, Hin..|].
  eapply strongly_lookup; [|done..].
  apply in_order_strongly; [apply SortDocuments_in_order|].
  intros a b c Ha Hb Hc. rewrite Hp in Ha, Hb, Hc.
  rewrite !shouldSwap_in_direction by auto.
  destruct (Hall a Ha) as (va & Hva & HPa), (Hall b Hb) as (vb & Hvb & HPb),
           (Hall c Hc) as (vc & Hvc & HPc).
  destruct (Htr va vb vc HPa HPb HPc) as [Hle Hge].
  unfold in_direction. rewrite Hva, Hvb, Hvc.
  intros (? & ? & [= <-] & [= <-] & H12) (? & ? & [= <-] & [= <-] & H23).
  exists va, vc. split_and!; [done..|].
  destruct (String.eqb direction "desc"); auto.
Qed.

End OnePass.

(** C9.  [SortDocuments] permutes the documents.  When every document
    has the field, each document of the result compares below or equal to
    the next one (above or equal, for ["desc"]).  Every earlier document
    compares so with every later one when no value of the field is a
    number, when all are numbers (whose order is that of numbers that are
    not NaN), and in general where the comparison is transitive on the
    documents; a list in which numbers and texts are mixed may stay out
    of order.  Documents among which no swap is due (in particular
    documents that compare equal) keep their relative order; a comparison
    with a side that lacks the field leaves the list as it is; and
    [compareValues] compares two numbers numerically and any other two
    values, a text of digits among them, by their texts. *)
Theorem C9_SortDocuments (docs : list Doc) (field direction : string) :
  SortDocuments docs field direction ≡ₚ docs ∧
  ((∀ doc, doc ∈ docs → is_Some (doc !! field)) →
   ∀ i doc1 doc2,
     SortDocuments docs field direction !! i = Some doc1 →
     SortDocuments docs field direction !! S i = Some doc2 →
     in_direction field direction doc1 doc2) ∧
  ((∀ doc, doc ∈ docs → ∃ val, doc !! field = Some val ∧ toFloat64 val = None) →
   ∀ i j doc1 doc2, i < j →
     SortDocuments docs field direction !! i = Some doc1 →
     SortDocuments docs field direction !! j = Some doc2 →
     in_direction field direction doc1 doc2) ∧
  ((∀ x y z, num_ltb x y = false → num_ltb y z = false → num_ltb x z = false) →
   (∀ doc, doc ∈ docs → ∃ x, doc !! field = Some (VNum x)) →
   ∀ i j doc1 doc2, i < j →
     SortDocuments docs field direction !! i = Some doc1 →
     SortDocuments docs field direction !! j = Some doc2 →
     in_direction field direction doc1 doc2) ∧
  ((∀ a b c, a ∈ docs → b ∈ docs → c ∈ docs →
      shouldSwap field direction a b = false →
      shouldSwap field direction b c = false →
      shouldSwap field direction a c = false) →
   ∀ i j doc1 doc2, i < j →
     SortDocuments docs field direction !! i = Some doc1 →
     SortDocuments docs field direction !! j = Some doc2 →
     shouldSwap field direction doc1 doc2 = false) ∧
  (∀ p : Doc → bool,
     (∀ a b, p a = true → p b = true → shouldSwap field direction a b = false) →
     List.filter p (SortDocuments docs field direction) = List.filter p docs) ∧
  (∀ l j doc1 doc2,
     l !! j = Some doc1 → l !! (j + 1) = Some doc2 →
     doc1 !! field = None ∨ doc2 !! field = None →
     sort_step field direction l j = l) ∧
  (∀ x y,
     toFloat64 (VNum x) = Some x ∧
     compareValues (VNum x) (VNum y) =
     if num_ltb x y then (-1)%Z else if num_ltb y x then 1%Z else 0%Z) ∧
  (∀ a b,
     (∀ x, a ≠ VNum x) ∨ (∀ y, b ≠ VNum y) →
     compareValues a b =
     if String.ltb (fmtV a) (fmtV b) then (-1)%Z
     else if String.ltb (fmtV b) (fmtV a) then 1%Z else 0%Z).
Proof.
  pose proof (sort_outer_perm field direction (length docs)
                (length docs - 1) docs 0) as Hp.
  split_and!.
  - done.
  - intros Hall i doc1 doc2 H1 H2.
    assert (∀ d k, SortDocuments docs field direction !! k = Some d →
              is_Some (d !! field)) as Hin.
    { intros d k Hk. apply Hall. rewrite <- Hp.
      by eapply list_elem_of_lookup_2. }
    apply shouldSwap_in_direction; [by eapply Hin..|].
    by apply (in_order_lookup field direction _ i doc1 doc2
                (SortDocuments_in_order field direction docs)).
  - intros Hall.
    apply (SortDocuments_all_pairs field direction docs
             (λ v, toFloat64 v = None)); [done|].
    intros a b c Ha Hb Hc. split.
    + by apply compareValues_text_le_trans.
    + by apply compareValues_text_ge_trans.
  - intros Hnum Hall.
    apply (SortDocuments_all_pairs field direction docs
             (λ v, ∃ x, v = VNum x)).
    + intros doc Hd. destruct (Hall doc Hd) as [x Hx]. eauto.
    + intros a b c [x ->] [y ->] [z ->]. split.
      * rewrite !compareValues_numbers_le. intros H1 H2. by apply (Hnum z y x).
      * rewrite !compareValues_numbers_ge. apply Hnum.
  - intros Htr i j doc1 doc2 Hij H1 H2.
    eapply strongly_lookup; [|done..].
    apply in_order_strongly; [apply SortDocuments_in_order|].
    intros a b c Ha Hb Hc. apply Htr; by rewrite <- Hp.
  - intros p Hf. by apply sort_outer_filter.
  - intros l j doc1 doc2 H1 H2 Hmiss. unfold sort_step, shouldSwap.
    rewrite H1, H2. destruct Hmiss as [-> | ->]; [done|].
    by destruct (doc1 !! field).
  - intros x y. split; [done|]. apply compareValues_numbers.
  - intros a b Hn. apply compareValues_text.
    destruct Hn as [Hn|Hn]; [left|right].
    + destruct a; try done. by destruct (Hn n).
    + destruct b; try done. by destruct (Hn n).
Qed.

End SortProps.

(** * Further properties of the engine *)

(** ** Single-document methods *)
Section MethodProps.
Context {NM : NumModel} {LM : LineModel}.

Lemma lookup_merge_update (existingDoc update : Doc) (key : string) :
  merge_update existingDoc update !! key =
  match update !! key with
  | Some v => Some v
  | None => existingDoc !! key
  end.
Proof.
  rewrite merge_update_union.
  destruct (update !! key) as [v|] eqn:E.
  - by apply lookup_union_Some_l.
  - by rewrite lookup_union_r.
Qed.

Lemma lookup_merged (id : string) (existingDoc update : Doc) (key : string) :
  merged id existingDoc update !! key =
  if decide (key = "id") then Some (VStr id)
  else match update !! key with
       | Some v => Some v
       | None => existingDoc !! key
       end.
Proof.
  unfold merged. case_decide as Hk.
  - subst. apply lookup_insert_eq.
  - rewrite lookup_insert_ne by done. apply lookup_merge_update.
Qed.

Lemma Update_ok_inv (c : Collection) (s : Storage) (id : string) (update : Doc)
    (c' : Collection) (s' : Storage) :
  Update c s id update = (None, c', s') →
  ∃ doc, documents c !! id = Some doc ∧
         c' = set_documents c (<[id := merged id doc update]> (documents c)) ∧
         records s' = records s ++
           [{| rec_Collection := name c; rec_ID := id;
               rec_Doc := Some (merged id doc update) |}].
Proof.
  unfold Update. destruct (documents c !! id) as [doc|]; [|done].
  destruct (Append s _) as [[err|] s1] eqn:Ha; [done|].
  intros [= <- <-]. exists doc. split_and!; [done..|].
  by apply (Append_ok _ _ _ Ha).
Qed.

Lemma Insert_ok_inv (c : Collection) (s : Storage) (uuid : string) (doc : Doc)
    (id : string) (c' : Collection) (s' : Storage) :
  Insert c s uuid doc = (inr id, c', s') →
  let stored := match doc !! "id" with
                | Some _ => doc
                | None => <["id" := VStr uuid]> doc
                end in
  id = assigned_id uuid doc ∧
  documents c !! id = None ∧
  c' = set_documents c (<[id := stored]> (documents c)) ∧
  records s' = records s ++
    [{| rec_Collection := name c; rec_ID := id; rec_Doc := Some stored |}].
Proof.
  unfold Insert, assigned_id.
  destruct (doc !! "id") as [idVal|] eqn:Hid; simpl.
  all: destruct (documents c !! _) eqn:Hd; [done|].
  all: destruct (Append s _) as [[err|] s1] eqn:Ha; [done|].
  all: intros [= <- <- <-]; split_and!; [done..|].
  all: by apply (Append_ok _ _ _ Ha).
Qed.

Lemma Delete_ok_inv (c : Collection) (s : Storage) (id : string)
    (c' : Collection) (s' : Storage) :
  Delete c s id = (None, c', s') →
  is_Some (documents c !! id) ∧
  c' = set_documents c (delete id (documents c)) ∧
  records s' = records s ++ [tombstone c id].
Proof.
  unfold Delete. destruct (documents c !! id) as [doc|]; [|done].
  destruct (Append s _) as [[err|] s1] eqn:Ha; [done|].
  intros [= <- <-]. split_and!; [by eexists|done|].
  by apply (Append_ok _ _ _ Ha).
Qed.

(** X1.  An update or a deletion of an id that the collection does not
    hold returns the not-found error and leaves every document and the log
    as they were; but the call has gone through [GetCollection], so the
    collection is registered afterwards even if it was unknown. *)
Theorem X1_missing_id_not_found (db : Database) (collName id : string)
    (update : Doc) :
  lookup_doc db collName id = None →
  let upd := run_call db (CallUpdate collName id update) in
  let del := run_call db (CallDelete collName id) in
  (upd.1 = Some (ErrNotFound id) ∧ del.1 = Some (ErrNotFound id) ∧
   upd.2 = del.2 ∧
   storage upd.2 = storage db ∧
   (∀ n i, lookup_doc upd.2 n i = lookup_doc db n i) ∧
   collName ∈ ListCollections upd.2 ∧
   (∀ n, n ≠ collName → collections upd.2 !! n = collections db !! n)).
Proof.
  intros Hnone. simpl. rewrite !on_collection_unfold.
  pose proof (GetCollection_lookup db collName id) as Hg. rewrite Hnone in Hg.
  unfold Update, Delete. rewrite Hg. simpl.
  split_and!; try done.
  - intros n i. unfold lookup_doc; simpl.
    destruct (decide (n = collName)) as [->|Hne].
    + rewrite lookup_insert_eq. simpl. apply GetCollection_lookup.
    + by rewrite lookup_insert_ne, GetCollection_others.
  - apply elem_of_ListCollections. simpl. rewrite lookup_insert_eq. eauto.
  - intros n Hne. by rewrite lookup_insert_ne, GetCollection_others.
Qed.

(** X2.  A successful [Update] is a shallow merge: in the stored document
    the identifier field is the id as a string, every other field of the
    payload has the payload's value, and every field absent from the
    payload keeps its old value.  The other documents are untouched and
    the record appended carries the whole merged document. *)
Theorem X2_Update_shallow_merge (c : Collection) (s : Storage) (id : string)
    (doc update : Doc) (c' : Collection) (s' : Storage) :
  documents c !! id = Some doc →
  Update c s id update = (None, c', s') →
  ∃ doc',
    FindByID c' id = Some doc' ∧
    doc' !! "id" = Some (VStr id) ∧
    (∀ key v, key ≠ "id" → update !! key = Some v → doc' !! key = Some v) ∧
    (∀ key, key ≠ "id" → update !! key = None → doc' !! key = doc !! key) ∧
    (∀ other, other ≠ id → FindByID c' other = FindByID c other) ∧
    records s' = records s ++
      [{| rec_Collection := name c; rec_ID := id; rec_Doc := Some doc' |}].
Proof.
  intros Hdoc Hu. apply Update_ok_inv in Hu as (d & Hd & -> & Hrec).
  assert (d = doc) as -> by congruence.
  exists (merged id doc update). unfold FindByID; simpl. split_and!.
  - apply lookup_insert_eq.
  - rewrite lookup_merged. by rewrite decide_True.
  - intros key v Hk Hv. rewrite lookup_merged, decide_False, Hv; done.
  - intros key Hk Hv. rewrite lookup_merged, decide_False, Hv; done.
  - intros other Ho. by rewrite lookup_insert_ne.
  - done.
Qed.

(** X3.  A successful [Insert] returns the id the document is filed
    under (the text of its identifier field, or the generated id, which is
    then written into the document); the id was free, the document can be
    found under it with all its fields, the collection has one document
    more, the others are untouched, and one record with the document was
    appended. *)
Theorem X3_Insert_then_find (c : Collection) (s : Storage) (uuid : string)
    (doc : Doc) (id : string) (c' : Collection) (s' : Storage) :
  Insert c s uuid doc = (inr id, c', s') →
  id = assigned_id uuid doc ∧
  FindByID c id = None ∧
  ∃ stored,
    FindByID c' id = Some stored ∧
    (∀ key, key ≠ "id" → stored !! key = doc !! key) ∧
    (∃ idVal, stored !! "id" = Some idVal ∧ fmtV idVal = id ∧
              (doc !! "id" = None → idVal = VStr uuid) ∧
              (∀ v, doc !! "id" = Some v → idVal = v)) ∧
    (∀ other, other ≠ id → FindByID c' other = FindByID c other) ∧
    Count c' = S (Count c) ∧
    records s' = records s ++
      [{| rec_Collection := name c; rec_ID := id; rec_Doc := Some stored |}].
Proof.
  intros Hi. apply Insert_ok_inv in Hi as (Hid & Hfree & -> & Hrec).
  split_and!; [done..|]. eexists. unfold FindByID, Count; simpl.
  split_and!; [apply lookup_insert_eq| | | | |exact Hrec].
  - intros key Hk. destruct (doc !! "id"); [done|]. by rewrite lookup_insert_ne.
  - unfold assigned_id in Hid. destruct (doc !! "id") as [v|] eqn:Hd.
    + exists v. split_and!; [done|done|done|]. by intros ? [= ->].
    + exists (VStr uuid). rewrite lookup_insert_eq. split_and!; done.
  - intros other Ho. by rewrite lookup_insert_ne.
  - by apply map_size_insert_None.
Qed.

(** X4.  A successful [Delete] found the document, removes exactly it
    (the collection has one document less, the others are untouched) and
    appends one tombstone. *)
Theorem X4_Delete_removes_one (c : Collection) (s : Storage) (id : string)
    (c' : Collection) (s' : Storage) :
  Delete c s id = (None, c', s') →
  is_Some (FindByID c id) ∧
  FindByID c' id = None ∧
  (∀ other, other ≠ id → FindByID c' other = FindByID c other) ∧
  Count c = S (Count c') ∧
  records s' = records s ++ [tombstone c id].
Proof.
  intros Hd. apply Delete_ok_inv in Hd as ([doc Hdoc] & -> & Hrec).
  unfold FindByID, Count; simpl. split_and!.
  - by eexists.
  - apply lookup_delete_eq.
  - intros other Ho. by rewrite lookup_delete_ne.
  - rewrite map_size_delete_Some by eauto.
    pose proof (map_size_ne_0_lookup_2 (documents c) id) as Hsz.
    destruct (size (documents c)); [by destruct Hsz; eauto | done].
  - done.
Qed.

(** X5.  After a successful [Insert], inserting the stored document again
    is rejected as a duplicate, whatever id would be generated and whatever
    the storage does; nothing changes. *)
Theorem X5_Insert_twice_rejected (c : Collection) (s : Storage) (uuid : string)
    (doc : Doc) (id : string) (c' : Collection) (s' : Storage) :
  Insert c s uuid doc = (inr id, c', s') →
  ∃ stored,
    FindByID c' id = Some stored ∧
    ∀ uuid2 s2, Insert c' s2 uuid2 stored = (inl (ErrDuplicateKey id), c', s2).
Proof.
  intros Hi. apply Insert_ok_inv in Hi as (Hid & Hfree & -> & Hrec).
  eexists. split; [apply lookup_insert_eq|]. intros uuid2 s2.
  unfold Insert, assigned_id in *.
  destruct (doc !! "id") as [v|] eqn:Hd.
  - rewrite Hd. subst id. simpl. by rewrite lookup_insert_eq.
  - rewrite lookup_insert_eq. subst id. simpl. by rewrite lookup_insert_eq.
Qed.

(** X6.  Deleting the document that was just inserted gives back the
    collection as it was before the insert; the log has grown by the
    record of the insert and a tombstone. *)
Theorem X6_Insert_Delete_restores (c : Collection) (s : Storage) (uuid : string)
    (doc : Doc) (id : string) (c1 c2 : Collection) (s1 s2 : Storage) :
  Insert c s uuid doc = (inr id, c1, s1) →
  Delete c1 s1 id = (None, c2, s2) →
  c2 = c ∧
  ∃ stored, records s2 = records s ++
    [{| rec_Collection := name c; rec_ID := id; rec_Doc := Some stored |};
     tombstone c id].
Proof.
  intros Hi Hd. apply Insert_ok_inv in Hi as (Hid & Hfree & -> & Hrec).
  apply Delete_ok_inv in Hd as (_ & -> & Hrec2). split.
  - rewrite set_documents_twice. simpl.
    by rewrite delete_insert_eq, delete_id, set_documents_id.
  - eexists. rewrite Hrec2, Hrec, <- app_assoc. done.
Qed.

(** X7.  [Update] is idempotent on the document: a second successful
    update with the same payload stores the same document again (and
    appends it once more). *)
Theorem X7_Update_idempotent (c : Collection) (s : Storage) (id : string)
    (update : Doc) (c1 c2 : Collection) (s1 s1' s2 : Storage) :
  Update c s id update = (None, c1, s1) →
  Update c1 s1' id update = (None, c2, s2) →
  c2 = c1 ∧
  ∃ doc', FindByID c1 id = Some doc' ∧
          records s2 = records s1' ++
            [{| rec_Collection := name c; rec_ID := id; rec_Doc := Some doc' |}].
Proof.
  intros H1 H2. apply Update_ok_inv in H1 as (d & Hd & -> & Hrec1).
  apply Update_ok_inv in H2 as (d2 & Hd2 & -> & Hrec2).
  simpl in Hd2. rewrite lookup_insert_eq in Hd2. injection Hd2 as <-.
  assert (merged id (merged id d update) update = merged id d update) as Hidem.
  { apply map_eq. intros key. rewrite !lookup_merged.
    case_decide; [done|]. by destruct (update !! key). }
  rewrite Hidem in *. split.
  - rewrite set_documents_twice. simpl. by rewrite insert_insert_eq.
  - eexists. split; [apply lookup_insert_eq | exact Hrec2].
Qed.

End MethodProps.

(** ** Reading a collection *)
Section ReadingProps.
Context {NM : NumModel} {LM : LineModel}.

Lemma ranges_over_perm {A} (m : gmap string A) (order : list string) :
  ranges_over m order → order ≡ₚ (map_to_list m).*1.
Proof.
  intros [Hnd Hin]. apply NoDup_Permutation; [done|apply NoDup_fst_map_to_list|].
  intros key. rewrite Hin, list_elem_of_fmap. split.
  - intros [x Hx]. exists (key, x). split; [done|]. by apply elem_of_map_to_list.
  - intros ([k x] & -> & Hx). apply elem_of_map_to_list in Hx. by eexists.
Qed.

Lemma ranges_over_length {A} (m : gmap string A) (order : list string) :
  ranges_over m order → length order = size m.
Proof.
  intros Hr. rewrite (ranges_over_perm _ _ Hr), length_fmap.
  apply length_map_to_list.
Qed.

Lemma ranges_over_unique {A} (m : gmap string A) (o1 o2 : list string) :
  ranges_over m o1 → ranges_over m o2 → o1 ≡ₚ o2.
Proof. intros H1 H2. by rewrite (ranges_over_perm _ _ H1), (ranges_over_perm _ _ H2). Qed.

Lemma elem_of_matching_ids (c : Collection) (filter : Doc) (order : list string)
    (id : string) :
  id ∈ matching_ids c filter order ↔
  id ∈ order ∧ ∃ doc, documents c !! id = Some doc ∧ MatchesFilter doc filter = true.
Proof.
  unfold matching_ids. rewrite !list_elem_of_In, List.filter_In.
  destruct (documents c !! id) as [doc|]; split.
  - intros [? ?]. eauto.
  - intros [? (d & [= <-] & ?)]. done.
  - by intros [? ?].
  - by intros [? (d & ? & ?)].
Qed.

Lemma NoDup_matching_ids (c : Collection) (filter : Doc) (order : list string) :
  NoDup order → NoDup (matching_ids c filter order).
Proof.
  induction 1 as [|id rest Hid Hnd IH]; [constructor|].
  unfold matching_ids in *. simpl.
  destruct (match documents c !! id with
            | Some doc => MatchesFilter doc filter
            | None => false
            end); [|done].
  constructor; [|done]. intros Hin. apply Hid.
  by apply (elem_of_matching_ids c filter rest id) in Hin as [? _].
Qed.

Lemma matching_ids_ranges (c : Collection) (filter : Doc) (order : list string) :
  ranges_over (documents c) order →
  ranges_over (base.filter (λ kv, MatchesFilter kv.2 filter = true) (documents c))
              (matching_ids c filter order).
Proof.
  intros [Hnd Hin]. split.
  - by apply NoDup_matching_ids.
  - intros key. rewrite elem_of_matching_ids. split.
    + intros [_ (doc & Hd & Hm)]. exists doc. by apply map_lookup_filter_Some.
    + intros [doc [Hd Hm]%map_lookup_filter_Some]. split; [apply Hin|]; eauto.
Qed.

(** What [Find] returns is read off the ids that match. *)
Lemma Find_matching (c : Collection) (filter : Doc) (order : list string) :
  Find c filter order = omap (λ id, documents c !! id) (matching_ids c filter order).
Proof.
  unfold Find, FindAll, matching_ids.
  destruct (decide (size filter = 0)) as [Hz|Hz].
  - apply map_size_empty_iff in Hz. subst filter.
    induction order as [|id rest IH]; [done|]. simpl.
    destruct (documents c !! id) as [doc|] eqn:Hd; simpl.
    + rewrite MatchesFilter_empty. simpl. rewrite Hd. simpl. f_equal. apply IH.
    + apply IH.
  - induction order as [|id rest IH]; [done|]. simpl.
    destruct (documents c !! id) as [doc|] eqn:Hd; simpl; [|apply IH].
    destruct (MatchesFilter doc filter); simpl; [|apply IH].
    rewrite Hd. simpl. f_equal. apply IH.
Qed.

Lemma Find_length (c : Collection) (filter : Doc) (order : list string) :
  length (Find c filter order) = length (matching_ids c filter order).
Proof.
  rewrite Find_matching.
  assert (Forall (λ id, is_Some (documents c !! id)) (matching_ids c filter order))
    as Hall.
  { apply Forall_forall. intros id (_ & doc & Hd & _)%elem_of_matching_ids. eauto. }
  induction Hall as [|id l [doc Hd] _ IH]; [done|]. simpl. rewrite Hd. simpl.
  f_equal. apply IH.
Qed.

Lemma CountWhere_loop_length (c : Collection) (filter : Doc) (order : list string)
    (count : nat) :
  foldl (λ count id,
           match documents c !! id with
           | Some doc => if MatchesFilter doc filter then S count else count
           | None => count
           end) count order
  = count + length (matching_ids c filter order).
Proof.
  unfold matching_ids. revert count.
  induction order as [|id rest IH]; intros count; simpl; [lia|].
  rewrite IH. destruct (documents c !! id) as [doc|]; [|done].
  destruct (MatchesFilter doc filter); simpl; lia.
Qed.

Lemma ranges_over_singleton {A} (key : string) (x : A) :
  ranges_over ({[ key := x ]} : gmap string A) [key].
Proof.
  split; [apply NoDup_singleton|]. intros k.
  rewrite list_elem_of_singleton, lookup_singleton_is_Some. naive_solver.
Qed.

(** X8.  For any order in which the [range] visits the collection,
    [Find] returns exactly the stored documents that match the filter (all
    of them for the empty filter, where it is [FindAll]); another visiting
    order gives the same documents in another order. *)
Theorem X8_Find_exactly_matching (c : Collection) (filter : Doc)
    (order : list string) :
  ranges_over (documents c) order →
  (∀ doc, doc ∈ Find c filter order ↔
          ∃ id, documents c !! id = Some doc ∧ MatchesFilter doc filter = true) ∧
  (∀ doc, doc ∈ FindAll c order ↔ ∃ id, documents c !! id = Some doc) ∧
  Find c ∅ order = FindAll c order ∧
  (∀ order', ranges_over (documents c) order' →
             Find c filter order' ≡ₚ Find c filter order).
Proof.
  intros Hr. split_and!.
  - intros doc. rewrite Find_matching, list_elem_of_omap. split.
    + intros (id & (_ & d & Hd & Hm)%elem_of_matching_ids & Hdoc).
      exists id. split; [done|]. congruence.
    + intros (id & Hd & Hm). exists id. split; [|done].
      apply elem_of_matching_ids. split; [apply Hr|]; eauto.
  - intros doc. unfold FindAll. rewrite list_elem_of_omap. split.
    + intros (id & _ & Hd). eauto.
    + intros (id & Hd). exists id. split; [apply Hr|]; eauto.
  - done.
  - intros order' Hr'. rewrite !Find_matching.
    apply omap_Permutation.
    eapply ranges_over_unique; by apply matching_ids_ranges.
Qed.

Lemma CountWhere_matching (c : Collection) (filter : Doc) (order : list string) :
  ranges_over (documents c) order →
  CountWhere c filter order = length (matching_ids c filter order).
Proof.
  intros Hr. unfold CountWhere. destruct (decide (size filter = 0)) as [Hz|Hz].
  - apply map_size_empty_iff in Hz. subst filter.
    rewrite <- (ranges_over_length _ _ Hr). f_equal.
    unfold matching_ids. symmetry. apply List.forallb_filter_id.
    apply List.forallb_forall. intros id Hid%list_elem_of_In.
    apply Hr in Hid as [doc ->]. by rewrite MatchesFilter_empty.
  - by rewrite CountWhere_loop_length.
Qed.

(** X9.  [CountWhere] is the number of documents [Find] returns, which is
    the number of stored documents that match, whatever the visiting
    order; it is at most [Count], and equal to it for the empty filter. *)
Theorem X9_CountWhere_counts_matches (c : Collection) (filter : Doc)
    (order : list string) :
  ranges_over (documents c) order →
  CountWhere c filter order = length (Find c filter order) ∧
  CountWhere c filter order =
    size (base.filter (λ kv, MatchesFilter kv.2 filter = true) (documents c)) ∧
  CountWhere c filter order ≤ Count c ∧
  CountWhere c ∅ order = Count c.
Proof.
  intros Hr.
  pose proof (CountWhere_matching c filter order Hr) as Hc.
  assert (CountWhere c filter order =
          size (base.filter (λ kv, MatchesFilter kv.2 filter = true) (documents c)))
    as Hs.
  { rewrite Hc. by apply ranges_over_length, matching_ids_ranges. }
  split_and!.
  - by rewrite Find_length.
  - done.
  - rewrite Hs. apply map_size_filter.
  - done.
Qed.

End ReadingProps.

(** ** Methods on many documents *)
Section ManyProps.
Context {NM : NumModel} {LM : LineModel}.

Lemma Append_no_fault (s : Storage) (r : StorageRecord) :
  faults s = [] →
  Append s r = (None, {| records := records s ++ [r]; faults := [] |}).
Proof. intros H. unfold Append, next_fault. rewrite H. simpl. by rewrite H. Qed.

(** How far [DeleteMany] got: [done] are the ids with a tombstone in the
    log, [gone] the ids removed from the map. *)
Lemma DeleteMany_loop_inv (ids : list string) (c : Collection) (s : Storage)
    (count n : nat) (e : option error) (c' : Collection) (s' : Storage) :
  DeleteMany_loop ids c s count = ((n, e), c', s') →
  ∃ done gone,
    n = count + length done ∧
    records s' = records s ++ (tombstone c <$> done) ∧
    name c' = name c ∧
    (∀ key, documents c' !! key =
            if decide (key ∈ gone) then None else documents c !! key) ∧
    match e with
    | None => done = ids ∧ gone = ids
    | Some err =>
        err = ErrWrap "failed to persist deletion" ErrIO ∧
        ∃ id rest, ids = done ++ id :: rest ∧ gone = done ++ [id]
    end.
Proof.
  revert c s count. induction ids as [|id rest IH]; intros c s count; simpl.
  - intros [= <- <- <- <-]. exists [], []. simpl.
    split_and!; [lia|by rewrite app_nil_r|done..].
  - destruct (Append s _) as [[err|] s1] eqn:Ha.
    + intros [= <- <- <- <-]. exists [], [id].
      destruct (Append_records _ _ _ _ Ha) as [[? _]|[[= ->] Hr]]; [done|].
      simpl. split_and!; [lia|by rewrite app_nil_r|done| |done|by exists id, rest].
      intros key. case_decide as Hk.
      * apply list_elem_of_singleton in Hk as ->. apply lookup_delete_eq.
      * apply lookup_delete_ne. intros ->. apply Hk. by left.
    + intros Hloop. apply IH in Hloop as (done & gone & Hn & Hrec & Hname & Hdocs & He).
      apply Append_ok in Ha. simpl in *.
      exists (id :: done), (id :: gone). split_and!.
      * simpl. lia.
      * rewrite Hrec, Ha, <- app_assoc. done.
      * done.
      * intros key. rewrite Hdocs. destruct (decide (key = id)) as [->|Hne].
        -- rewrite (decide_True (P := id ∈ id :: gone)) by by left.
           case_decide; [done|]. apply lookup_delete_eq.
        -- rewrite lookup_delete_ne by done.
           destruct (decide (key ∈ gone)) as [Hg|Hg].
           ++ by rewrite decide_True by by right.
           ++ rewrite decide_False; [done|]. by intros [?|?]%elem_of_cons.
      * destruct e as [err|].
        -- destruct He as (-> & i & r & -> & ->). split; [done|]. by exists i, r.
        -- by destruct He as [-> ->].
Qed.

Lemma DeleteMany_loop_no_fault (ids : list string) (c : Collection) (s : Storage)
    (count : nat) :
  faults s = [] → (DeleteMany_loop ids c s count).1.1.2 = None.
Proof.
  revert c s count. induction ids as [|id rest IH]; intros c s count Hf; [done|].
  simpl. rewrite (Append_no_fault _ _ Hf). by apply IH.
Qed.

(** X10.  When [DeleteMany] returns without error it has removed exactly
    the documents that matched the filter: the count is their number, the
    other documents are untouched, one tombstone per removed document was
    appended, in visiting order, and no document of the collection matches
    the filter any more.  It does return without error when no write
    fails. *)
Theorem X10_DeleteMany_removes_matches (c : Collection) (s : Storage)
    (filter : Doc) (order : list string) :
  ranges_over (documents c) order →
  (faults s = [] → (DeleteMany filter order c s).1.1.2 = None) ∧
  (∀ n c' s',
     DeleteMany filter order c s = ((n, None), c', s') →
     n = CountWhere c filter order ∧
     (∀ key, documents c' !! key =
             match documents c !! key with
             | Some doc => if MatchesFilter doc filter then None else Some doc
             | None => None
             end) ∧
     records s' = records s ++ (tombstone c <$> matching_ids c filter order) ∧
     (∀ key doc, documents c' !! key = Some doc → MatchesFilter doc filter = false)).
Proof.
  intros Hr. split; [apply DeleteMany_loop_no_fault|].
  intros n c' s' Hd. unfold DeleteMany in Hd.
  apply DeleteMany_loop_inv in Hd as (done & gone & Hn & Hrec & _ & Hdocs & -> & ->).
  fold (matching_ids c filter order) in *.
  assert (∀ key, documents c' !! key =
             match documents c !! key with
             | Some doc => if MatchesFilter doc filter then None else Some doc
             | None => None
             end) as Hchar.
  { intros key. rewrite Hdocs. case_decide as Hk.
    - apply elem_of_matching_ids in Hk as (_ & doc & -> & ->). done.
    - destruct (documents c !! key) as [doc|] eqn:Hdoc; [|done].
      destruct (MatchesFilter doc filter) eqn:Hm; [|done].
      destruct Hk. apply elem_of_matching_ids. split; [apply Hr|]; eauto. }
  split_and!; [|done|done|].
  - simpl in Hn. rewrite Hn.
    by rewrite (CountWhere_matching c filter order Hr).
  - intros key doc. rewrite Hchar.
    destruct (documents c !! key) as [d|]; [|done].
    destruct (MatchesFilter d filter) eqn:Hm; [done|]. by intros [= <-].
Qed.

Lemma matching_ids_ext (c1 c2 : Collection) (filter : Doc) (order : list string) :
  (∀ id, id ∈ order → documents c1 !! id = documents c2 !! id) →
  matching_ids c1 filter order = matching_ids c2 filter order.
Proof.
  unfold matching_ids. induction order as [|id rest IH]; intros H; [done|].
  simpl. rewrite (H id) by by left. rewrite IH; [done|].
  intros k Hk. apply H. by right.
Qed.

(** How far [UpdateMany] got: [done] are the ids whose merged document is
    in the log, [touched] the ids whose document was merged in memory. *)
Lemma UpdateMany_loop_inv (filter update : Doc) (order : list string)
    (c : Collection) (s : Storage) (count n : nat) (e : option error)
    (c' : Collection) (s' : Storage) :
  NoDup order →
  UpdateMany_loop filter update order c s count = ((n, e), c', s') →
  ∃ done touched,
    n = count + length done ∧
    records s' = records s ++ (update_record c update <$> done) ∧
    name c' = name c ∧
    (∀ key, key ∈ touched → key ∈ order) ∧
    (∀ key, documents c' !! key =
            if decide (key ∈ touched)
            then (λ doc, merged key doc update) <$> documents c !! key
            else documents c !! key) ∧
    match e with
    | None => done = matching_ids c filter order ∧ touched = done
    | Some err =>
        err = ErrWrap "failed to persist update" ErrIO ∧
        ∃ id rest, matching_ids c filter order = done ++ id :: rest ∧
                   touched = done ++ [id]
    end.
Proof.
  intros Hnd. revert c s count.
  induction Hnd as [|id rest Hid Hnd IH]; intros c s count; simpl.
  - intros [= <- <- <- <-]. exists [], []. simpl.
    split_and!; [lia|by rewrite app_nil_r|done|done|done..].
  - unfold matching_ids. simpl. fold (matching_ids c filter rest).
    destruct (documents c !! id) as [doc|] eqn:Hd.
    2:{ intros Hloop. apply IH in Hloop
          as (done & touched & Hn & Hrec & Hname & Hsub & Hdocs & He).
        exists done, touched. split_and!; try done.
        intros key Hk. right. by apply Hsub. }
    destruct (MatchesFilter doc filter) eqn:Hm.
    2:{ intros Hloop. apply IH in Hloop
          as (done & touched & Hn & Hrec & Hname & Hsub & Hdocs & He).
        exists done, touched. split_and!; try done.
        intros key Hk. right. by apply Hsub. }
    fold (merged id doc update).
    destruct (Append s _) as [[err|] s1] eqn:Ha.
    + intros [= <- <- <- <-]. exists [], [id].
      destruct (Append_records _ _ _ _ Ha) as [[? _]|[[= ->] Hr]]; [done|].
      simpl. split_and!; [lia|by rewrite app_nil_r|done| | |done|by eexists _, _].
      * intros key ->%list_elem_of_singleton. by left.
      * intros key. case_decide as Hk.
        -- apply list_elem_of_singleton in Hk as ->.
           by rewrite lookup_insert_eq, Hd.
        -- apply lookup_insert_ne. intros ->. apply Hk. by left.
    + intros Hloop. apply IH in Hloop
        as (done & touched & Hn & Hrec & Hname & Hsub & Hdocs & He).
      apply Append_ok in Ha. simpl in *.
      assert (matching_ids
                (set_documents c (<[id:=merged id doc update]> (documents c)))
                filter rest = matching_ids c filter rest) as Hids.
      { apply matching_ids_ext. intros k Hk. simpl.
        apply lookup_insert_ne. by intros ->. }
      rewrite Hids in He.
      assert (∀ k, k ∈ done → k ∈ rest) as Hdone.
      { intros k Hk. destruct e as [err|].
        - destruct He as (_ & i & r & Heq & ->). apply Hsub.
          apply elem_of_app. by left.
        - destruct He as [_ <-]. by apply Hsub. }
      exists (id :: done), (id :: touched). split_and!.
      * simpl. lia.
      * rewrite Hrec, Ha, <- app_assoc. simpl. f_equal.
        unfold update_record at 2. rewrite Hd. simpl. f_equal.
        apply Forall_fmap_ext_1, Forall_forall. intros k Hk%Hdone.
        unfold update_record. simpl. rewrite lookup_insert_ne; [done|].
        by intros ->.
      * done.
      * intros key [->|Hk]%elem_of_cons; [by left|right; by apply Hsub].
      * intros key. rewrite Hdocs. destruct (decide (key = id)) as [->|Hne].
        -- rewrite (decide_True (P := id ∈ id :: touched)) by by left.
           rewrite decide_False by (intros Hk%Hsub; done).
           by rewrite lookup_insert_eq, Hd.
        -- rewrite lookup_insert_ne by done.
           destruct (decide (key ∈ touched)) as [Hg|Hg].
           ++ by rewrite decide_True by by right.
           ++ rewrite decide_False; [done|]. by intros [?|?]%elem_of_cons.
      * destruct e as [err|].
        -- destruct He as (-> & i & r & -> & ->). split; [done|]. by exists i, r.
        -- by destruct He as [-> ->].
Qed.

Lemma UpdateMany_loop_no_fault (filter update : Doc) (order : list string)
    (c : Collection) (s : Storage) (count : nat) :
  faults s = [] → (UpdateMany_loop filter update order c s count).1.1.2 = None.
Proof.
  revert c s count. induction order as [|id rest IH]; intros c s count Hf; [done|].
  simpl. destruct (documents c !! id) as [doc|]; [|by apply IH].
  destruct (MatchesFilter doc filter); [|by apply IH].
  rewrite (Append_no_fault _ _ Hf). by apply IH.
Qed.

(** X11.  When a write fails in the middle of [DeleteMany] or
    [UpdateMany], the count returned is the number of documents handled
    before the failing one, but the failing document has been changed in
    memory as well: [DeleteMany] has removed [n + 1] documents and
    [UpdateMany] has merged the update into [n + 1] documents.  The error
    wraps the storage error. *)
Theorem X11_many_partial_failure (c : Collection) (s : Storage)
    (filter update : Doc) (order : list string) :
  ranges_over (documents c) order →
  (∀ n err c' s',
     DeleteMany filter order c s = ((n, Some err), c', s') →
     err = ErrWrap "failed to persist deletion" ErrIO ∧
     n < CountWhere c filter order ∧
     ∃ id, matching_ids c filter order !! n = Some id ∧
       documents c' !! id = None ∧
       ∀ key, documents c' !! key =
              if decide (key ∈ take (S n) (matching_ids c filter order))
              then None else documents c !! key) ∧
  (∀ n err c' s',
     UpdateMany filter update order c s = ((n, Some err), c', s') →
     err = ErrWrap "failed to persist update" ErrIO ∧
     n < CountWhere c filter order ∧
     ∃ id doc, matching_ids c filter order !! n = Some id ∧
       documents c !! id = Some doc ∧
       documents c' !! id = Some (merged id doc update) ∧
       ∀ key, documents c' !! key =
              if decide (key ∈ take (S n) (matching_ids c filter order))
              then (λ doc, merged key doc update) <$> documents c !! key
              else documents c !! key).
Proof.
  intros Hr. rewrite (CountWhere_matching c filter order Hr). split.
  - intros n err c' s' Hd. unfold DeleteMany in Hd.
    fold (matching_ids c filter order) in Hd.
    apply DeleteMany_loop_inv in Hd
      as (done & gone & -> & _ & _ & Hdocs & -> & id & rest & Hids & ->).
    simpl. rewrite Hids.
    assert (take (S (length done)) (done ++ id :: rest) = done ++ [id]) as Htake.
    { rewrite take_app_ge by lia.
      replace (S (length done) - length done) with 1 by lia. done. }
    rewrite Htake. split_and!; [done|rewrite length_app; simpl; lia|].
    exists id. split_and!; [|by rewrite Hdocs, decide_True by set_solver|done].
    by rewrite lookup_app_r, Nat.sub_diag by lia.
  - intros n err c' s' Hu. unfold UpdateMany in Hu.
    apply UpdateMany_loop_inv in Hu
      as (done & touched & -> & _ & _ & _ & Hdocs & -> & id & rest & Hids & ->);
      [|apply Hr].
    simpl. rewrite Hids.
    assert (take (S (length done)) (done ++ id :: rest) = done ++ [id]) as Htake.
    { rewrite take_app_ge by lia.
      replace (S (length done) - length done) with 1 by lia. done. }
    rewrite Htake. split_and!; [done|rewrite length_app; simpl; lia|].
    assert (id ∈ matching_ids c filter order) as Hid.
    { rewrite Hids. set_solver. }
    apply elem_of_matching_ids in Hid as (_ & doc & Hdoc & _).
    exists id, doc. split_and!; [|done| |done].
    + by rewrite lookup_app_r, Nat.sub_diag by lia.
    + by rewrite Hdocs, decide_True, Hdoc by set_solver.
Qed.

(** X12.  When [UpdateMany] returns without error it has merged the
    update into exactly the documents that matched the filter before the
    call: each of them has the update's fields and its own id, the others
    are unchanged, no document is added or removed, the count is the number
    of matches, and one record per match, carrying the merged document,
    was appended in visiting order.  It does return without error when no
    write fails. *)
Theorem X12_UpdateMany_merges_matches (c : Collection) (s : Storage)
    (filter update : Doc) (order : list string) :
  ranges_over (documents c) order →
  (faults s = [] → (UpdateMany filter update order c s).1.1.2 = None) ∧
  (∀ n c' s',
     UpdateMany filter update order c s = ((n, None), c', s') →
     n = CountWhere c filter order ∧
     (∀ key, documents c' !! key =
             match documents c !! key with
             | Some doc => if MatchesFilter doc filter
                           then Some (merged key doc update) else Some doc
             | None => None
             end) ∧
     Count c' = Count c ∧
     records s' =
       records s ++ (update_record c update <$> matching_ids c filter order)).
Proof.
  intros Hr. split; [apply UpdateMany_loop_no_fault|].
  intros n c' s' Hu. unfold UpdateMany in Hu.
  apply UpdateMany_loop_inv in Hu
    as (done & touched & Hn & Hrec & _ & _ & Hdocs & -> & ->); [|apply Hr].
  assert (∀ key, documents c' !! key =
             match documents c !! key with
             | Some doc => if MatchesFilter doc filter
                           then Some (merged key doc update) else Some doc
             | None => None
             end) as Hchar.
  { intros key. rewrite Hdocs. case_decide as Hk.
    - apply elem_of_matching_ids in Hk as (_ & doc & -> & ->). done.
    - destruct (documents c !! key) as [doc|] eqn:Hdoc; [|done].
      destruct (MatchesFilter doc filter) eqn:Hm; [|done].
      destruct Hk. apply elem_of_matching_ids. split; [apply Hr|]; eauto. }
  split_and!; [|done| |done].
  - simpl in Hn. by rewrite Hn, (CountWhere_matching c filter order Hr).
  - unfold Count. rewrite <- !(ranges_over_length _ order); [done|done|].
    split; [apply Hr|]. intros key. rewrite Hchar.
    destruct Hr as [_ ->]. destruct (documents c !! key) as [doc|]; [|done].
    destruct (MatchesFilter doc filter); split; eauto.
Qed.

(** The fold rule on a log extended by one record per id of [ids], all of
    the collection [collName]. *)
Lemma replay_spec_app_fmap (log : list StorageRecord) (f : string → StorageRecord)
    (ids : list string) (collName : string) :
  (∀ i, rec_Collection (f i) = collName ∧ rec_ID (f i) = i) →
  ∀ n i, replay_spec (log ++ (f <$> ids)) n i =
         if decide (n = collName ∧ i ∈ ids) then rec_Doc (f i)
         else replay_spec log n i.
Proof.
  intros Hf n i. induction ids as [|x ids IH] using rev_ind.
  - simpl. rewrite app_nil_r. rewrite decide_False; [done|].
    intros [_ H]. by apply elem_of_nil in H.
  - rewrite fmap_app, app_assoc. simpl. rewrite replay_spec_snoc, IH.
    destruct (Hf x) as [-> ->].
    destruct (decide (collName = n ∧ x = i)) as [[<- <-]|Hne].
    + rewrite decide_True; [done|]. split; [done|]. apply elem_of_app. right. by left.
    + destruct (decide (n = collName ∧ i ∈ ids)) as [[-> Hi]|Hni].
      * rewrite decide_True; [done|]. split; [done|]. apply elem_of_app. by left.
      * rewrite decide_False; [done|]. intros [-> Hi].
        apply elem_of_app in Hi as [Hi|Hi%list_elem_of_singleton]; [by apply Hni|].
        subst. by apply Hne.
Qed.


Lemma reopen_lookup (db : Database) (fs : list bool) (collName id : string) :
  log_consistent db →
  lookup_doc (opened {| records := records (storage db); faults := fs |})
             collName id = lookup_doc db collName id.
Proof. intros Hc. by rewrite opened_lookup, Hc. Qed.



(** [DropCollection] deletes the documents one by one as [DeleteMany]
    does, with one more layer around the error. *)
Lemma DropCollection_loop_DeleteMany (order : list string) (coll : Collection)
    (s : Storage) (count : nat) :
  NoDup order →
  (∀ id, id ∈ order → is_Some (documents coll !! id)) →
  DropCollection_loop order coll s =
  let '((_, e), coll', s') := DeleteMany_loop order coll s count in
  (ErrWrap "failed to delete document" <$> e, coll', s').
Proof.
  intros Hnd. revert coll s count.
  induction Hnd as [|id rest Hid Hnd IH]; intros coll s count Hall; [done|].
  simpl. destruct (Hall id) as [doc Hdoc]; [by left|]. rewrite Hdoc.
  unfold Delete. rewrite Hdoc. simpl.
  destruct (Append s _) as [[err|] s1]; [done|].
  apply IH. intros k Hk. simpl. rewrite lookup_delete_ne by (by intros ->).
  apply Hall. by right.
Qed.

(** X14.  [DropCollection] on a name that is not registered does nothing.
    On a registered collection it deletes every document: on success the
    collection is no longer listed, one tombstone per document was
    appended, the other collections are untouched, the database agrees
    with its log, and the collection is empty in the database that
    opening the file again gives.  When a write fails the collection stays registered, without
    the documents deleted so far, and the error is the wrapped error of
    [Delete]. *)
Theorem X14_DropCollection (db : Database) (collName : string) (coll : Collection)
    (order : list string) :
  names_ok db → log_consistent db →
  collections db !! collName = Some coll →
  ranges_over (documents coll) order →
  (∀ other order', collections db !! other = None →
                   DropCollection db other order' = (None, db)) ∧
  (faults (storage db) = [] → (DropCollection db collName order).1 = None) ∧
  (∀ db',
     DropCollection db collName order = (None, db') →
     collections db' = delete collName (collections db) ∧
     (collName ∉ ListCollections db') ∧
     records (storage db') =
       records (storage db) ++ (tombstone coll <$> order) ∧
     length (records (storage db')) = length (records (storage db)) + Count coll ∧
     names_ok db' ∧ log_consistent db' ∧
     (∀ id, lookup_doc db' collName id = None) ∧
     (∀ other id, other ≠ collName →
                  lookup_doc db' other id = lookup_doc db other id) ∧
     (∀ fs db1,
        OpenDatabase {| records := records (storage db'); faults := fs |}
          = inr db1 →
        ∀ id, lookup_doc db1 collName id = None)) ∧
  (∀ err db',
     DropCollection db collName order = (Some err, db') →
     err = ErrWrap "failed to delete document"
             (ErrWrap "failed to persist deletion" ErrIO) ∧
     collName ∈ ListCollections db' ∧
     ∃ id, id ∈ order ∧ lookup_doc db' collName id = None ∧
           ∀ key, is_Some (lookup_doc db' collName key) →
                  is_Some (lookup_doc db collName key)).
Proof.
  intros Hn Hc Hcoll Hr.
  pose proof (Hn _ _ Hcoll) as Hname.
  assert (∀ id, id ∈ order → is_Some (documents coll !! id)) as Hall.
  { intros id. apply Hr. }
  pose proof (DropCollection_loop_DeleteMany order coll (storage db) 0
                (proj1 Hr) Hall) as Hloop.
  destruct (DeleteMany_loop order coll (storage db) 0) as [[[n e] c'] s'] eqn:Hm.
  pose proof (DeleteMany_loop_no_fault order coll (storage db) 0) as Hnf.
  rewrite Hm in Hnf. simpl in Hnf.
  apply DeleteMany_loop_inv in Hm as (done & gone & _ & Hrec & Hnm & Hdocs & He).
  split_and!.
  - intros other order' Hnone. unfold DropCollection. by rewrite Hnone.
  - intros Hf. unfold DropCollection. rewrite Hcoll, Hloop, (Hnf Hf). done.
  - intros db'. unfold DropCollection. rewrite Hcoll, Hloop.
    destruct e as [err|]; [done|]. simpl. intros [= <-]. simpl.
    destruct He as [-> ->].
    assert (∀ k i, lookup_doc
                     {| storage := s'; collections := delete collName (collections db) |}
                     k i = if decide (k = collName) then None else lookup_doc db k i)
      as Hl.
    { intros k i. unfold lookup_doc. simpl. case_decide as Hd.
      - subst k. by rewrite lookup_delete_eq.
      - by rewrite lookup_delete_ne. }
    assert (log_consistent
              {| storage := s'; collections := delete collName (collections db) |})
      as Hc'.
    { intros k i. rewrite Hl. simpl.
      rewrite Hrec, (replay_spec_app_fmap _ (tombstone coll) order collName).
      2:{ intros k'. by rewrite <- Hname. }
      destruct (decide (k = collName)) as [->|Hne].
      - destruct (decide (collName = collName ∧ i ∈ order)) as [_|Hni]; [done|].
        rewrite <- Hc. unfold lookup_doc. rewrite Hcoll. simpl.
        destruct (documents coll !! i) eqn:Hi; [|done].
        destruct Hni. split; [done|]. apply Hr. by rewrite Hi.
      - rewrite decide_False by tauto. apply Hc. }
    split_and!; try done.
    + rewrite elem_of_ListCollections. simpl. rewrite lookup_delete_eq.
      by intros [? ?].
    + rewrite Hrec, length_app, length_fmap. unfold Count.
      by rewrite (ranges_over_length _ _ Hr).
    + intros k c0 Hlook. simpl in Hlook.
      apply lookup_delete_Some in Hlook as [_ Hlook].
      by apply Hn.
    + intros id. by rewrite Hl, decide_True.
    + intros other id Hne. by rewrite Hl, decide_False.
    + intros fs db1 [_ ->]%OpenDatabase_inr id.
      etrans; [apply (reopen_lookup _ fs collName id Hc')|].
      by rewrite Hl, decide_True.
  - intros err db'. unfold DropCollection. rewrite Hcoll, Hloop.
    destruct e as [err'|]; [|done]. simpl. intros [= <- <-].
    destruct He as (-> & id & rest & -> & ->). split_and!; [done| |].
    + rewrite elem_of_ListCollections. simpl. rewrite lookup_insert_eq. eauto.
    + exists id. unfold lookup_doc. simpl. rewrite lookup_insert_eq. simpl.
      rewrite Hcoll. simpl. split_and!.
      * set_solver.
      * rewrite Hdocs, decide_True; [done|]. set_solver.
      * intros key. rewrite Hdocs. case_decide; [by intros [? ?]|done].
Qed.

End ManyProps.

(** ** Filters, comparisons and sorting *)
Section QueryMore.
Context {NM : NumModel} {LM : LineModel}.

Lemma valuesMatch_refl (v : value) : valuesMatch v v = true.
Proof. apply valuesMatch_true. by right. Qed.

(** X15.  A filter made of fields of the document, with the document's
    values, matches it (so every document matches itself); removing
    conditions from a matching filter or adding fields to a matching
    document keeps the match; a filter that names a field the document
    lacks does not match; and a filter put together from two filters on
    different fields matches when both do. *)
Theorem X15_MatchesFilter_monotone (doc doc' filter filter' : Doc) :
  (filter ⊆ doc → MatchesFilter doc filter = true) ∧
  (MatchesFilter doc filter = true → filter' ⊆ filter →
   MatchesFilter doc filter' = true) ∧
  (MatchesFilter doc filter = true → doc ⊆ doc' →
   MatchesFilter doc' filter = true) ∧
  (∀ key, is_Some (filter !! key) → doc !! key = None →
          MatchesFilter doc filter = false) ∧
  (filter ##ₘ filter' →
   MatchesFilter doc (filter ∪ filter') =
   MatchesFilter doc filter && MatchesFilter doc filter').
Proof.
  split_and!.
  - intros Hsub. apply MatchesFilter_true. intros key fv Hk.
    exists fv. split; [|apply valuesMatch_refl].
    by apply (lookup_weaken filter doc).
  - rewrite !MatchesFilter_true. intros Hm Hsub key fv Hk.
    apply Hm. by apply (lookup_weaken filter' filter).
  - rewrite !MatchesFilter_true. intros Hm Hsub key fv Hk.
    destruct (Hm key fv Hk) as (dv & Hd & Hv). exists dv. split; [|done].
    by apply (lookup_weaken doc doc').
  - intros key [fv Hk] Hnone. apply not_true_is_false.
    rewrite MatchesFilter_true. intros Hm.
    destruct (Hm key fv Hk) as (dv & Hd & _). congruence.
  - intros Hdisj. apply eq_true_iff_eq.
    rewrite andb_true_iff, !MatchesFilter_true. split.
    + intros Hm. split; intros key fv Hk; apply Hm.
      * by apply lookup_union_Some_l.
      * by apply lookup_union_Some_r.
    + intros [H1 H2] key fv Hk.
      apply lookup_union_Some in Hk as [Hk|Hk]; [by apply H1|by apply H2|done].
Qed.

(** X16.  The filter of a fresh builder matches every document.  After
    [Where] the builder's filter asks the document for the given field
    with a matching value, and for what the builder asked of the other
    fields before; a second condition on the same field replaces the
    first, and conditions on different fields can be given in any
    order. *)
Theorem X16_QueryBuilder (q : QueryBuilder) (field field' : string)
    (val val' : value) (doc : Doc) :
  MatchesFilter doc (Build NewQuery) = true ∧
  Build (Where q field val) !! field = Some val ∧
  (MatchesFilter doc (Build (Where q field val)) = true ↔
   (∃ docValue, doc !! field = Some docValue ∧ valuesMatch docValue val = true) ∧
   MatchesFilter doc (delete field (Build q)) = true) ∧
  Where (Where q field val') field val = Where q field val ∧
  (field ≠ field' →
   Where (Where q field val) field' val' = Where (Where q field' val') field val).
Proof.
  unfold Build, Where, NewQuery; simpl. split_and!.
  - done.
  - apply lookup_insert_eq.
  - rewrite !MatchesFilter_true. split.
    + intros Hm. split.
      * apply Hm. apply lookup_insert_eq.
      * intros key fv [Hne Hk]%lookup_delete_Some. apply Hm.
        by rewrite lookup_insert_ne.
    + intros [Hf Hm] key fv Hk.
      apply lookup_insert_Some in Hk as [[<- <-]|[Hne Hk]]; [done|].
      apply Hm. by apply lookup_delete_Some.
  - by rewrite insert_insert_eq.
  - intros Hne. f_equal. by apply insert_insert_ne.
Qed.

(** X17.  [compareValues] is antisymmetric and gives 0 for a value and
    itself.  So for ["desc"] two documents are swapped exactly when for
    ascending order they would be swapped the other way round; and any
    direction other than ["desc"] is ascending. *)
Theorem X17_compareValues_antisymmetric (a b : value) :
  compareValues b a = (- compareValues a b)%Z ∧
  compareValues a a = 0%Z ∧
  (∀ field doc1 doc2,
     shouldSwap field "desc" doc1 doc2 = shouldSwap field "asc" doc2 doc1) ∧
  (∀ field direction doc1 doc2,
     direction ≠ "desc" →
     shouldSwap field direction doc1 doc2 = shouldSwap field "asc" doc1 doc2).
Proof.
  assert (∀ x y, compareValues y x = (- compareValues x y)%Z) as Hanti.
  { intros x y.
    pose proof (compareValues_pos_neg x y). pose proof (compareValues_pos_neg y x).
    pose proof (compareValues_neg_pos x y). pose proof (compareValues_neg_pos y x).
    destruct (compareValues_cases x y) as [?|[?|?]],
             (compareValues_cases y x) as [?|[?|?]]; lia. }
  split_and!.
  - apply Hanti.
  - pose proof (Hanti a a). lia.
  - intros field doc1 doc2. unfold shouldSwap.
    destruct (doc1 !! field) as [v1|], (doc2 !! field) as [v2|]; try done.
    simpl. rewrite (Hanti v1 v2), Z.gtb_ltb.
    destruct (Z.ltb_spec (compareValues v1 v2) 0),
             (Z.ltb_spec 0 (- compareValues v1 v2)); try done; lia.
  - intros field direction doc1 doc2 Hd. unfold shouldSwap.
    destruct (doc1 !! field) as [v1|], (doc2 !! field) as [v2|]; try done.
    apply String.eqb_neq in Hd. by rewrite Hd.
Qed.

Lemma carry_in_order (field direction : string) (k : nat) (c : Doc) (l : list Doc) :
  in_order field direction (c :: l) → carry field direction k c l = c :: l.
Proof.
  revert c l. induction k as [|k IH]; intros c [|e t] Hord; simpl; try done.
  apply Sorted_inv in Hord as [Hord Hhd].
  apply HdRel_inv in Hhd. rewrite Hhd. f_equal. by apply IH.
Qed.

Lemma sort_outer_fixed (field direction : string) (n passes : nat)
    (docs : list Doc) (i : nat) :
  in_order field direction docs →
  sort_outer field direction n docs i passes = docs.
Proof.
  intros Hord. revert i. induction passes as [|p IH]; intros i; simpl; [done|].
  rewrite sort_inner_0. destruct docs as [|c l]; [apply IH|].
  rewrite carry_in_order by done. apply IH.
Qed.

Lemma sort_outer_ext (field d1 d2 : string) (n passes : nat)
    (docs : list Doc) (i : nat) :
  (∀ a b, shouldSwap field d1 a b = shouldSwap field d2 a b) →
  sort_outer field d1 n docs i passes = sort_outer field d2 n docs i passes.
Proof.
  intros Hsw.
  assert (∀ l j, sort_step field d1 l j = sort_step field d2 l j) as Hstep.
  { intros l j. unfold sort_step.
    destruct (l !! j), (l !! (j + 1)); try done. by rewrite Hsw. }
  assert (∀ k l j, sort_inner field d1 l j k = sort_inner field d2 l j k) as Hin.
  { induction k as [|k IH]; intros l j; simpl; [done|]. by rewrite Hstep, IH. }
  revert docs i. induction passes as [|p IH]; intros docs i; simpl; [done|].
  by rewrite Hin, IH.
Qed.

(** X18.  [SortDocuments] keeps the number of documents, leaves a list
    alone in which no two neighbours are due for a swap (in particular a
    list none of whose documents has the field), and sorting a second
    time changes nothing.  Every direction other than ["desc"] gives the
    same result. *)
Theorem X18_SortDocuments_fixed (docs : list Doc) (field direction : string) :
  length (SortDocuments docs field direction) = length docs ∧
  (in_order field direction docs → SortDocuments docs field direction = docs) ∧
  ((∀ doc, doc ∈ docs → doc !! field = None) →
   SortDocuments docs field direction = docs) ∧
  SortDocuments (SortDocuments docs field direction) field direction =
    SortDocuments docs field direction ∧
  (∀ direction', direction ≠ "desc" → direction' ≠ "desc" →
     SortDocuments docs field direction = SortDocuments docs field direction').
Proof.
  assert (∀ l, in_order field direction l → SortDocuments l field direction = l)
    as Hfix.
  { intros l Hord. by apply sort_outer_fixed. }
  split_and!.
  - unfold SortDocuments. by rewrite sort_outer_perm.
  - apply Hfix.
  - intros Hnone. apply Hfix. unfold in_order.
    induction docs as [|d l IH]; [constructor|].
    constructor.
    + apply IH. intros doc Hin. apply Hnone. by right.
    + destruct l as [|e l]; constructor. unfold shouldSwap.
      rewrite (Hnone d) by by left. done.
  - apply Hfix, SortDocuments_in_order.
  - intros direction' Hd Hd'. unfold SortDocuments. apply sort_outer_ext.
    intros x y. unfold shouldSwap.
    apply String.eqb_neq in Hd, Hd'. by rewrite Hd, Hd'.
Qed.

End QueryMore.

(** ** Statistics and the registry *)
Section DatabaseMore.
Context {NM : NumModel} {LM : LineModel}.

Lemma stat_documents_empty (s : Storage) :
  stat_documents (Stats {| storage := s; collections := ∅ |}) = 0.
Proof. unfold Stats; simpl. by rewrite fmap_empty, map_fold_empty. Qed.

Lemma stat_documents_insert_new (s : Storage) (m : gmap string Collection)
    (k : string) (c : Collection) :
  m !! k = None →
  stat_documents (Stats {| storage := s; collections := <[k := c]> m |}) =
  stat_documents (Stats {| storage := s; collections := m |}) + Count c.
Proof.
  intros Hk. unfold Stats, Count; simpl. rewrite fmap_insert.
  apply (map_fold_insert_L (λ (_ : string) count totalDocs, totalDocs + count)).
  - intros. lia.
  - by rewrite lookup_fmap, Hk.
Qed.

Lemma stat_documents_replace (s : Storage) (m : gmap string Collection)
    (k : string) (c old : Collection) :
  m !! k = Some old →
  stat_documents (Stats {| storage := s; collections := <[k := c]> m |}) + Count old =
  stat_documents (Stats {| storage := s; collections := m |}) + Count c.
Proof.
  intros Hk.
  rewrite <- (insert_delete_id m k old Hk) at 2.
  rewrite <- (insert_delete_eq m k c).
  rewrite !stat_documents_insert_new by apply lookup_delete_eq. lia.
Qed.

Lemma stat_documents_enumerates (s : Storage) (m : gmap string Collection)
    (order : list (string * string)) :
  enumerates {| storage := s; collections := m |} order →
  stat_documents (Stats {| storage := s; collections := m |}) = length order.
Proof.
  revert order. induction m as [|k c m' Hk IH] using map_ind;
    intros order [Hnd Hen].
  - rewrite stat_documents_empty. destruct order as [|[n i] rest]; [done|].
    destruct (proj1 (Hen n i)) as [d Hd]; [by left|].
    unfold lookup_doc in Hd. simpl in Hd. by rewrite lookup_empty in Hd.
  - rewrite stat_documents_insert_new by done.
    set (P := λ p : string * string, p.1 = k).
    rewrite <- (filter_app_complement P order), length_app.
    rewrite (IH (filter (λ p, ¬ P p) order)).
    2:{ split; [by apply NoDup_filter|]. intros n i.
        rewrite list_elem_of_filter, Hen. unfold P, lookup_doc; simpl.
        destruct (decide (n = k)) as [->|Hne].
        - rewrite Hk. simpl. split; [tauto|by intros [? ?]].
        - rewrite lookup_insert_ne by done. tauto. }
    assert (ranges_over (documents c) (filter P order).*2) as Hr.
    { split.
      - apply NoDup_fmap_2_strong; [|by apply NoDup_filter].
        intros [n1 i1] [n2 i2] [H1 _]%list_elem_of_filter
               [H2 _]%list_elem_of_filter Heq.
        unfold P in *. simpl in *. congruence.
      - intros i. rewrite list_elem_of_fmap. split.
        + intros ([n i'] & -> & [Hp Hin]%list_elem_of_filter).
          unfold P in Hp. simpl in *. subst n. apply Hen in Hin.
          unfold lookup_doc in Hin. simpl in Hin.
          by rewrite lookup_insert_eq in Hin.
        + intros Hd. exists (k, i). split; [done|].
          apply list_elem_of_filter. split; [done|]. apply Hen.
          unfold lookup_doc. simpl. by rewrite lookup_insert_eq. }
    apply ranges_over_length in Hr. rewrite length_fmap in Hr.
    unfold Count. lia.
Qed.

Lemma length_collect_records (db : Database) (order : list (string * string)) :
  (∀ n i, (n, i) ∈ order → is_Some (lookup_doc db n i)) →
  length (collect_records db order) = length order.
Proof.
  unfold collect_records. induction order as [|[n i] rest IH]; intros Hall; [done|].
  destruct (Hall n i) as [d Hd]; [by left|].
  unfold lookup_doc in Hd. simpl.
  destruct (collections db !! n) as [coll|]; [|done]. simpl in *.
  rewrite Hd. simpl. f_equal. apply IH. intros n' i' Hin. apply Hall. by right.
Qed.

(** A database with one collection holding one document. *)
Lemma enumerates_one (s : Storage) (collName id : string) (c : Collection)
    (doc : Doc) :
  documents c = {[ id := doc ]} →
  enumerates {| storage := s; collections := {[ collName := c ]} |}
             [(collName, id)].
Proof.
  intros Hc. split; [apply NoDup_singleton|]. intros n i.
  rewrite list_elem_of_singleton. unfold lookup_doc; simpl. split.
  - intros [= -> ->]. rewrite lookup_singleton_eq. simpl.
    by rewrite Hc, lookup_singleton_eq.
  - intros [d Hd].
    destruct (decide (n = collName)) as [->|Hn].
    + rewrite lookup_singleton_eq in Hd. simpl in Hd. rewrite Hc in Hd.
      destruct (decide (i = id)) as [->|Hi]; [done|].
      by rewrite lookup_singleton_ne in Hd.
    + by rewrite lookup_singleton_ne in Hd.
Qed.

(** X19.  The statistics: the number of collections is the number of
    names listed, each once; a collection's entry is its number of
    documents; and the total is the number of live (collection, id)
    pairs, which is also the number of records a successful [Compact]
    leaves in the file. *)
Theorem X19_Stats_totals (db : Database) (order : list (string * string)) :
  enumerates db order →
  stat_collections (Stats db) = length (ListCollections db) ∧
  NoDup (ListCollections db) ∧
  (∀ collName, stat_collection_stats (Stats db) !! collName =
               Count <$> collections db !! collName) ∧
  stat_documents (Stats db) = length order ∧
  (∀ db', Compact db order = (None, db') →
          length (records (storage db')) = stat_documents (Stats db)).
Proof.
  intros Hen.
  assert (stat_documents (Stats db) = length order) as Htot.
  { destruct db as [s m]. by apply stat_documents_enumerates. }
  split_and!.
  - unfold Stats, ListCollections; simpl.
    by rewrite length_fmap, length_map_to_list.
  - apply NoDup_fst_map_to_list.
  - intros collName. unfold Stats; simpl. by rewrite lookup_fmap.
  - done.
  - intros db' Hc. unfold Compact, Storage_Compact, next_fault in Hc.
    assert (records (storage db') = collect_records db order) as ->.
    { destruct (faults (storage db)) as [|[] fs]; simpl in Hc;
        simplify_eq; done. }
    rewrite Htot. apply length_collect_records. intros n i. apply Hen.
Qed.

Lemma stat_documents_GetCollection (db : Database) (collName : string) :
  stat_documents (Stats (GetCollection db collName).2) = stat_documents (Stats db).
Proof.
  unfold GetCollection. destruct (collections db !! collName) eqn:Hc; [done|].
  etrans; [apply (stat_documents_insert_new (storage db) (collections db)
                    collName (NewCollection collName) Hc)|].
  unfold Count, Stats. simpl. rewrite map_size_empty. apply Nat.add_0_r.
Qed.

(** The total after a method has replaced the collection. *)
Lemma stat_documents_on_collection {R} (db : Database) (collName : string)
    (method : Collection → Storage → R * Collection * Storage)
    (res : R) (coll' : Collection) (s' : Storage) :
  method (GetCollection db collName).1 (storage db) = (res, coll', s') →
  stat_documents (Stats (on_collection db collName method).2)
    + Count (GetCollection db collName).1 =
  stat_documents (Stats db) + Count coll'.
Proof.
  intros Hm. rewrite on_collection_unfold, Hm. cbv zeta. cbn [fst snd].
  rewrite <- (stat_documents_GetCollection db collName).
  apply (stat_documents_replace s' (collections (GetCollection db collName).2)).
  apply GetCollection_registered.
Qed.

(** X20.  The total of the statistics follows the calls: a successful
    insert adds one document, a successful update leaves the total as it
    is, a successful deletion takes one away. *)
Theorem X20_Stats_follow_calls (db db' : Database) (c : call) :
  run_call db c = (None, db') →
  match c with
  | CallInsert collName _ _ =>
      stat_documents (Stats db') = S (stat_documents (Stats db)) ∧
      stat_collection_stats (Stats db') !! collName =
        Some (S (Count (GetCollection db collName).1))
  | CallUpdate collName _ _ =>
      stat_documents (Stats db') = stat_documents (Stats db) ∧
      stat_collection_stats (Stats db') !! collName =
        Some (Count (GetCollection db collName).1)
  | CallDelete collName _ =>
      S (stat_documents (Stats db')) = stat_documents (Stats db) ∧
      S (default 0 (stat_collection_stats (Stats db') !! collName)) =
        Count (GetCollection db collName).1
  end.
Proof.
  intros Hrun.
  destruct c as [collName uuid doc|collName id update|collName id]; simpl in Hrun.
  - destruct (Insert (GetCollection db collName).1 (storage db) uuid doc)
      as [[r c'] s'] eqn:Hm.
    pose proof (stat_documents_on_collection db collName
                  (λ coll s, Insert coll s uuid doc) _ _ _ Hm) as Htot.
    rewrite on_collection_unfold, Hm in Hrun. simpl in Hrun.
    rewrite on_collection_unfold, Hm in Htot. simpl in Htot.
    destruct r as [err|id]; [done|]. injection Hrun as <-.
    apply Insert_ok_inv in Hm as (_ & Hfree & -> & _).
    unfold Count in *. simpl in *.
    rewrite map_size_insert_None in Htot by done.
    split; [lia|]. unfold Stats; simpl.
    rewrite lookup_fmap, lookup_insert_eq. simpl.
    by rewrite map_size_insert_None.
  - destruct (Update (GetCollection db collName).1 (storage db) id update)
      as [[r c'] s'] eqn:Hm.
    pose proof (stat_documents_on_collection db collName
                  (λ coll s, Update coll s id update) _ _ _ Hm) as Htot.
    rewrite on_collection_unfold, Hm in Hrun. simpl in Hrun.
    rewrite on_collection_unfold, Hm in Htot. simpl in Htot.
    injection Hrun as -> <-.
    apply Update_ok_inv in Hm as (d & Hd & -> & _).
    unfold Count in *. simpl in *.
    rewrite map_size_insert_Some in Htot by done.
    split; [lia|]. unfold Stats; simpl.
    rewrite lookup_fmap, lookup_insert_eq. simpl.
    by rewrite map_size_insert_Some.
  - destruct (Delete (GetCollection db collName).1 (storage db) id)
      as [[r c'] s'] eqn:Hm.
    pose proof (stat_documents_on_collection db collName
                  (λ coll s, Delete coll s id) _ _ _ Hm) as Htot.
    rewrite on_collection_unfold, Hm in Hrun. simpl in Hrun.
    rewrite on_collection_unfold, Hm in Htot. simpl in Htot.
    injection Hrun as -> <-.
    apply Delete_ok_inv in Hm as ([d Hd] & -> & _).
    unfold Count in *. simpl in *.
    assert (is_Some (documents (GetCollection db collName).1 !! id)) as Hsz
      by by eexists.
    apply map_size_delete_Some in Hsz.
    pose proof (map_size_ne_0_lookup_2 _ _ (mk_is_Some _ _ Hd)) as Hnz.
    split; [lia|]. unfold Stats; simpl.
    rewrite lookup_fmap, lookup_insert_eq. simpl. lia.
Qed.


Lemma UpdateMany_loop_grows (filter update : Doc) (order : list string)
    (c : Collection) (s : Storage) (count : nat) :
  records s `prefix_of` records (UpdateMany_loop filter update order c s count).2.
Proof.
  revert c s count. induction order as [|id rest IH]; intros c s count; [done|].
  simpl. destruct (documents c !! id) as [doc|]; [|apply IH].
  destruct (MatchesFilter doc filter); [|apply IH].
  destruct (Append s _) as [e s1] eqn:Ha.
  destruct (Append_records _ _ _ _ Ha) as [[-> Hr]|[-> Hr]]; simpl.
  - etrans; [|apply IH]. rewrite Hr. by apply prefix_app_r.
  - by rewrite Hr.
Qed.

Lemma DeleteMany_loop_grows (ids : list string) (c : Collection) (s : Storage)
    (count : nat) :
  records s `prefix_of` records (DeleteMany_loop ids c s count).2.
Proof.
  destruct (DeleteMany_loop ids c s count) as [[[n e] c'] s'] eqn:Hm.
  apply DeleteMany_loop_inv in Hm as (done & _ & _ & Hr & _). simpl.
  rewrite Hr. by apply prefix_app_r.
Qed.

Lemma DropCollection_loop_grows (order : list string) (c : Collection)
    (s : Storage) :
  records s `prefix_of` records (DropCollection_loop order c s).2.
Proof.
  revert c s. induction order as [|id rest IH]; intros c s; [done|].
  simpl. destruct (documents c !! id) as [doc|] eqn:Hd; [|apply IH].
  unfold Delete. rewrite Hd.
  destruct (Append s _) as [e s1] eqn:Ha.
  destruct (Append_records _ _ _ _ Ha) as [[-> Hr]|[-> Hr]]; simpl.
  - etrans; [|apply IH]. rewrite Hr. by apply prefix_app_r.
  - by rewrite Hr.
Qed.

(** X22.  The log only grows: whatever a call does, and whether it
    succeeds or fails, the records that were in the file are still there,
    in their places, followed by what the call appended; [GetCollection]
    writes nothing.  (Only [Compact] replaces the file.) *)
Theorem X22_log_only_grows (db : Database) (collName : string) :
  (∀ c, records (storage db) `prefix_of` records (storage (run_call db c).2)) ∧
  (∀ filter update order,
     records (storage db) `prefix_of`
     records (storage (on_collection db collName
                         (UpdateMany filter update order)).2)) ∧
  (∀ filter order,
     records (storage db) `prefix_of`
     records (storage (on_collection db collName (DeleteMany filter order)).2)) ∧
  (∀ order,
     records (storage db) `prefix_of`
     records (storage (DropCollection db collName order).2)) ∧
  records (storage (GetCollection db collName).2) = records (storage db).
Proof.
  split_and!.
  - intros [n uuid doc|n id update|n id]; simpl.
    + rewrite on_collection_unfold. simpl. unfold Insert.
      destruct (match doc !! "id" with
                | Some idVal => (fmtV idVal, doc)
                | None => (uuid, <["id":=VStr uuid]> doc)
                end) as [i d].
      destruct (documents _ !! i); [done|].
      destruct (Append _ _) as [e s1] eqn:Ha.
      destruct (Append_records _ _ _ _ Ha) as [[-> Hr]|[-> Hr]]; simpl.
      * rewrite Hr. by apply prefix_app_r.
      * by rewrite Hr.
    + rewrite on_collection_unfold. simpl. unfold Update.
      destruct (documents _ !! id); [|done].
      destruct (Append _ _) as [e s1] eqn:Ha.
      destruct (Append_records _ _ _ _ Ha) as [[-> Hr]|[-> Hr]]; simpl.
      * rewrite Hr. by apply prefix_app_r.
      * by rewrite Hr.
    + rewrite on_collection_unfold. simpl. unfold Delete.
      destruct (documents _ !! id); [|done].
      destruct (Append _ _) as [e s1] eqn:Ha.
      destruct (Append_records _ _ _ _ Ha) as [[-> Hr]|[-> Hr]]; simpl.
      * rewrite Hr. by apply prefix_app_r.
      * by rewrite Hr.
  - intros filter update order. rewrite on_collection_unfold. simpl.
    apply UpdateMany_loop_grows.
  - intros filter order. rewrite on_collection_unfold. simpl.
    apply DeleteMany_loop_grows.
  - intros order. unfold DropCollection.
    destruct (collections db !! collName) as [coll|]; [|done].
    pose proof (DropCollection_loop_grows order coll (storage db)) as Hg.
    destruct (DropCollection_loop order coll (storage db)) as [[[err|] c'] s'];
      done.
  - by rewrite GetCollection_storage.
Qed.

End DatabaseMore.

(** ** Filter strings *)
Section FilterStringProps.
Context {NM : NumModel} {LM : LineModel}.

Lemma sapp_cons (a : ascii) (s t : string) : String a s +:+ t = String a (s +:+ t).
Proof. done. Qed.

Lemma sapp_nil_r (s : string) : s +:+ "" = s.
Proof. induction s as [|a s IH]; [done|]. by rewrite sapp_cons, IH. Qed.

Lemma sapp_assoc (a b c : string) : (a +:+ b) +:+ c = a +:+ (b +:+ c).
Proof. induction a as [|x a IH]; [done|]. by rewrite !sapp_cons, IH. Qed.

Lemma length_sapp (a b : string) :
  String.length (a +:+ b) = String.length a + String.length b.
Proof. induction a as [|x a IH]; [done|]. rewrite sapp_cons. simpl. by rewrite IH. Qed.

Lemma rev_app_sapp (s1 s2 : string) : String.rev_app s1 s2 = String.rev s1 +:+ s2.
Proof.
  revert s2. induction s1 as [|a s1 IH]; intros s2; [done|].
  unfold String.rev. simpl. rewrite (IH (String a s2)), (IH (String a "")).
  by rewrite sapp_assoc.
Qed.

Lemma srev_cons (a : ascii) (s : string) :
  String.rev (String a s) = String.rev s +:+ String a "".
Proof. unfold String.rev at 1. simpl. apply rev_app_sapp. Qed.

Lemma srev_app (a b : string) : String.rev (a +:+ b) = String.rev b +:+ String.rev a.
Proof.
  induction a as [|x a IH].
  - by rewrite sapp_nil_r.
  - by rewrite sapp_cons, !srev_cons, IH, sapp_assoc.
Qed.

Lemma srev_involutive (s : string) : String.rev (String.rev s) = s.
Proof.
  induction s as [|a s IH]; [done|]. by rewrite srev_cons, srev_app, IH.
Qed.

Lemma length_srev (s : string) : String.length (String.rev s) = String.length s.
Proof.
  induction s as [|a s IH]; [done|].
  rewrite srev_cons, length_sapp, IH. simpl. lia.
Qed.

(** *** Prefixes *)
Lemma strip_prefix_sapp (p s : string) : strip_prefix p (p +:+ s) = Some s.
Proof.
  induction p as [|a p IH]; [done|]. rewrite sapp_cons. simpl.
  by rewrite Ascii.eqb_refl.
Qed.

Lemma strip_prefix_Some (p s rest : string) :
  strip_prefix p s = Some rest ↔ s = p +:+ rest.
Proof.
  split; [|intros ->; apply strip_prefix_sapp].
  revert s. induction p as [|a p IH]; intros s; simpl.
  - by intros [= ->].
  - destruct s as [|b s]; [done|].
    destruct (Ascii.eqb_spec a b) as [->|]; [|done].
    intros H%IH. by rewrite H.
Qed.

Lemma strip_one_Some (patterns : list string) (s rest : string) :
  strip_one patterns s = Some rest → ∃ p, p ∈ patterns ∧ s = p +:+ rest.
Proof.
  unfold strip_one. induction patterns as [|p ps IH]; [done|]. simpl.
  destruct (strip_prefix p s) as [r|] eqn:Hp; simpl.
  - intros [= ->]. exists p. split; [by left|]. by apply strip_prefix_Some.
  - intros (q & Hq & ->)%IH. exists q. split; [by right|done].
Qed.

Lemma strip_one_None (patterns : list string) (s : string) :
  strip_one patterns s = None ↔ ∀ p, p ∈ patterns → strip_prefix p s = None.
Proof.
  unfold strip_one. induction patterns as [|p ps IH]; simpl.
  - split; [|done]. by intros _ p ?%elem_of_nil.
  - destruct (strip_prefix p s) as [r|] eqn:Hp; simpl.
    + split; [done|]. intros H. specialize (H p). rewrite Hp in H.
      by apply H; left.
    + rewrite IH. split.
      * intros H q [->|Hq]%elem_of_cons; [done|by apply H].
      * intros H q Hq. apply H. by right.
Qed.

(** The loop stops where no pattern is left at the start, and the fuel
    of one step per byte is enough for that. *)
Lemma trim_start_done (patterns : list string) (fuel : nat) (s : string) :
  "" ∉ patterns → String.length s ≤ fuel →
  strip_one patterns (trim_start patterns fuel s) = None.
Proof.
  intros Hne. revert s. induction fuel as [|fuel IH]; intros s Hlen.
  - destruct s; [|simpl in Hlen; lia]. simpl.
    apply strip_one_None. intros [|a p] Hp; [done|done].
  - simpl. destruct (strip_one patterns s) as [rest|] eqn:Hs; [|done].
    apply IH. apply strip_one_Some in Hs as (p & Hp & ->).
    rewrite length_sapp in Hlen. destruct p; [done|]. simpl in Hlen. lia.
Qed.

Lemma trim_start_None (patterns : list string) (fuel : nat) (s : string) :
  strip_one patterns s = None → trim_start patterns fuel s = s.
Proof. intros H. destruct fuel; simpl; [done|]. by rewrite H. Qed.

Lemma trim_start_fuel (patterns : list string) (f1 f2 : nat) (s : string) :
  "" ∉ patterns → String.length s ≤ f1 → String.length s ≤ f2 →
  trim_start patterns f1 s = trim_start patterns f2 s.
Proof.
  intros Hne. revert f2 s. induction f1 as [|f1 IH]; intros f2 s H1 H2.
  - destruct s; [|simpl in H1; lia]. simpl. symmetry. apply trim_start_None.
    apply strip_one_None. by intros [|a p] Hp.
  - destruct f2 as [|f2].
    + destruct s; [|simpl in H2; lia]. apply trim_start_None.
      apply strip_one_None. by intros [|a p] Hp.
    + simpl. destruct (strip_one patterns s) as [rest|] eqn:Hs; [|done].
      apply strip_one_Some in Hs as (p & Hp & ->).
      rewrite length_sapp in H1, H2. destruct p; [done|]. simpl in *.
      apply IH; lia.
Qed.

(** What is dropped is a prefix. *)
Lemma trim_start_suffix (patterns : list string) (fuel : nat) (s : string) :
  ∃ w, s = w +:+ trim_start patterns fuel s.
Proof.
  revert s. induction fuel as [|fuel IH]; intros s; simpl; [by exists ""|].
  destruct (strip_one patterns s) as [rest|] eqn:Hs; [|by exists ""].
  apply strip_one_Some in Hs as (p & Hp & ->).
  destruct (IH rest) as [w Hw]. exists (p +:+ w).
  by rewrite sapp_assoc, <- Hw.
Qed.

Lemma space_runes_nonempty : "" ∉ space_runes.
Proof. apply (bool_decide_unpack _). by vm_compute. Qed.

Lemma rev_space_runes_nonempty : "" ∉ String.rev <$> space_runes.
Proof. apply (bool_decide_unpack _). by vm_compute. Qed.

(** *** [TrimSpace] *)
Lemma TrimLeft_done (s : string) : strip_one space_runes (TrimLeft s) = None.
Proof. apply trim_start_done; [apply space_runes_nonempty|done]. Qed.

Lemma TrimRight_done (s : string) :
  strip_one (String.rev <$> space_runes) (String.rev (TrimRight s)) = None.
Proof.
  unfold TrimRight. rewrite srev_involutive.
  apply trim_start_done; [apply rev_space_runes_nonempty|].
  by rewrite length_srev.
Qed.

Lemma TrimLeft_fixed (s : string) :
  strip_one space_runes s = None → TrimLeft s = s.
Proof. apply trim_start_None. Qed.

Lemma TrimRight_fixed (s : string) :
  strip_one (String.rev <$> space_runes) (String.rev s) = None → TrimRight s = s.
Proof.
  intros H. unfold TrimRight. rewrite trim_start_None by done.
  apply srev_involutive.
Qed.

Lemma TrimLeft_suffix (s : string) : ∃ w, s = w +:+ TrimLeft s.
Proof. apply trim_start_suffix. Qed.

Lemma TrimRight_prefix (s : string) : ∃ z, s = TrimRight s +:+ z.
Proof.
  unfold TrimRight.
  destruct (trim_start_suffix (String.rev <$> space_runes) (String.length s)
              (String.rev s)) as [w Hw].
  exists (String.rev w).
  by rewrite <- srev_app, <- Hw, srev_involutive.
Qed.

Lemma strip_one_prefix_None (patterns : list string) (x z : string) :
  strip_one patterns (x +:+ z) = None → strip_one patterns x = None.
Proof.
  rewrite !strip_one_None. intros H p Hp.
  destruct (strip_prefix p x) as [y|] eqn:Hy; [|done].
  apply strip_prefix_Some in Hy as ->.
  specialize (H p Hp). by rewrite sapp_assoc, strip_prefix_sapp in H.
Qed.

Lemma TrimSpace_idemp (s : string) : TrimSpace (TrimSpace s) = TrimSpace s.
Proof.
  unfold TrimSpace. set (y := TrimLeft s).
  assert (TrimLeft (TrimRight y) = TrimRight y) as ->.
  { apply TrimLeft_fixed. destruct (TrimRight_prefix y) as [z Hz].
    apply (strip_one_prefix_None _ _ z). rewrite <- Hz. apply TrimLeft_done. }
  apply TrimRight_fixed, TrimRight_done.
Qed.

(** *** Bytes and separators *)
Lemma has_byte_sapp (c : ascii) (a b : string) :
  has_byte c (a +:+ b) = has_byte c a || has_byte c b.
Proof.
  induction a as [|x a IH]; [done|]. rewrite sapp_cons. simpl.
  by rewrite IH, orb_assoc.
Qed.

Lemma Split_nonempty (s : string) (sep : ascii) : Split s sep ≠ [].
Proof.
  destruct s as [|a s]; simpl; [done|].
  destruct (Ascii.eqb a sep); [done|]. by destruct (Split s sep).
Qed.

Lemma Split_sapp (s t : string) (sep : ascii) :
  Split (s +:+ String sep t) sep = Split s sep ++ Split t sep.
Proof.
  induction s as [|a s IH].
  - simpl. change ("" +:+ String sep t) with (String sep t). simpl.
    by rewrite Ascii.eqb_refl.
  - rewrite sapp_cons. simpl. destruct (Ascii.eqb a sep).
    + by rewrite IH.
    + rewrite IH. pose proof (Split_nonempty s sep).
      by destruct (Split s sep).
Qed.

Lemma Split_no_sep (s : string) (sep : ascii) :
  has_byte sep s = false → Split s sep = [s].
Proof.
  induction s as [|a s IH]; [done|]. simpl.
  intros [Ha Hs]%orb_false_elim. rewrite Ha. by rewrite IH.
Qed.

Lemma SplitN2_no_sep (s : string) (sep : ascii) :
  has_byte sep s = false → SplitN2 s sep = [s].
Proof.
  induction s as [|a s IH]; [done|]. simpl.
  intros [Ha Hs]%orb_false_elim. rewrite Ha. by rewrite IH.
Qed.

Lemma SplitN2_cut (a b : string) (sep : ascii) :
  has_byte sep a = false → SplitN2 (a +:+ String sep b) sep = [a; b].
Proof.
  induction a as [|x a IH].
  - intros _. change ("" +:+ String sep b) with (String sep b). simpl.
    by rewrite Ascii.eqb_refl.
  - simpl. intros [Ha Hs]%orb_false_elim. rewrite ?sapp_cons. simpl.
    by rewrite Ha, IH.
Qed.

(** *** The conditions of a filter string *)
Lemma ParseFilterString_foldl (s : string) :
  ParseFilterString s = foldl ParseFilterString_part ∅ (Split s ",").
Proof. unfold ParseFilterString. case_decide as Hs; [by subst|done]. Qed.

Lemma ParseFilterString_part_union (filter : Doc) (part : string) :
  ParseFilterString_part filter part = ParseFilterString_part ∅ part ∪ filter.
Proof.
  unfold ParseFilterString_part. case_decide; [by rewrite (left_id_L ∅ (∪))|].
  destruct (SplitN2 _ _) as [|f [|v [|? ?]]]; try by rewrite (left_id_L ∅ (∪)).
  by rewrite <- insert_union_l, (left_id_L ∅ (∪)).
Qed.

Lemma foldl_part_union (parts : list string) (filter : Doc) :
  foldl ParseFilterString_part filter parts =
  foldl ParseFilterString_part ∅ parts ∪ filter.
Proof.
  revert filter. induction parts as [|part parts IH]; intros filter; simpl.
  - by rewrite (left_id_L ∅ (∪)).
  - rewrite (IH (ParseFilterString_part filter part)),
            (IH (ParseFilterString_part ∅ part)).
    by rewrite (ParseFilterString_part_union filter), (assoc_L (∪)).
Qed.

Lemma foldl_part_trimmed (parts : list string) (filter : Doc) :
  map_Forall trimmed_entry filter →
  map_Forall trimmed_entry (foldl ParseFilterString_part filter parts).
Proof.
  revert filter. induction parts as [|part parts IH]; intros filter Hf; [done|].
  simpl. apply IH. unfold ParseFilterString_part. case_decide; [done|].
  destruct (SplitN2 _ _) as [|f [|v [|? ?]]]; try done.
  apply map_Forall_insert_2; [|done]. split; [apply TrimSpace_idemp|].
  eexists. split; [done|]. apply TrimSpace_idemp.
Qed.

(** X23.  [ParseFilterString]: the empty string gives the empty filter;
    the conditions of [s,t] are those of [s] and those of [t], where [t]
    wins on a field that both name; a string without [,] and [=] gives no
    condition; every value is a string, and fields and values have no
    white space left at either end, [TrimSpace] being idempotent. *)
Theorem X23_ParseFilterString_conditions (s t : string) :
  ParseFilterString "" = ∅ ∧
  ParseFilterString (s +:+ "," +:+ t) = ParseFilterString t ∪ ParseFilterString s ∧
  (has_byte "," s = false → has_byte "=" s = false → ParseFilterString s = ∅) ∧
  (∀ key v, ParseFilterString s !! key = Some v →
            TrimSpace key = key ∧ ∃ str, v = VStr str ∧ TrimSpace str = str) ∧
  TrimSpace (TrimSpace s) = TrimSpace s.
Proof.
  split_and!.
  - done.
  - rewrite !ParseFilterString_foldl.
    change (s +:+ "," +:+ t) with (s +:+ String "," t).
    by rewrite Split_sapp, foldl_app, foldl_part_union.
  - intros Hc He. rewrite ParseFilterString_foldl, Split_no_sep by done. simpl.
    unfold ParseFilterString_part. case_decide; [done|].
    rewrite SplitN2_no_sep; [done|].
    destruct (TrimLeft_suffix s) as [w Hw].
    destruct (TrimRight_prefix (TrimLeft s)) as [z Hz].
    rewrite Hw, Hz, !has_byte_sapp in He.
    apply orb_false_elim in He as [_ He]. by apply orb_false_elim in He as [He _].
  - intros key v Hk.
    apply (foldl_part_trimmed (Split s ",") ∅ (map_Forall_empty _) key v).
    by rewrite <- ParseFilterString_foldl.
  - apply TrimSpace_idemp.
Qed.

(** *** White space around fields and values *)
Lemma strip_one_rune (r s : string) :
  r ∈ space_runes → strip_one space_runes (r +:+ s) = Some s.
Proof.
  intros Hr. unfold space_runes in Hr. simpl in Hr.
  repeat (apply elem_of_cons in Hr as [->|Hr]; [reflexivity|]).
  by apply elem_of_nil in Hr.
Qed.

Lemma strip_one_rev_rune (r s : string) :
  r ∈ space_runes →
  strip_one (String.rev <$> space_runes) (String.rev r +:+ s) = Some s.
Proof.
  intros Hr. unfold space_runes in Hr. simpl in Hr.
  repeat (apply elem_of_cons in Hr as [->|Hr]; [reflexivity|]).
  by apply elem_of_nil in Hr.
Qed.

Lemma TrimLeft_rune (r s : string) :
  r ∈ space_runes → TrimLeft (r +:+ s) = TrimLeft s.
Proof.
  intros Hr. unfold TrimLeft. rewrite length_sapp.
  destruct r as [|a r]; [by destruct space_runes_nonempty|].
  simpl String.length. simpl trim_start. rewrite (strip_one_rune _ _ Hr).
  apply trim_start_fuel; [apply space_runes_nonempty|lia|done].
Qed.

Lemma TrimLeft_spaces (w s : string) : spaces w → TrimLeft (w +:+ s) = TrimLeft s.
Proof.
  induction 1 as [|r w Hr Hw IH]; [done|].
  by rewrite sapp_assoc, TrimLeft_rune.
Qed.

Lemma TrimRight_rune (t r : string) :
  r ∈ space_runes → TrimRight (t +:+ r) = TrimRight t.
Proof.
  intros Hr. unfold TrimRight. rewrite srev_app, length_sapp. f_equal.
  destruct r as [|a r]; [by destruct space_runes_nonempty|].
  rewrite Nat.add_comm. simpl String.length. simpl trim_start.
  rewrite (strip_one_rev_rune _ _ Hr).
  apply trim_start_fuel; [apply rev_space_runes_nonempty|..];
    rewrite length_srev; lia.
Qed.

Lemma TrimRight_spaces (t w : string) : spaces w → TrimRight (t +:+ w) = TrimRight t.
Proof.
  intros Hw. revert t. induction Hw as [|r w Hr Hw IH]; intros t.
  - by rewrite sapp_nil_r.
  - by rewrite <- sapp_assoc, IH, TrimRight_rune.
Qed.

Lemma spaces_no_byte (c : ascii) (w : string) :
  forallb (λ r, negb (has_byte c r)) space_runes = true →
  spaces w → has_byte c w = false.
Proof.
  intros Hall. induction 1 as [|r w Hr Hw IH]; [done|].
  rewrite has_byte_sapp, IH, orb_false_r.
  rewrite List.forallb_forall in Hall. apply negb_true_iff, Hall.
  by apply list_elem_of_In.
Qed.

Lemma differ_strip_prefix (p s rest : string) :
  differ p s = true → strip_prefix p (s +:+ rest) = None.
Proof.
  revert s. induction p as [|a p IH]; intros [|b s]; simpl; try done.
  rewrite ?sapp_cons. destruct (Ascii.eqb a b); [apply IH|done].
Qed.

Lemma tight_leading (x rest : string) :
  tight x = true → strip_one space_runes (x +:+ rest) = None.
Proof.
  unfold tight. intros [Hl _]%andb_true_iff. apply strip_one_None.
  intros p Hp. apply differ_strip_prefix.
  rewrite List.forallb_forall in Hl. by apply Hl, list_elem_of_In.
Qed.

Lemma tight_trailing (pre x : string) :
  tight x = true →
  strip_one (String.rev <$> space_runes) (String.rev (pre +:+ x)) = None.
Proof.
  unfold tight. intros [_ Ht]%andb_true_iff. apply strip_one_None.
  intros p (r & -> & Hr)%list_elem_of_fmap. rewrite srev_app.
  apply differ_strip_prefix.
  rewrite List.forallb_forall in Ht. by apply Ht, list_elem_of_In.
Qed.

(** White space around a string that has none at its own ends. *)
Lemma TrimSpace_pad (a t b : string) :
  spaces a → spaces b →
  strip_one space_runes (t +:+ b) = None →
  strip_one (String.rev <$> space_runes) (String.rev t) = None →
  TrimSpace (a +:+ t +:+ b) = t.
Proof.
  intros Ha Hb Hl Hr. unfold TrimSpace.
  rewrite (TrimLeft_spaces _ _ Ha), (TrimLeft_fixed _ Hl).
  rewrite (TrimRight_spaces _ _ Hb). by apply TrimRight_fixed.
Qed.

Lemma ParseFilterString_single (part : string) :
  has_byte "," part = false →
  ParseFilterString part = ParseFilterString_part ∅ part.
Proof. intros Hc. by rewrite ParseFilterString_foldl, Split_no_sep. Qed.

(** The loop body on a condition with white space around its parts. *)
Lemma ParseFilterString_part_padded (filter : Doc) (w1 w2 w3 w4 k v : string) :
  spaces w1 → spaces w2 → spaces w3 → spaces w4 →
  tight k = true → tight v = true → has_byte "=" k = false →
  ParseFilterString_part filter
    (w1 +:+ k +:+ w2 +:+ "=" +:+ w3 +:+ v +:+ w4) = <[ k := VStr v ]> filter.
Proof.
  intros H1 H2 H3 H4 Hk Hv Hke.
  unfold ParseFilterString_part.
  set (t := k +:+ w2 +:+ "=" +:+ w3 +:+ v).
  assert (TrimSpace (w1 +:+ k +:+ w2 +:+ "=" +:+ w3 +:+ v +:+ w4) = t) as ->.
  { replace (w1 +:+ k +:+ w2 +:+ "=" +:+ w3 +:+ v +:+ w4)
      with (w1 +:+ t +:+ w4) by (unfold t; by rewrite !sapp_assoc).
    apply TrimSpace_pad; try done.
    - unfold t. rewrite sapp_assoc. by apply tight_leading.
    - unfold t.
      replace (k +:+ w2 +:+ "=" +:+ w3 +:+ v)
        with ((k +:+ w2 +:+ "=" +:+ w3) +:+ v) by (by rewrite !sapp_assoc).
      by apply tight_trailing. }
  assert (t ≠ "") as Hne.
  { unfold t. destruct k as [|a k]; [done|]. by rewrite sapp_cons. }
  rewrite decide_False by done.
  assert (SplitN2 t "=" = [k +:+ w2; w3 +:+ v]) as ->.
  { unfold t. replace (k +:+ w2 +:+ "=" +:+ w3 +:+ v)
      with ((k +:+ w2) +:+ String "=" (w3 +:+ v)) by (by rewrite !sapp_assoc).
    apply SplitN2_cut. rewrite has_byte_sapp, Hke. by apply spaces_no_byte. }
  assert (TrimSpace (k +:+ w2) = k) as ->.
  { apply (TrimSpace_pad "" k w2); [constructor|done|by apply tight_leading|].
    apply (tight_trailing "" k Hk). }
  assert (TrimSpace (w3 +:+ v) = v) as ->.
  { rewrite <- (sapp_nil_r v) at 1.
    apply (TrimSpace_pad w3 v ""); [done|constructor| |].
    - by apply tight_leading.
    - apply (tight_trailing "" v Hv). }
  done.
Qed.

(** X24.  White space around a condition, around its field and around
    its value is ignored: a string made of a field, [=] and a value, with
    runs of white space runes anywhere around them, gives the filter with
    that one condition, the value being the string as written (a number
    is not converted).  The field and the value are any strings without
    white space at their own ends, the field without [=] and both without
    [,]. *)
Theorem X24_ParseFilterString_spaces (w1 w2 w3 w4 k v : string) :
  spaces w1 → spaces w2 → spaces w3 → spaces w4 →
  tight k = true → tight v = true →
  has_byte "," k = false → has_byte "=" k = false → has_byte "," v = false →
  TrimSpace (w1 +:+ k +:+ w2) = k ∧
  ParseFilterString (w1 +:+ k +:+ w2 +:+ "=" +:+ w3 +:+ v +:+ w4) =
    {[ k := VStr v ]}.
Proof.
  intros H1 H2 H3 H4 Hk Hv Hkc Hke Hvc. split.
  - apply TrimSpace_pad; [done..|by apply tight_leading|].
    apply (tight_trailing "" k Hk).
  - assert (∀ w, spaces w → has_byte "," w = false) as Hcomma
      by (intros w; by apply spaces_no_byte).
    rewrite ParseFilterString_single.
    + rewrite ParseFilterString_part_padded by done. apply insert_empty.
    + rewrite !has_byte_sapp, Hkc, Hvc, (Hcomma w1), (Hcomma w2), (Hcomma w3),
        (Hcomma w4) by done. done.
Qed.

Lemma valuesMatch_string (docValue : value) (v : string) :
  valuesMatch docValue (VStr v) = true ↔ fmtV docValue = v.
Proof.
  rewrite valuesMatch_true. simpl. split; [|by right].
  intros [Heq|Hfmt]; [|done].
  destruct docValue; simpl in Heq; try done.
  by apply String.eqb_eq in Heq.
Qed.

(** X25.  A condition parsed from a string holds of exactly the documents
    whose field prints as the value written: the string [age=30] matches
    the number 30 as well as the string ["30"]. *)
Theorem X25_parsed_condition_matches (doc : Doc) (k v : string) :
  tight k = true → tight v = true →
  has_byte "," k = false → has_byte "=" k = false → has_byte "," v = false →
  (MatchesFilter doc (ParseFilterString (k +:+ "=" +:+ v)) = true ↔
   ∃ docValue, doc !! k = Some docValue ∧ fmtV docValue = v).
Proof.
  intros Hk Hv Hkc Hke Hvc.
  pose proof (ParseFilterString_part_padded ∅ "" "" "" "" k v
                spaces_nil spaces_nil spaces_nil spaces_nil Hk Hv Hke) as Hp.
  change ("" +:+ k +:+ "" +:+ "=" +:+ "" +:+ v +:+ "")
    with (k +:+ "=" +:+ v +:+ "") in Hp.
  rewrite sapp_nil_r, insert_empty in Hp.
  rewrite ParseFilterString_single, Hp
    by (by rewrite !has_byte_sapp, Hkc, Hvc).
  split.
  - intros H. pose proof (proj1 (MatchesFilter_true _ _) H) as Hall.
    destruct (Hall k (VStr v)) as (dv & Hd & Hm); [apply lookup_singleton_eq|].
    exists dv. split; [done|]. by apply valuesMatch_string.
  - intros (dv & Hd & Hf). apply MatchesFilter_true.
    intros key fv [<- <-]%lookup_singleton_Some.
    exists dv. split; [done|]. by apply valuesMatch_string.
Qed.

End FilterStringProps.



(** ** What is in memory is in the log *)
Section WithinProps.
Context {NM : NumModel} {LM : LineModel}.















End WithinProps.

(** * Concrete runs *)
Module Examples.
Import IntNum IntLines Samples MoreSamples.

Example scenario_runs :
  (λ db, map_to_list (documents <$> collections db))
    <$> run_calls (opened empty_file) scenario
  = Some [("users", {[ "u1" := ann30 ]})].
Proof. reflexivity. Qed.

Example number_matches_its_text :
  valuesMatch (VNum 25%Z) (VStr "25") = true ∧
  deepEqual (VNum 25%Z) (VStr "25") = false.
Proof. by vm_compute. Qed.

Example filter_conjunction :
  let doc : Doc := <["name" := VStr "Alice"]> {[ "role" := VStr "admin" ]} in
  MatchesFilter doc (<["name" := VStr "Alice"]> {[ "role" := VStr "admin" ]}) = true ∧
  MatchesFilter doc (<["name" := VStr "Alice"]> {[ "role" := VStr "user" ]}) = false.
Proof. by vm_compute. Qed.

Example line_lengths :
  encoded_length ann_record = 72%N ∧
  encoded_length {| rec_Collection := "users"; rec_ID := "u1"; rec_Doc := None |}
    = 43%N ∧
  encoded_length long_record = 65598%N ∧
  fits ann_record = true ∧ fits long_record = false.
Proof. by vm_compute. Qed.

Lemma new_database : OpenDatabase empty_file = inr (opened empty_file).
Proof. reflexivity. Qed.



(** A deletion and an update whose append fails. *)
Lemma C2_witness :
  (∃ err c' s',
     Delete (users {[ "u1" := ann ]}) (failing_disk []) "u1" = (Some err, c', s') ∧
     records s' = [] ∧ FindByID c' "u1" = None) ∧
  (∃ err c' s',
     Update (users {[ "u1" := ann ]}) (failing_disk []) "u1"
            age30 = (Some err, c', s') ∧
     records s' = [] ∧
     FindByID c' "u1" = Some (<["id" := VStr "u1"]> (age30 ∪ ann))).
Proof.
  assert (documents (users {[ "u1" := ann ]}) !! "u1" = Some ann) as Hdoc
    by reflexivity.
  assert (faults (failing_disk []) = [true]) as Hf by reflexivity.
  destruct (C2_mutation_precedes_append _ _ _ _ age30 _ Hdoc Hf) as (Hd & Hu & _).
  exact (conj Hd Hu).
Defined.

(** A document inserted with the number 5 as its id. *)
Lemma C3_witness : id_prints_as "5" numbered.
Proof.
  apply (proj1 C3_identifier_prints_as_key after_numbered "users"
           (users {[ "5" := numbered ]}) "5" numbered).
  - apply reach_call, (reach_new []). exact new_database.
  - reflexivity.
  - reflexivity.
Defined.

(** The claim as stated fails on it: the field is the number 5, the key
    is the string "5". *)
Lemma C3_counterexample_numeric_id :
  ¬ (∀ db, reachable db →
       ∀ collName coll, collections db !! collName = Some coll → keyed_by_id coll).
Proof.
  intros H.
  assert (reachable after_numbered) as Hr
    by (apply reach_call, (reach_new []); exact new_database).
  assert (collections after_numbered !! "users" = Some (users {[ "5" := numbered ]}))
    as Hc by reflexivity.
  assert (documents (users {[ "5" := numbered ]}) !! "5" = Some numbered)
    as Hd by reflexivity.
  pose proof (H _ Hr _ _ Hc _ _ Hd) as Hid. unfold id_is in Hid.
  assert (numbered !! "id" = Some (VNum 5%Z)) as Hn by reflexivity.
  congruence.
Qed.




(** An insert on a disk that refuses the write. *)
Lemma C5_witness :
  ∃ err c' s',
    Insert (users ∅) (failing_disk []) "G1" bob =
      (inl (ErrWrap "failed to persist document" err), c', s') ∧
    c' = users ∅ ∧ documents c' = ∅ ∧ FindByID c' "G1" = None ∧ records s' = [].
Proof.
  exact (C5_Insert_rollback (users ∅) (failing_disk []) "G1" bob [] eq_refl eq_refl).
Defined.

(** A second insert of Ann. *)
Lemma C6_witness :
  Insert (users {[ "u1" := ann ]}) empty_file "G1" ann =
    (inl (ErrDuplicateKey "u1"), users {[ "u1" := ann ]}, empty_file) ∧
  FindByID (users {[ "u1" := ann ]}) "u1" = Some ann.
Proof.
  exact (C6_Insert_duplicate (users {[ "u1" := ann ]}) empty_file "G1" ann ann eq_refl).
Defined.

(** The filter of the specification, visited in the opposite order. *)
Lemma C7_witness :
  let doc : Doc := <["name" := VStr "Alice"]> {[ "role" := VStr "admin" ]} in
  let filter : Doc := <["name" := VStr "Alice"]> {[ "role" := VStr "user" ]} in
  MatchesFilter_loop doc (reverse (map_to_list filter)) = MatchesFilter doc filter.
Proof.
  intros doc filter.
  apply (proj2 (proj2 (C7_MatchesFilter_conjunction doc filter))).
  apply reverse_Permutation.
Defined.

(** Three documents sorted by age, as numbers: by their texts 100 would
    come before 9. *)
Lemma C9_witness :
  SortDocuments [aged 10; aged 9; aged 100] "age" "asc"
    = [aged 9; aged 10; aged 100] ∧
  SortDocuments [aged 10; aged 9; aged 100] "age" "desc"
    = [aged 100; aged 10; aged 9] ∧
  ∀ i j doc1 doc2, i < j →
    SortDocuments [aged 10; aged 9; aged 100] "age" "asc" !! i = Some doc1 →
    SortDocuments [aged 10; aged 9; aged 100] "age" "asc" !! j = Some doc2 →
    in_direction "age" "asc" doc1 doc2.
Proof.
  split; [reflexivity|]. split; [reflexivity|].
  apply (proj1 (proj2 (proj2 (proj2
           (C9_SortDocuments [aged 10; aged 9; aged 100] "age" "asc"))))).
  - intros x y z. simpl. rewrite !Z.ltb_ge. lia.
  - intros doc Hin.
    repeat (apply elem_of_cons in Hin as [->|Hin]; [by eexists|]).
    by apply not_elem_of_nil in Hin.
Defined.

(** Texts of digits are compared as texts, and a number with a text by
    their texts. *)
Example digits_as_text :
  compareValues (VStr "10") (VStr "9") = (-1)%Z ∧
  compareValues ten (VStr "9") = (-1)%Z ∧
  compareValues (VStr "9") nine = 0%Z ∧
  compareValues ten nine = 1%Z.
Proof. by vm_compute. Qed.

(** The claim as stated fails on a list that mixes numbers and texts:
    every document has the field, the list stays as it is, and 10 stands
    before 9. *)
Lemma C9_counterexample_mixed :
  ¬ (∀ (docs : list Doc) (field direction : string),
       (∀ doc, doc ∈ docs → is_Some (doc !! field)) →
       ∀ i j doc1 doc2, i < j →
         SortDocuments docs field direction !! i = Some doc1 →
         SortDocuments docs field direction !! j = Some doc2 →
         in_direction field direction doc1 doc2).
Proof.
  intros H.
  assert (SortDocuments mixed "v" "asc" = mixed) as Hs by reflexivity.
  assert (∀ doc, doc ∈ mixed → is_Some (doc !! "v")) as Hall.
  { intros doc Hin. unfold mixed in Hin.
    repeat (apply elem_of_cons in Hin as [->|Hin]; [by eexists|]).
    by apply not_elem_of_nil in Hin. }
  destruct (H mixed "v" "asc" Hall 0 2 (valued ten) (valued nine))
    as (val1 & val2 & H1 & H2 & Hle); [lia|by rewrite Hs..|].
  assert (val1 = ten) as -> by (by injection H1).
  assert (val2 = nine) as -> by (by injection H2).
  by vm_compute in Hle.
Qed.


End Examples.

(** * Concrete runs of the further properties *)
Module Runs.
Import IntNum IntLines Samples MoreSamples.

Lemma ann_alone_order : ranges_over (documents ann_alone) ["u1"].
Proof. apply ranges_over_singleton. Qed.

Lemma ann_db_users : collections ann_db !! "users" = Some ann_alone.
Proof. reflexivity. Qed.


Lemma space_is_space : spaces " ".
Proof.
  apply (spaces_cons " " ""); [|constructor].
  apply (bool_decide_unpack _). by vm_compute.
Qed.

Example parse_and_match :
  ParseFilterString " name = Ann , age=30,,x" =
    <["name" := VStr "Ann"]> {[ "age" := VStr "30" ]} ∧
  MatchesFilter ann30 (ParseFilterString " name = Ann , age=30,,x") = true.
Proof. split; [reflexivity|by vm_compute]. Qed.

(** An update and a deletion of an id that is not there. *)
Lemma X1_witness :
  (run_call one_user (CallUpdate "users" "nobody" age30)).1
    = Some (ErrNotFound "nobody") ∧
  (run_call one_user (CallDelete "users" "nobody")).1
    = Some (ErrNotFound "nobody").
Proof.
  assert (lookup_doc one_user "users" "nobody" = None) as Hnone by reflexivity.
  destruct (X1_missing_id_not_found one_user "users" "nobody" age30 Hnone)
    as (Hu & Hd & _).
  exact (conj Hu Hd).
Defined.

(** Ann gets another name. *)
Lemma X2_witness :
  ∃ c' s' doc',
    Update ann_alone empty_file "u1" bob = (None, c', s') ∧
    FindByID c' "u1" = Some doc' ∧
    doc' !! "id" = Some (VStr "u1") ∧ doc' !! "name" = Some (VStr "Bob").
Proof.
  assert (documents ann_alone !! "u1" = Some ann30) as Hd by reflexivity.
  eexists _, _. 
  assert (Update ann_alone empty_file "u1" bob
          = (None, (Update ann_alone empty_file "u1" bob).1.2,
                   (Update ann_alone empty_file "u1" bob).2)) as Hu by reflexivity.
  destruct (X2_Update_shallow_merge _ _ _ _ _ _ _ Hd Hu)
    as (doc' & Hf & Hid & Hnew & _).
  exists doc'. split; [exact Hu|]. split; [exact Hf|]. split; [exact Hid|].
  apply Hnew; [done|reflexivity].
Defined.

(** Bob is inserted and found under the generated id. *)
Lemma X3_witness :
  ∃ c' s',
    Insert (users ∅) empty_file "G1" bob = (inr "G1", c', s') ∧
    Count c' = S (Count (users ∅)).
Proof.
  eexists _, _.
  assert (Insert (users ∅) empty_file "G1" bob
          = (inr "G1", (Insert (users ∅) empty_file "G1" bob).1.2,
                       (Insert (users ∅) empty_file "G1" bob).2)) as Hi
    by reflexivity.
  destruct (X3_Insert_then_find _ _ _ _ _ _ _ Hi)
    as (_ & _ & stored & _ & _ & _ & _ & Hc & _).
  exact (conj Hi Hc).
Defined.

Lemma X4_witness :
  ∃ c' s',
    Delete ann_alone empty_file "u1" = (None, c', s') ∧
    FindByID c' "u1" = None.
Proof.
  eexists _, _.
  assert (Delete ann_alone empty_file "u1"
          = (None, (Delete ann_alone empty_file "u1").1.2,
                   (Delete ann_alone empty_file "u1").2)) as Hd by reflexivity.
  destruct (X4_Delete_removes_one _ _ _ _ _ Hd) as (_ & Hgone & _).
  exact (conj Hd Hgone).
Defined.

Lemma X5_witness :
  ∃ c' s' stored,
    Insert (users ∅) empty_file "G1" ann = (inr "u1", c', s') ∧
    Insert c' empty_file "G2" stored = (inl (ErrDuplicateKey "u1"), c', empty_file).
Proof.
  eexists _, _.
  assert (Insert (users ∅) empty_file "G1" ann
          = (inr "u1", (Insert (users ∅) empty_file "G1" ann).1.2,
                       (Insert (users ∅) empty_file "G1" ann).2)) as Hi
    by reflexivity.
  destruct (X5_Insert_twice_rejected _ _ _ _ _ _ _ Hi) as (stored & _ & Hdup).
  exists stored. exact (conj Hi (Hdup "G2" empty_file)).
Defined.

Lemma X6_witness :
  ∃ c1 s1 c2 s2,
    Insert (users ∅) empty_file "G1" bob = (inr "G1", c1, s1) ∧
    Delete c1 s1 "G1" = (None, c2, s2) ∧ c2 = users ∅.
Proof.
  eexists _, _, _, _.
  assert (Insert (users ∅) empty_file "G1" bob
          = (inr "G1", (Insert (users ∅) empty_file "G1" bob).1.2,
                       (Insert (users ∅) empty_file "G1" bob).2)) as Hi
    by reflexivity.
  set (c1 := (Insert (users ∅) empty_file "G1" bob).1.2) in *.
  set (s1 := (Insert (users ∅) empty_file "G1" bob).2) in *.
  assert (Delete c1 s1 "G1"
          = (None, (Delete c1 s1 "G1").1.2, (Delete c1 s1 "G1").2)) as Hd
    by reflexivity.
  destruct (X6_Insert_Delete_restores _ _ _ _ _ _ _ _ _ Hi Hd) as (Heq & _).
  exact (conj Hi (conj Hd Heq)).
Defined.

Lemma X7_witness :
  ∃ c1 s1 c2 s2,
    Update ann_alone empty_file "u1" bob = (None, c1, s1) ∧
    Update c1 s1 "u1" bob = (None, c2, s2) ∧ c2 = c1.
Proof.
  eexists _, _, _, _.
  assert (Update ann_alone empty_file "u1" bob
          = (None, (Update ann_alone empty_file "u1" bob).1.2,
                   (Update ann_alone empty_file "u1" bob).2)) as Hu by reflexivity.
  set (c1 := (Update ann_alone empty_file "u1" bob).1.2) in *.
  set (s1 := (Update ann_alone empty_file "u1" bob).2) in *.
  assert (Update c1 s1 "u1" bob
          = (None, (Update c1 s1 "u1" bob).1.2, (Update c1 s1 "u1" bob).2)) as Hu2
    by reflexivity.
  destruct (X7_Update_idempotent _ _ _ _ _ _ _ _ _ Hu Hu2) as (Heq & _).
  exact (conj Hu (conj Hu2 Heq)).
Defined.

Lemma X8_witness : Find ann_alone ∅ ["u1"] = FindAll ann_alone ["u1"].
Proof.
  exact (proj1 (proj2 (proj2
           (X8_Find_exactly_matching ann_alone ∅ ["u1"] ann_alone_order)))).
Defined.

Lemma X9_witness :
  CountWhere ann_alone is_ann ["u1"] = length (Find ann_alone is_ann ["u1"]).
Proof.
  exact (proj1 (X9_CountWhere_counts_matches ann_alone is_ann ["u1"]
                  ann_alone_order)).
Defined.

Lemma X10_witness :
  ∃ c' s',
    DeleteMany is_ann ["u1"] ann_alone empty_file = ((1, None), c', s') ∧
    1 = CountWhere ann_alone is_ann ["u1"].
Proof.
  eexists _, _.
  assert (DeleteMany is_ann ["u1"] ann_alone empty_file
          = ((1, None), (DeleteMany is_ann ["u1"] ann_alone empty_file).1.2,
                        (DeleteMany is_ann ["u1"] ann_alone empty_file).2)) as Hd
    by reflexivity.
  destruct (proj2 (X10_DeleteMany_removes_matches ann_alone empty_file is_ann
                     ["u1"] ann_alone_order) _ _ _ Hd) as (Hn & _).
  exact (conj Hd Hn).
Defined.

(** The write of the tombstone fails. *)
Lemma X11_witness :
  ∃ err c' s',
    DeleteMany is_ann ["u1"] ann_alone (failing_disk []) = ((0, Some err), c', s') ∧
    err = ErrWrap "failed to persist deletion" ErrIO ∧
    0 < CountWhere ann_alone is_ann ["u1"].
Proof.
  eexists _, _, _.
  assert (DeleteMany is_ann ["u1"] ann_alone (failing_disk [])
          = ((0, Some (ErrWrap "failed to persist deletion" ErrIO)),
             (DeleteMany is_ann ["u1"] ann_alone (failing_disk [])).1.2,
             (DeleteMany is_ann ["u1"] ann_alone (failing_disk [])).2)) as Hd
    by reflexivity.
  destruct (proj1 (X11_many_partial_failure ann_alone (failing_disk []) is_ann ∅
                     ["u1"] ann_alone_order) _ _ _ _ Hd) as (He & Hn & _).
  exact (conj Hd (conj He Hn)).
Defined.

Lemma X12_witness :
  ∃ c' s',
    UpdateMany is_ann age30 ["u1"] ann_alone empty_file = ((1, None), c', s') ∧
    Count c' = Count ann_alone.
Proof.
  eexists _, _.
  assert (UpdateMany is_ann age30 ["u1"] ann_alone empty_file
          = ((1, None),
             (UpdateMany is_ann age30 ["u1"] ann_alone empty_file).1.2,
             (UpdateMany is_ann age30 ["u1"] ann_alone empty_file).2)) as Hu
    by reflexivity.
  destruct (proj2 (X12_UpdateMany_merges_matches ann_alone empty_file is_ann age30
                     ["u1"] ann_alone_order) _ _ _ Hu) as (_ & _ & Hc & _).
  exact (conj Hu Hc).
Defined.


Lemma X14_witness :
  ∃ db',
    DropCollection ann_db "users" ["u1"] = (None, db') ∧
    "users" ∉ ListCollections db'.
Proof.
  eexists.
  assert (DropCollection ann_db "users" ["u1"]
          = (None, (DropCollection ann_db "users" ["u1"]).2)) as Hd
    by reflexivity.
  destruct (X14_DropCollection ann_db "users" ann_alone ["u1"]
              (opened_names_ok ann_file) (opened_consistent ann_file)
              ann_db_users ann_alone_order) as (_ & _ & Hok & _).
  destruct (Hok _ Hd) as (_ & Hgone & _).
  exact (conj Hd Hgone).
Defined.

Lemma X15_witness : MatchesFilter ann30 ann = true.
Proof.
  apply (proj1 (X15_MatchesFilter_monotone ann30 ann30 ann ann)).
  apply insert_subseteq. reflexivity.
Defined.

Lemma X16_witness :
  Where (Where NewQuery "name" (VStr "Ann")) "age" thirty =
  Where (Where NewQuery "age" thirty) "name" (VStr "Ann").
Proof.
  apply (proj2 (proj2 (proj2 (proj2
           (X16_QueryBuilder NewQuery "name" "age" (VStr "Ann") thirty ∅))))).
  done.
Defined.

(** A direction in upper case is not ["desc"]. *)
Lemma X17_witness :
  shouldSwap "age" "DESC" (aged 1) (aged 2) = shouldSwap "age" "asc" (aged 1) (aged 2).
Proof.
  apply (proj2 (proj2 (proj2
           (X17_compareValues_antisymmetric thirty thirty)))).
  done.
Defined.

Lemma X18_witness : SortDocuments [bob; ann] "age" "asc" = [bob; ann].
Proof.
  apply (proj1 (proj2 (proj2 (X18_SortDocuments_fixed [bob; ann] "age" "asc")))).
  intros doc Hin.
  repeat (apply elem_of_cons in Hin as [->|Hin]; [reflexivity|]).
  by apply elem_of_nil in Hin.
Defined.

Lemma one_user_pairs : enumerates one_user [("users", "u1")].
Proof. by apply (enumerates_one empty_file "users" "u1" ann_alone ann30). Qed.

Lemma X19_witness : stat_documents (Stats one_user) = 1.
Proof.
  exact (proj1 (proj2 (proj2 (proj2
           (X19_Stats_totals one_user [("users", "u1")] one_user_pairs))))).
Defined.

Lemma X20_witness :
  ∃ db',
    run_call (opened empty_file) (CallInsert "users" "G1" bob) = (None, db') ∧
    stat_documents (Stats db') = S (stat_documents (Stats (opened empty_file))).
Proof.
  eexists.
  assert (run_call (opened empty_file) (CallInsert "users" "G1" bob)
          = (None,
             (run_call (opened empty_file) (CallInsert "users" "G1" bob)).2))
    as Hr by reflexivity.
  exact (conj Hr (proj1 (X20_Stats_follow_calls _ _ _ Hr))).
Defined.


Lemma X23_witness : ParseFilterString "name" = (∅ : Doc).
Proof.
  assert (has_byte "," "name" = false) as Hc by reflexivity.
  assert (has_byte "=" "name" = false) as He by reflexivity.
  exact (proj1 (proj2 (proj2 (X23_ParseFilterString_conditions "name" "")))
           Hc He).
Defined.

Lemma X24_witness :
  ParseFilterString (" " +:+ "age" +:+ " " +:+ "=" +:+ " " +:+ "30" +:+ " ") =
    ({[ "age" := VStr "30" ]} : Doc).
Proof.
  assert (tight "age" = true) as Hk by reflexivity.
  assert (tight "30" = true) as Hv by reflexivity.
  assert (has_byte "," "age" = false) as Hkc by reflexivity.
  assert (has_byte "=" "age" = false) as Hke by reflexivity.
  assert (has_byte "," "30" = false) as Hvc by reflexivity.
  exact (proj2 (X24_ParseFilterString_spaces " " " " " " " " "age" "30"
                  space_is_space space_is_space space_is_space space_is_space
                  Hk Hv Hkc Hke Hvc)).
Defined.

(** The number 30 matches the condition written as text. *)
Lemma X25_witness :
  MatchesFilter ann30 (ParseFilterString ("age" +:+ "=" +:+ "30")) = true.
Proof.
  assert (tight "age" = true) as Hk by reflexivity.
  assert (tight "30" = true) as Hv by reflexivity.
  assert (has_byte "," "age" = false) as Hkc by reflexivity.
  assert (has_byte "=" "age" = false) as Hke by reflexivity.
  assert (has_byte "," "30" = false) as Hvc by reflexivity.
  apply (proj2 (X25_parsed_condition_matches ann30 "age" "30" Hk Hv Hkc Hke Hvc)).
  exists thirty. split; reflexivity.
Defined.


End Runs.
